(** * A BVH-accelerated sphere ray tracer

    Shallow embedding of [2026/03/03-01-BVH-Accelerated-Ray-Tracer/main.cpp]:
    the axis-aligned boxes, the spheres, the construction of the bounding
    volume hierarchy (flat node arena, surface-area heuristic), its traversal,
    the exhaustive baseline, the path tracer, the image, the camera, the
    generated scene and the rendering loops.  Writing files, the clock and
    the two programs that draw diagrams ([generate_comparison_image],
    [visualize_bvh]) are left out.

    The C++ [double] is kept abstract behind the class [Arith]: every function
    is written once, against the operations the source uses.  Two instances
    are given: [binary64], the IEEE 754 doubles of the machine (Rocq's
    primitive floats), on which the program can be run, and [exactQ], the
    rationals, which is the program with rounding and overflow taken away.
    Theorems that do not depend on rounding are proved for every instance. *)

From Stdlib Require Import ZArith List Bool Lia Permutation Sorted.
From Stdlib Require Import QArith Qabs Lqa Lra Psatz.
From Stdlib Require Import Floats Uint63.
Import ListNotations.

#[local] Set Warnings "-inexact-float".

(** ** Machine integers *)

(** [int] is 32 bits wide.  [to_int32] is the conversion of a wider value
    ([size_t], a pointer difference) to [int]. *)
Definition INT_MIN : Z := - 2 ^ 31.
Definition INT_MAX : Z := 2 ^ 31 - 1.
Definition to_int32 (z : Z) : Z := (z + 2 ^ 31) mod 2 ^ 32 - 2 ^ 31.

(** ** The arithmetic of [double] *)

Class Arith := {
  D : Type;
  add : D -> D -> D;
  sub : D -> D -> D;
  mul : D -> D -> D;
  div : D -> D -> D;
  opp : D -> D;
  dabs : D -> D;                 (* std::abs *)
  ltb : D -> D -> bool;          (* operator< *)
  leb : D -> D -> bool;          (* operator<= *)
  of_int : Z -> D;               (* int converted to double *)
  to_int : D -> Z;               (* (int)x: truncation toward zero *)
  c_1e30 : D;                    (* the literals of the source *)
  c_1em10 : D;
  c_0p125 : D;
  c_0p001 : D;
  c_1e10 : D;
  c_1em8 : D;
  c_0p5 : D;
  c_0p7 : D
}.

(** [std::sqrt] and [std::pow] with an [int] exponent come from libm. *)
Class Sqrt (A : Arith) := dsqrt : D -> D.
Class Pow (A : Arith) := dpow : D -> Z -> D.

Declare Scope D_scope.
Delimit Scope D_scope with D.
Infix "+" := add : D_scope.
Infix "-" := sub : D_scope.
Infix "*" := mul : D_scope.
Infix "/" := div : D_scope.
Notation "- x" := (opp x) : D_scope.
Infix "<?" := ltb : D_scope.
Infix "<=?" := leb : D_scope.
Notation "x >? y" := (ltb y x) : D_scope.
Notation "x >=? y" := (leb y x) : D_scope.

Section StdMinMax.
Context {A : Arith}.
Local Open Scope D_scope.

(** [std::min(a, b)] is [(b < a) ? b : a]; [std::max(a, b)] is
    [(a < b) ? b : a]. *)
Definition std_min (a b : D) : D := if b <? a then b else a.
Definition std_max (a b : D) : D := if a <? b then b else a.
End StdMinMax.

(** *** IEEE 754 binary64 *)

(** [(int)x] on a double: the fraction is dropped.  A value outside the range
    of [int], an infinity or a NaN is undefined in C++; the model returns what
    the x86-64 conversion instruction yields there, [INT_MIN]. *)
Definition float_to_int (f : float) : Z :=
  match Prim2SF f with
  | S754_zero _ => 0
  | S754_finite s m e =>
      let v := if (0 <=? e)%Z then Zpos m * 2 ^ e else Zpos m / 2 ^ (- e) in
      let v := if s then - v else v in
      if ((INT_MIN <=? v) && (v <=? INT_MAX))%Z then v else INT_MIN
  | _ => INT_MIN
  end%Z.

Definition float_of_int (z : Z) : float :=
  if (z <? 0)%Z then PrimFloat.opp (PrimFloat.of_uint63 (Uint63.of_Z (- z)))
  else PrimFloat.of_uint63 (Uint63.of_Z z).

#[export] Instance binary64 : Arith := {|
  D := float;
  add := PrimFloat.add;
  sub := PrimFloat.sub;
  mul := PrimFloat.mul;
  div := PrimFloat.div;
  opp := PrimFloat.opp;
  dabs := PrimFloat.abs;
  ltb := PrimFloat.ltb;
  leb := PrimFloat.leb;
  of_int := float_of_int;
  to_int := float_to_int;
  c_1e30 := 1e30%float;
  c_1em10 := 1e-10%float;
  c_0p125 := 0.125%float;
  c_0p001 := 0.001%float;
  c_1e10 := 1e10%float;
  c_1em8 := 1e-8%float;
  c_0p5 := 0.5%float;
  c_0p7 := 0.7%float
|}.

#[export] Instance binary64_sqrt : Sqrt binary64 := PrimFloat.sqrt.

(** *** Exact rationals *)

Definition Q_to_int (q : Q) : Z :=
  let v := Z.quot (Qnum q) (Zpos (Qden q)) in
  if ((INT_MIN <=? v) && (v <=? INT_MAX))%Z then v else INT_MIN.

Definition Qltb (a b : Q) : bool := negb (Qle_bool b a).

#[export] Instance exactQ : Arith := {|
  D := Q;
  add := Qplus;
  sub := Qminus;
  mul := Qmult;
  div := Qdiv;
  opp := Qopp;
  dabs := Qabs;
  ltb := Qltb;
  leb := Qle_bool;
  of_int := inject_Z;
  to_int := Q_to_int;
  c_1e30 := inject_Z (10 ^ 30);
  c_1em10 := 1 # (10 ^ 10);
  c_0p125 := 1 # 8;
  c_0p001 := 1 # 1000;
  c_1e10 := inject_Z (10 ^ 10);
  c_1em8 := 1 # (10 ^ 8);
  c_0p5 := 1 # 2;
  c_0p7 := 7 # 10
|}.

#[export] Instance exactQ_pow : Pow exactQ := Qpower.

(** ** Results of code that can index out of bounds or loop *)

(** [Undef]: the C++ execution has undefined behaviour (an index outside a
    vector, a null [unique_ptr]).  [OutOfFuel]: the recursion or loop was cut
    by the fuel of the model. *)
Inductive res (T : Type) : Type :=
| Ret (v : T)
| Undef
| OutOfFuel.
Arguments Ret {T} v.
Arguments Undef {T}.
Arguments OutOfFuel {T}.

Definition bind {T U : Type} (m : res T) (k : T -> res U) : res U :=
  match m with
  | Ret v => k v
  | Undef => Undef
  | OutOfFuel => OutOfFuel
  end.

Notation "x <- m ;; k" := (bind m (fun x => k))
  (at level 61, m at next level, right associativity).
Notation "' p <- m ;; k" := (bind m (fun p => k))
  (at level 61, p pattern, m at next level, right associativity).

(** [v[i]] on a [std::vector] with an [int] index. *)
Definition at_ {T : Type} (v : list T) (i : Z) : res T :=
  if (i <? 0)%Z then Undef
  else match nth_error v (Z.to_nat i) with
       | Some a => Ret a
       | None => Undef
       end.

(** [v[i] = a]. *)
Fixpoint set_nth {T : Type} (v : list T) (n : nat) (a : T) : list T :=
  match v, n with
  | [], _ => []
  | _ :: tl, O => a :: tl
  | hd :: tl, S n' => hd :: set_nth tl n' a
  end.

Definition store {T : Type} (v : list T) (i : Z) (a : T) : res (list T) :=
  if ((0 <=? i) && (i <? Z.of_nat (length v)))%Z
  then Ret (set_nth v (Z.to_nat i) a)
  else Undef.

(** ** Vectors and rays *)

Module Vec3.
Section WithArith.
Context {A : Arith}.
Local Open Scope D_scope.

Record t : Type := mk { x : D; y : D; z : D }.

Definition zero : t := mk (of_int 0) (of_int 0) (of_int 0).

Definition add (u v : t) : t := mk (x u + x v) (y u + y v) (z u + z v).
Definition sub (u v : t) : t := mk (x u - x v) (y u - y v) (z u - z v).
(* operator*(double) *)
Definition scale (u : t) (k : D) : t := mk (x u * k) (y u * k) (z u * k).
(* operator*(const Vec3&) *)
Definition mul (u v : t) : t := mk (x u * x v) (y u * y v) (z u * z v).
(* operator/(double) *)
Definition div (u : t) (k : D) : t := mk (x u / k) (y u / k) (z u / k).
Definition neg (u : t) : t := mk (- x u) (- y u) (- z u).
Definition dot (u v : t) : D := x u * x v + y u * y v + z u * z v.
Definition cross (u v : t) : t :=
  mk (y u * z v - z u * y v) (z u * x v - x u * z v)
     (x u * y v - y u * x v).

(* operator[]: (&x)[i] *)
Definition get (u : t) (i : Z) : D :=
  if (i =? 0)%Z then x u else if (i =? 1)%Z then y u else z u.

Definition length {SQ : Sqrt A} (u : t) : D :=
  dsqrt (x u * x u + y u * y u + z u * z u).
Definition normalize {SQ : Sqrt A} (u : t) : t := div u (length u).
End WithArith.
Arguments t {A}.
End Vec3.

Module Ray.
Section WithArith.
Context {A : Arith}.
Record t : Type := mk { origin : Vec3.t; direction : Vec3.t }.
Definition at_t (r : t) (k : D) : Vec3.t :=
  Vec3.add (origin r) (Vec3.scale (direction r) k).
End WithArith.
Arguments t {A}.
End Ray.

(** ** Axis-aligned bounding boxes *)

Module AABB.
Section WithArith.
Context {A : Arith}.
Local Open Scope D_scope.

Record t : Type := mk { min_pt : Vec3.t; max_pt : Vec3.t }.

(** The default constructor: the seed of a chain of merges. *)
Definition empty : t :=
  mk (Vec3.mk c_1e30 c_1e30 c_1e30)
     (Vec3.mk (- c_1e30) (- c_1e30) (- c_1e30)).

Definition merge (a b : t) : t :=
  let small := Vec3.mk (std_min (Vec3.x (min_pt a)) (Vec3.x (min_pt b)))
                       (std_min (Vec3.y (min_pt a)) (Vec3.y (min_pt b)))
                       (std_min (Vec3.z (min_pt a)) (Vec3.z (min_pt b))) in
  let large := Vec3.mk (std_max (Vec3.x (max_pt a)) (Vec3.x (max_pt b)))
                       (std_max (Vec3.y (max_pt a)) (Vec3.y (max_pt b)))
                       (std_max (Vec3.z (max_pt a)) (Vec3.z (max_pt b))) in
  mk small large.

Definition surface_area (b : t) : D :=
  let d := Vec3.sub (max_pt b) (min_pt b) in
  of_int 2 * (Vec3.x d * Vec3.y d + Vec3.y d * Vec3.z d
              + Vec3.z d * Vec3.x d).

Definition centroid (b : t) : Vec3.t :=
  Vec3.scale (Vec3.add (min_pt b) (max_pt b)) c_0p5.

(** One turn of the loop of [intersect], for axis [i]: the narrowed
    interval, or [None] when the loop returns [false]. *)
Definition slab (b : t) (ray : Ray.t) (i : Z) (t_min t_max : D)
  : option (D * D) :=
  let inv_d := of_int 1 / Vec3.get (Ray.direction ray) i in
  let t0 := (Vec3.get (min_pt b) i - Vec3.get (Ray.origin ray) i) * inv_d in
  let t1 := (Vec3.get (max_pt b) i - Vec3.get (Ray.origin ray) i) * inv_d in
  let '(t0, t1) := if inv_d <? of_int 0 then (t1, t0) else (t0, t1) in
  let t_min := std_max t_min t0 in
  let t_max := std_min t_max t1 in
  if t_max <=? t_min then None else Some (t_min, t_max).

(** [for (int i = 0; i < 3; i++)], as a recursion on the axes left. *)
Fixpoint intersect_from (b : t) (ray : Ray.t) (axes : list Z)
    (t_min t_max : D) : bool :=
  match axes with
  | [] => true
  | i :: rest =>
      match slab b ray i t_min t_max with
      | None => false
      | Some (t_min', t_max') => intersect_from b ray rest t_min' t_max'
      end
  end.

Definition intersect (b : t) (ray : Ray.t) (t_min t_max : D) : bool :=
  intersect_from b ray [0; 1; 2]%Z t_min t_max.
End WithArith.
Arguments t {A}.
End AABB.

(** ** Materials, hit records, spheres *)

Module Material.
Inductive Type_ : Type := DIFFUSE | METAL | GLASS.
Section WithArith.
Context {A : Arith}.
Record t : Type := mk {
  type : Type_;
  albedo : Vec3.t;
  roughness : D;
  ior : D
}.
Definition diffuse (color : Vec3.t) : t :=
  mk DIFFUSE color (of_int 0) (of_int 0).
Definition metal (color : Vec3.t) (rough : D) : t :=
  mk METAL color rough (of_int 0).
Definition glass (ior : D) : t :=
  mk GLASS (Vec3.mk (of_int 1) (of_int 1) (of_int 1)) (of_int 0) ior.
End WithArith.
Arguments t {A}.
End Material.

Module HitRecord.
Section WithArith.
Context {A : Arith}.
Local Open Scope D_scope.
Record t : Type := mk {
  point : Vec3.t;
  normal : Vec3.t;
  t_ : D;                      (* the field [t] *)
  front_face : bool;
  mat : Material.t
}.
End WithArith.
Arguments t {A}.
End HitRecord.

Module Sphere.
Section WithArith.
Context {A : Arith} {SQ : Sqrt A}.
Local Open Scope D_scope.

Record t : Type := mk { center : Vec3.t; radius : D; mat : Material.t }.

Definition bounding_box (s : t) : AABB.t :=
  let r_vec := Vec3.mk (radius s) (radius s) (radius s) in
  AABB.mk (Vec3.sub (center s) r_vec) (Vec3.add (center s) r_vec).

(** The record written through [rec] once the root [t] is accepted
    ([set_face_normal] inlined). *)
Definition record (s : t) (ray : Ray.t) (t : D) : HitRecord.t :=
  let point := Ray.at_t ray t in
  let outward_normal := Vec3.div (Vec3.sub point (center s)) (radius s) in
  let front_face :=
    Vec3.dot (Ray.direction ray) outward_normal <? of_int 0 in
  let normal := if front_face then outward_normal
                else Vec3.neg outward_normal in
  HitRecord.mk point normal t front_face (mat s).

(** [Some rec]: the call returns [true] and has written [rec];
    [None]: it returns [false] and leaves [rec] alone. *)
Definition intersect (s : t) (ray : Ray.t) (t_min t_max : D)
  : option HitRecord.t :=
  let oc := Vec3.sub (Ray.origin ray) (center s) in
  let a := Vec3.dot (Ray.direction ray) (Ray.direction ray) in
  let half_b := Vec3.dot oc (Ray.direction ray) in
  let c := Vec3.dot oc oc - radius s * radius s in
  let discriminant := half_b * half_b - a * c in
  if discriminant <? of_int 0 then None
  else
    let sqrt_d := dsqrt discriminant in
    let t := (- half_b - sqrt_d) / a in
    if (t <? t_min) || (t >? t_max) then
      let t := (- half_b + sqrt_d) / a in
      if (t <? t_min) || (t >? t_max) then None
      else Some (record s ray t)
    else Some (record s ray t).
End WithArith.
Arguments t {A}.
End Sphere.

(** ** The algorithms of the C++ standard library *)

(** [std::sort] and [std::partition] reorder a range in an order the standard
    leaves open.  They are parameters of the model.  [std_partition p l] gives
    the reordered range and the offset of the returned iterator in it. *)
Class StdAlgo := {
  std_sort : (Z -> Z -> bool) -> list Z -> list Z;
  std_partition : (Z -> bool) -> list Z -> list Z * nat
}.

(** Sub-range [start, end) of a vector, and the vector with that sub-range
    replaced. *)
Definition range {T : Type} (v : list T) (start end_ : Z) : list T :=
  firstn (Z.to_nat (end_ - start)) (skipn (Z.to_nat start) v).

Definition splice {T : Type} (v : list T) (start end_ : Z) (seg : list T)
  : list T :=
  firstn (Z.to_nat start) v ++ seg ++ skipn (Z.to_nat end_) v.

(** Iterating over [begin() + start, begin() + end) is defined only inside the
    vector. *)
Definition get_range {T : Type} (v : list T) (start end_ : Z) : res (list T) :=
  if ((0 <=? start) && (start <=? end_)
      && (end_ <=? Z.of_nat (length v)))%Z
  then Ret (range v start end_)
  else Undef.

(** ** BVH nodes and construction *)

Module BVHNode.
Section WithArith.
Context {A : Arith}.
Record t : Type := mk {
  bbox : AABB.t;
  left : Z;
  right : Z;
  sphere_idx : Z;
  is_leaf : bool
}.
(** [BVHNode()]. *)
Definition default : t := mk AABB.empty (-1) (-1) (-1) false.
End WithArith.
Arguments t {A}.
End BVHNode.

Module BVH.
Section WithArith.
Context {A : Arith} {SA : StdAlgo}.
Local Open Scope D_scope.

Record t : Type := mk {
  nodes : list BVHNode.t;
  spheres : list Sphere.t
}.

Definition NUM_BUCKETS : Z := 12.

Record Bucket : Type := mkBucket { bucket_bbox : AABB.t; bucket_count : Z }.
Definition Bucket0 : Bucket := mkBucket AABB.empty 0.

(** [spheres[a].center[axis]] as the comparators of [sah_split] read it.
    The indices they are handed come from [indices]; reading [spheres]
    outside its bounds is undefined in C++, the model reads a zero
    there. *)
Definition center_on (sph : list Sphere.t) (axis : Z) (a : Z) : D :=
  match (if (a <? 0)%Z then None else nth_error sph (Z.to_nat a)) with
  | Some s => Vec3.get (Sphere.center s) axis
  | None => of_int 0
  end.

Definition by_center (sph : list Sphere.t) (axis : Z) (a b : Z) : bool :=
  center_on sph axis a <? center_on sph axis b.

(** The loop [for (i = start; i < end; i++)] that bounds the centres. *)
Definition grow (b : AABB.t) (c : Vec3.t) : AABB.t :=
  AABB.mk
    (Vec3.mk (std_min (Vec3.x (AABB.min_pt b)) (Vec3.x c))
             (std_min (Vec3.y (AABB.min_pt b)) (Vec3.y c))
             (std_min (Vec3.z (AABB.min_pt b)) (Vec3.z c)))
    (Vec3.mk (std_max (Vec3.x (AABB.max_pt b)) (Vec3.x c))
             (std_max (Vec3.y (AABB.max_pt b)) (Vec3.y c))
             (std_max (Vec3.z (AABB.max_pt b)) (Vec3.z c))).

Fixpoint centroid_bounds (sph : list Sphere.t) (idxs : list Z)
    (b : AABB.t) : res AABB.t :=
  match idxs with
  | [] => Ret b
  | i :: rest =>
      s <- at_ sph i ;;
      centroid_bounds sph rest (grow b (Sphere.center s))
  end.

Definition longest_axis (centroid_bbox : AABB.t) : Z :=
  let extent := Vec3.sub (AABB.max_pt centroid_bbox)
                         (AABB.min_pt centroid_bbox) in
  let axis := 0%Z in
  let axis := if Vec3.y extent >? Vec3.x extent then 1%Z else axis in
  let axis := if Vec3.z extent >? Vec3.get extent axis then 2%Z else axis in
  axis.

(** [buckets[b].count++; buckets[b].bbox = merge(buckets[b].bbox, box)].
    The source clamps [b] from above only; a write below the array is
    undefined in C++ and leaves the twelve buckets of the model as they
    are. *)
Fixpoint bucket_add (buckets : list Bucket) (b : nat) (box : AABB.t)
  : list Bucket :=
  match buckets, b with
  | [], _ => []
  | bk :: tl, O =>
      mkBucket (AABB.merge (bucket_bbox bk) box) (bucket_count bk + 1) :: tl
  | bk :: tl, S b' => bk :: bucket_add tl b' box
  end.

Definition bucket_of (axis : Z) (centroid_bbox : AABB.t) (extent : D)
    (s : Sphere.t) : Z :=
  let c := Vec3.get (Sphere.center s) axis in
  let b := to_int (of_int NUM_BUCKETS
                   * (c - Vec3.get (AABB.min_pt centroid_bbox) axis)
                   / extent) in
  if (b >=? NUM_BUCKETS)%Z then (NUM_BUCKETS - 1)%Z else b.

Fixpoint fill_buckets (sph : list Sphere.t) (axis : Z)
    (centroid_bbox : AABB.t) (extent : D) (idxs : list Z)
    (buckets : list Bucket) : res (list Bucket) :=
  match idxs with
  | [] => Ret buckets
  | i :: rest =>
      s <- at_ sph i ;;
      let b := bucket_of axis centroid_bbox extent s in
      let buckets :=
        if (b <? 0)%Z then buckets
        else bucket_add buckets (Z.to_nat b) (Sphere.bounding_box s) in
      fill_buckets sph axis centroid_bbox extent rest buckets
  end.

(** The two inner loops of the cost computation: box and count of a run
    of buckets. *)
Definition sweep (bs : list Bucket) : AABB.t * Z :=
  fold_left (fun acc bk =>
               (AABB.merge (fst acc) (bucket_bbox bk),
                (snd acc + bucket_count bk)%Z))
            bs (AABB.empty, 0%Z).

Definition cost (buckets : list Bucket) (i : nat) : D :=
  let '(b0, cnt0) := sweep (firstn (S i) buckets) in
  let '(b1, cnt1) := sweep (skipn (S i) buckets) in
  c_0p125 + (of_int cnt0 * AABB.surface_area b0
             + of_int cnt1 * AABB.surface_area b1)
            / AABB.surface_area (AABB.merge b0 b1).

(** [for (i = 1; i < NUM_BUCKETS - 1; i++) if (costs[i] < min_cost) ...] *)
Fixpoint argmin_from (costs : list D) (i : Z) (min_bucket : Z)
    (min_cost : D) : Z :=
  match costs with
  | [] => min_bucket
  | c :: rest =>
      if c <? min_cost then argmin_from rest (i + 1)%Z i c
      else argmin_from rest (i + 1)%Z min_bucket min_cost
  end.

Definition min_cost_bucket (buckets : list Bucket) : Z :=
  let costs := map (cost buckets) (seq 0 (Z.to_nat (NUM_BUCKETS - 1))) in
  match costs with
  | [] => 0%Z
  | c0 :: rest => argmin_from rest 1%Z 0%Z c0
  end.

Definition sah_split (sph : list Sphere.t) (indices : list Z)
    (start end_ : Z) (axis : Z) (centroid_bbox : AABB.t)
  : res (Z * list Z) :=
  let count := (end_ - start)%Z in
  if (count <=? 4)%Z then
    seg <- get_range indices start end_ ;;
    Ret ((start + Z.quot count 2)%Z,
         splice indices start end_ (std_sort (by_center sph axis) seg))
  else
    let extent := Vec3.get (AABB.max_pt centroid_bbox) axis
                  - Vec3.get (AABB.min_pt centroid_bbox) axis in
    if extent <? c_1em10 then
      Ret ((start + Z.quot count 2)%Z, indices)
    else
      seg <- get_range indices start end_ ;;
      buckets <- fill_buckets sph axis centroid_bbox extent seg
                   (repeat Bucket0 (Z.to_nat NUM_BUCKETS)) ;;
      let min_bucket := min_cost_bucket buckets in
      let split_val := Vec3.get (AABB.min_pt centroid_bbox) axis
                       + of_int (min_bucket + 1) * extent
                         / of_int NUM_BUCKETS in
      let '(seg', k) :=
        std_partition (fun idx => center_on sph axis idx <? split_val)
                      seg in
      let mid := to_int32 (start + Z.of_nat k) in
      let mid := if ((mid =? start) || (mid =? end_))%Z
                 then (start + Z.quot count 2)%Z else mid in
      Ret (mid, splice indices start end_ seg').

(** [nodes[i].field = ...]: the node at [i] is read, changed and put
    back. *)
Definition modify (nodes : list BVHNode.t) (i : Z)
    (f : BVHNode.t -> BVHNode.t) : res (list BVHNode.t) :=
  n <- at_ nodes i ;;
  store nodes i (f n).

Definition set_leaf (si : Z) (box : AABB.t) (n : BVHNode.t) : BVHNode.t :=
  BVHNode.mk box (BVHNode.left n) (BVHNode.right n) si true.

Definition set_inner (l r : Z) (box : AABB.t) (n : BVHNode.t)
  : BVHNode.t :=
  BVHNode.mk box l r (BVHNode.sphere_idx n) false.

(** [build]: the members [nodes] and the vector [indices] passed by
    reference are threaded through; the result is the index of the node
    built with both vectors as the call leaves them. *)
Fixpoint build (fuel : nat) (sph : list Sphere.t)
    (nodes : list BVHNode.t) (indices : list Z) (start end_ : Z)
  : res (Z * list BVHNode.t * list Z) :=
  match fuel with
  | O => OutOfFuel
  | S fuel' =>
      let node_idx := to_int32 (Z.of_nat (length nodes)) in
      let nodes := nodes ++ [BVHNode.default] in
      let count := (end_ - start)%Z in
      if (count =? 1)%Z then
        si <- at_ indices start ;;
        s <- at_ sph si ;;
        nodes <- modify nodes node_idx
                   (set_leaf si (Sphere.bounding_box s)) ;;
        Ret (node_idx, nodes, indices)
      else
        seg <- (if (start <? end_)%Z then get_range indices start end_
                else Ret []) ;;
        centroid_bbox <- centroid_bounds sph seg AABB.empty ;;
        let axis := longest_axis centroid_bbox in
        '(mid, indices) <- sah_split sph indices start end_ axis
                             centroid_bbox ;;
        '(left_child, nodes, indices) <-
           build fuel' sph nodes indices start mid ;;
        '(right_child, nodes, indices) <-
           build fuel' sph nodes indices mid end_ ;;
        l <- at_ nodes left_child ;;
        r <- at_ nodes right_child ;;
        nodes <- modify nodes node_idx
                   (set_inner left_child right_child
                      (AABB.merge (BVHNode.bbox l) (BVHNode.bbox r))) ;;
        Ret (node_idx, nodes, indices)
  end.

(** The constructor [BVH(spheres)]. *)
Definition iota (sph : list Sphere.t) : list Z :=
  let n := to_int32 (Z.of_nat (length sph)) in
  map (fun i => let i := Z.of_nat i in if (i <? n)%Z then i else 0%Z)
      (seq 0 (length sph)).

Definition make (fuel : nat) (sph : list Sphere.t) : res t :=
  match sph with
  | [] => Ret (mk [] sph)
  | _ :: _ =>
      let indices := iota sph in
      '(_, nodes, _) <- build fuel sph [] indices 0
                          (to_int32 (Z.of_nat (length indices))) ;;
      Ret (mk nodes sph)
  end.
End WithArith.
Arguments t {A}.
End BVH.

(** ** BVH traversal *)

Module Traverse.
Section WithArith.
Context {A : Arith} {SQ : Sqrt A}.
Local Open Scope D_scope.

(** [BVH::intersect_node].  The result is the record written through
    [rec] when the call returns [true], and the counter [tests].  The
    counter is an [int] in the source; the model counts in [Z] and does not
    represent its overflow. *)
Fixpoint intersect_node (fuel : nat) (bvh : BVH.t) (node_idx : Z)
    (ray : Ray.t) (t_min t_max : D) (tests : Z)
  : res (option HitRecord.t * Z) :=
  match fuel with
  | O => OutOfFuel
  | S fuel' =>
      node <- at_ (BVH.nodes bvh) node_idx ;;
      let tests := (tests + 1)%Z in
      if negb (AABB.intersect (BVHNode.bbox node) ray t_min t_max)
      then Ret (None, tests)
      else if BVHNode.is_leaf node then
        s <- at_ (BVH.spheres bvh) (BVHNode.sphere_idx node) ;;
        Ret (Sphere.intersect s ray t_min t_max, tests)
      else
        '(hit_left, tests) <-
           (if (BVHNode.left node >=? 0)%Z
            then intersect_node fuel' bvh (BVHNode.left node) ray
                   t_min t_max tests
            else Ret (None, tests)) ;;
        let t_closest := match hit_left with
                         | Some rec_left => HitRecord.t_ rec_left
                         | None => t_max
                         end in
        '(hit_right, tests) <-
           (if (BVHNode.right node >=? 0)%Z
            then intersect_node fuel' bvh (BVHNode.right node) ray
                   t_min t_closest tests
            else Ret (None, tests)) ;;
        match hit_right with
        | Some rec_right => Ret (Some rec_right, tests)
        | None => Ret (hit_left, tests)
        end
  end.

(** [BVH::intersect]. *)
Definition intersect (fuel : nat) (bvh : BVH.t) (ray : Ray.t)
    (t_min t_max : D) (tests : Z) : res (option HitRecord.t * Z) :=
  match BVH.nodes bvh with
  | [] => Ret (None, tests)
  | _ :: _ => intersect_node fuel bvh 0 ray t_min t_max tests
  end.
End WithArith.
End Traverse.

(** ** Scenes *)

Module Scene.
Section WithArith.
Context {A : Arith} {SQ : Sqrt A} {SA : StdAlgo}.
Local Open Scope D_scope.

(** [bvh] is a [unique_ptr], null until [build_bvh]. *)
Record t : Type := mk {
  spheres : list Sphere.t;
  bvh : option BVH.t
}.

Definition build_bvh (fuel : nat) (sc : t) : res t :=
  b <- BVH.make fuel (spheres sc) ;;
  Ret (mk (spheres sc) (Some b)).

(** The loop of [intersect_brute] from the state [(hit, closest)]. *)
Fixpoint brute_loop (sph : list Sphere.t) (ray : Ray.t) (t_min : D)
    (closest : D) (hit : option HitRecord.t) : option HitRecord.t :=
  match sph with
  | [] => hit
  | sphere :: rest =>
      match Sphere.intersect sphere ray t_min closest with
      | Some tmp => brute_loop rest ray t_min (HitRecord.t_ tmp) (Some tmp)
      | None => brute_loop rest ray t_min closest hit
      end
  end.

Definition intersect_brute (sc : t) (ray : Ray.t) (t_min t_max : D)
  : option HitRecord.t :=
  brute_loop (spheres sc) ray t_min t_max None.

Definition intersect_bvh (fuel : nat) (sc : t) (ray : Ray.t)
    (t_min t_max : D) (tests : Z) : res (option HitRecord.t * Z) :=
  match bvh sc with
  | None => Undef
  | Some b => Traverse.intersect fuel b ray t_min t_max tests
  end.
End WithArith.
Arguments t {A}.
End Scene.

(** ** Random numbers and scattering *)

(** [rand01()] draws from a generator that is global in the source; the
    model threads its state.  The generator itself (mt19937) is library
    code. *)
Class Rng (A : Arith) := {
  rng_t : Type;
  rand01 : rng_t -> D * rng_t
}.

Section PathTracer.
Context {A : Arith} {SQ : Sqrt A} {P : Pow A} {R : Rng A} {SA : StdAlgo}.
Local Open Scope D_scope.

Definition rand_range (a b : D) (g : rng_t) : D * rng_t :=
  let '(u, g) := rand01 g in (a + (b - a) * u, g).

(** [while (true)]: rejection sampling.  The three coordinates are drawn in
    the order x, y, z (C++ leaves the order of the three calls open). *)
Fixpoint rand_in_unit_sphere (spin : nat) (g : rng_t)
  : res (Vec3.t * rng_t) :=
  match spin with
  | O => OutOfFuel
  | S spin' =>
      let '(px, g) := rand_range (of_int (-1)) (of_int 1) g in
      let '(py, g) := rand_range (of_int (-1)) (of_int 1) g in
      let '(pz, g) := rand_range (of_int (-1)) (of_int 1) g in
      let p := Vec3.mk px py pz in
      if Vec3.dot p p <? of_int 1 then Ret (p, g)
      else rand_in_unit_sphere spin' g
  end.

Definition rand_unit_vec (spin : nat) (g : rng_t) : res (Vec3.t * rng_t) :=
  '(p, g) <- rand_in_unit_sphere spin g ;;
  Ret (Vec3.normalize p, g).

Definition reflect (v n : Vec3.t) : Vec3.t :=
  Vec3.sub v (Vec3.scale n (of_int 2 * Vec3.dot v n)).

Definition refract (uv n : Vec3.t) (etai_over_etat : D) : Vec3.t :=
  let cos_theta := std_min (Vec3.dot (Vec3.neg uv) n) (of_int 1) in
  let r_out_perp :=
    Vec3.scale (Vec3.add uv (Vec3.scale n cos_theta)) etai_over_etat in
  let r_out_parallel :=
    Vec3.scale n
      (- dsqrt (dabs (of_int 1 - Vec3.dot r_out_perp r_out_perp))) in
  Vec3.add r_out_perp r_out_parallel.

Definition schlick (cosine ior : D) : D :=
  let r0 := (of_int 1 - ior) / (of_int 1 + ior) in
  let r0 := r0 * r0 in
  r0 + (of_int 1 - r0) * dpow (of_int 1 - cosine) 5.

Definition black : Vec3.t := Vec3.mk (of_int 0) (of_int 0) (of_int 0).

Definition sky (ray : Ray.t) : Vec3.t :=
  let unit_dir := Vec3.normalize (Ray.direction ray) in
  let t := c_0p5 * (Vec3.y unit_dir + of_int 1) in
  Vec3.add (Vec3.scale (Vec3.mk (of_int 1) (of_int 1) (of_int 1))
                       (of_int 1 - t))
           (Vec3.scale (Vec3.mk c_0p5 c_0p7 (of_int 1)) t).

(** The GLASS branch of [ray_color]: the direction of the scattered ray.
    [rand01()] is the right operand of [||] and is called only when the
    left one is false. *)
Definition glass_direction (ray : Ray.t) (rec : HitRecord.t) (g : rng_t)
  : Vec3.t * rng_t :=
  let mat := HitRecord.mat rec in
  let ior := if HitRecord.front_face rec
             then of_int 1 / Material.ior mat else Material.ior mat in
  let unit_dir := Vec3.normalize (Ray.direction ray) in
  let cos_theta :=
    std_min (Vec3.dot (Vec3.neg unit_dir) (HitRecord.normal rec))
            (of_int 1) in
  let sin_theta := dsqrt (of_int 1 - cos_theta * cos_theta) in
  let cannot_refract := ior * sin_theta >? of_int 1 in
  if cannot_refract
  then (reflect unit_dir (HitRecord.normal rec), g)
  else
    let '(u, g) := rand01 g in
    if schlick cos_theta ior >? u
    then (reflect unit_dir (HitRecord.normal rec), g)
    else (refract unit_dir (HitRecord.normal rec) ior, g).

(** [ray_color].  [fuel] bounds the recursion, [inner] each traversal and
    each rejection loop.  The state is the generator and the counter
    [total_tests]. *)
Fixpoint ray_color (fuel inner : nat) (ray : Ray.t) (scene : Scene.t)
    (depth : Z) (use_bvh : bool) (st : rng_t * Z)
  : res (Vec3.t * (rng_t * Z)) :=
  if (depth <=? 0)%Z then Ret (black, st)
  else
    match fuel with
    | O => OutOfFuel
    | S fuel' =>
        let '(g, total_tests) := st in
        '(hit, tests) <-
           (if use_bvh
            then Scene.intersect_bvh inner scene ray c_0p001 c_1e10 0%Z
            else Ret (Scene.intersect_brute scene ray c_0p001 c_1e10, 0%Z)) ;;
        let total_tests := (total_tests + tests)%Z in
        match hit with
        | None => Ret (sky ray, (g, total_tests))
        | Some rec =>
            let mat := HitRecord.mat rec in
            match Material.type mat with
            | Material.DIFFUSE =>
                '(v, g) <- rand_unit_vec inner g ;;
                let scatter_dir := Vec3.add (HitRecord.normal rec) v in
                let scatter_dir :=
                  if Vec3.dot scatter_dir scatter_dir <? c_1em8
                  then HitRecord.normal rec else scatter_dir in
                let scattered :=
                  Ray.mk (HitRecord.point rec) (Vec3.normalize scatter_dir) in
                '(c, st) <- ray_color fuel' inner scattered scene
                              (depth - 1)%Z use_bvh (g, total_tests) ;;
                Ret (Vec3.mul (Material.albedo mat) c, st)
            | Material.METAL =>
                let reflected :=
                  reflect (Vec3.normalize (Ray.direction ray))
                          (HitRecord.normal rec) in
                '(p, g) <- rand_in_unit_sphere inner g ;;
                let scattered :=
                  Ray.mk (HitRecord.point rec)
                    (Vec3.add reflected
                       (Vec3.scale p (Material.roughness mat))) in
                if Vec3.dot (Ray.direction scattered) (HitRecord.normal rec)
                   <=? of_int 0
                then Ret (black, (g, total_tests))
                else
                  '(c, st) <- ray_color fuel' inner scattered scene
                                (depth - 1)%Z use_bvh (g, total_tests) ;;
                  Ret (Vec3.mul (Material.albedo mat) c, st)
            | Material.GLASS =>
                let attenuation :=
                  Vec3.mk (of_int 1) (of_int 1) (of_int 1) in
                let '(direction, g) := glass_direction ray rec g in
                let scattered := Ray.mk (HitRecord.point rec) direction in
                '(c, st) <- ray_color fuel' inner scattered scene
                              (depth - 1)%Z use_bvh (g, total_tests) ;;
                Ret (Vec3.mul attenuation c, st)
            end
        end
    end.
End PathTracer.

(** ** Further literals of the source *)

Class Literals (A : Arith) := {
  c_255p999 : D;
  c_0p2 : D;
  c_1p2 : D;
  c_0p9 : D;
  c_1p5 : D;
  c_0p4 : D;
  c_0p1 : D;
  c_0p6 : D
}.

#[export] Instance binary64_literals : Literals binary64 :=
  @Build_Literals binary64 255.999%float 0.2%float 1.2%float 0.9%float
    1.5%float 0.4%float 0.1%float 0.6%float.

#[export] Instance exactQ_literals : Literals exactQ :=
  @Build_Literals exactQ (255999 # 1000) (1 # 5) (6 # 5) (9 # 10) (3 # 2)
    (2 # 5) (1 # 10) (3 # 5).

(** ** Images *)

Module Image.
Section WithArith.
Context {A : Arith} {SQ : Sqrt A} {L : Literals A}.
Local Open Scope D_scope.

Record t : Type := mk {
  width : Z;
  height : Z;
  pixels : list Vec3.t
}.

Definition in_int (z : Z) : bool := ((INT_MIN <=? z) && (z <=? INT_MAX))%Z.

(** [Image(w, h)]: [pixels(w * h)] holds [w * h] zero vectors.  The product
    is an [int]; there is no image when it overflows (undefined in C++) or
    is negative (as a [size_t] it is beyond what a vector can hold, and the
    allocation throws). *)
Definition make (w h : Z) : option t :=
  let n := (w * h)%Z in
  if ((0 <=? n) && (n <=? INT_MAX))%Z
  then Some (mk w h (repeat Vec3.zero (Z.to_nat n)))
  else None.

(** [y * width + x], in [int]. *)
Definition index (img : t) (x y : Z) : res Z :=
  let row := (y * width img)%Z in
  let i := (row + x)%Z in
  if in_int row && in_int i then Ret i else Undef.

(** [img.at(x, y)] read, and [img.at(x, y) = c]. *)
Definition get (img : t) (x y : Z) : res Vec3.t :=
  i <- index img x y ;; at_ (pixels img) i.

Definition set (img : t) (x y : Z) (c : Vec3.t) : res t :=
  i <- index img x y ;;
  px <- store (pixels img) i c ;;
  Ret (mk (width img) (height img) px).

(** [(uint8_t)x] on a double: the fraction is dropped; undefined when what
    is left is not a value of [uint8_t]. *)
Definition to_uint8 (x : D) : res Z :=
  let v := to_int x in
  if ((0 <=? v) && (v <=? 255))%Z then Ret v else Undef.

(** One channel of a pixel as [save_png] writes it: clamped to [0, 1],
    gamma-corrected by a square root, scaled by 255.999. *)
Definition channel (p : D) : res Z :=
  let r := dsqrt (std_max (of_int 0) (std_min (of_int 1) p)) in
  to_uint8 (c_255p999 * r).
End WithArith.
Arguments t {A}.
End Image.

(** ** The camera *)

(** [std::tan] and the constant [M_PI] come from libm. *)
Class Trig (A : Arith) := {
  dtan : D -> D;
  M_PI : D
}.

Module Camera.
Section WithArith.
Context {A : Arith} {SQ : Sqrt A} {T : Trig A} {R : Rng A}.
Local Open Scope D_scope.

Record t : Type := mk {
  origin : Vec3.t;
  lower_left : Vec3.t;
  horizontal : Vec3.t;
  vertical : Vec3.t;
  u : Vec3.t;
  v : Vec3.t;
  w : Vec3.t;
  lens_radius : D
}.

(** The constructor.  [double * Vec3] is [Vec3 * double] with the operands
    swapped. *)
Definition make (look_from look_at vup : Vec3.t)
    (vfov aspect aperture focus_dist : D) : t :=
  let theta := vfov * M_PI / of_int 180 in
  let h := dtan (theta / of_int 2) in
  let viewport_height := of_int 2 * h in
  let viewport_width := aspect * viewport_height in
  let w := Vec3.normalize (Vec3.sub look_from look_at) in
  let u := Vec3.normalize (Vec3.cross vup w) in
  let v := Vec3.cross w u in
  let origin := look_from in
  let horizontal := Vec3.scale u (focus_dist * viewport_width) in
  let vertical := Vec3.scale v (focus_dist * viewport_height) in
  let lower_left :=
    Vec3.sub (Vec3.sub (Vec3.sub origin (Vec3.scale horizontal c_0p5))
                       (Vec3.scale vertical c_0p5))
             (Vec3.scale w focus_dist) in
  mk origin lower_left horizontal vertical u v w (aperture / of_int 2).

(** [get_ray]: one point of the lens is drawn, then the ray from it
    through the point [(s, t)] of the focus plane. *)
Definition get_ray (spin : nat) (cam : t) (s t : D) (g : rng_t)
  : res (Ray.t * rng_t) :=
  '(p, g) <- rand_in_unit_sphere spin g ;;
  let rd := Vec3.scale p (lens_radius cam) in
  let offset := Vec3.add (Vec3.scale (u cam) (Vec3.x rd))
                         (Vec3.scale (v cam) (Vec3.y rd)) in
  Ret (Ray.mk (Vec3.add (origin cam) offset)
         (Vec3.normalize
            (Vec3.sub
               (Vec3.sub
                  (Vec3.add
                     (Vec3.add (lower_left cam)
                               (Vec3.scale (horizontal cam) s))
                     (Vec3.scale (vertical cam) t))
                  (origin cam))
               offset)),
       g).
End WithArith.
Arguments t {A}.
End Camera.

(** ** The generated scene *)

Section SceneGen.
Context {A : Arith} {SQ : Sqrt A} {L : Literals A} {R : Rng A}.
Local Open Scope D_scope.

(** A vector given by three [int] literals. *)
Definition vec_i (a b c : Z) : Vec3.t :=
  Vec3.mk (of_int a) (of_int b) (of_int c).

(** The ground and the three large spheres. *)
Definition fixed_spheres : list Sphere.t :=
  [ Sphere.mk (vec_i 0 (-1000) 0) (of_int 1000)
      (Material.diffuse (Vec3.mk c_0p5 c_0p5 c_0p5));
    Sphere.mk (vec_i 0 1 0) (of_int 1) (Material.glass c_1p5);
    Sphere.mk (vec_i (-4) 1 0) (of_int 1)
      (Material.diffuse (Vec3.mk c_0p4 c_0p2 c_0p1));
    Sphere.mk (vec_i 4 1 0) (of_int 1)
      (Material.metal (Vec3.mk c_0p7 c_0p6 c_0p5) (of_int 0)) ].

Definition big_centers : list Vec3.t :=
  [ vec_i 0 1 0; vec_i (-4) 1 0; vec_i 4 1 0 ].

(** The loop over [big_centers]: the value of [ok] after it. *)
Fixpoint clear_of (center : Vec3.t) (bcs : list Vec3.t) : bool :=
  match bcs with
  | [] => true
  | bc :: rest =>
      if Vec3.length (Vec3.sub center bc) <? c_1p2 then false
      else clear_of center rest
  end.

(** The material of a small sphere.  The numbers of one albedo are drawn
    from left to right (C++ leaves the order of the calls in one
    constructor call open). *)
Definition random_material (g : rng_t) : Material.t * rng_t :=
  let '(mat_choice, g) := rand01 g in
  if mat_choice <? c_0p7 then
    let '(a1, g) := rand01 g in
    let '(a2, g) := rand01 g in
    let '(a3, g) := rand01 g in
    let '(a4, g) := rand01 g in
    let '(a5, g) := rand01 g in
    let '(a6, g) := rand01 g in
    (Material.diffuse (Vec3.mk (a1 * a2) (a3 * a4) (a5 * a6)), g)
  else if mat_choice <? c_0p9 then
    let '(a1, g) := rand01 g in
    let '(a2, g) := rand01 g in
    let '(a3, g) := rand01 g in
    let albedo := Vec3.mk (c_0p5 + c_0p5 * a1) (c_0p5 + c_0p5 * a2)
                          (c_0p5 + c_0p5 * a3) in
    let '(a4, g) := rand01 g in
    (Material.metal albedo (c_0p5 * a4), g)
  else (Material.glass c_1p5, g).

(** The loop [while (placed < num_spheres && attempts < num_spheres * 10)].
    [budget] is [num_spheres * 10 - attempts], the attempts that are
    left. *)
Fixpoint place (budget : nat) (num_spheres placed : Z) (g : rng_t)
    (spheres : list Sphere.t) : list Sphere.t :=
  match budget with
  | O => spheres
  | S budget' =>
      if (placed <? num_spheres)%Z then
        let '(u1, g) := rand01 g in
        let cx := u1 * of_int 22 - of_int 11 in
        let '(u2, g) := rand01 g in
        let cz := u2 * of_int 22 - of_int 11 in
        let center := Vec3.mk cx c_0p2 cz in
        if clear_of center big_centers then
          let '(mat, g) := random_material g in
          place budget' num_spheres (placed + 1)%Z g
            (spheres ++ [Sphere.mk center c_0p2 mat])
        else place budget' num_spheres placed g spheres
      else spheres
  end.

(** [generate_scene].  [g] is the state of the local generator after its
    seeding.  The product [num_spheres * 10] is an [int], evaluated when
    [num_spheres] is positive; its overflow is undefined. *)
Definition generate_scene (num_spheres : Z) (g : rng_t) : res Scene.t :=
  if ((0 <? num_spheres) && (INT_MAX <? num_spheres * 10))%Z then Undef
  else Ret (Scene.mk
              (place (Z.to_nat (num_spheres * 10)) num_spheres 0 g
                     fixed_spheres)
              None).
End SceneGen.

(** ** Rendering *)

(** [for (int i = lo; i < hi; i++) body], with the variables that the body
    changes threaded through as [st]. *)
Fixpoint for_range {St : Type} (n : nat) (i : Z) (body : Z -> St -> res St)
    (st : St) : res St :=
  match n with
  | O => Ret st
  | S n' => st' <- body i st ;; for_range n' (i + 1)%Z body st'
  end.

Definition for_ {St : Type} (lo hi : Z) (body : Z -> St -> res St) (st : St)
  : res St :=
  for_range (Z.to_nat (hi - lo)) lo body st.

Module RenderStats.
Section WithArith.
Context {A : Arith}.
(** [render_time_ms] is read from the clock and is not modelled. *)
Record t : Type := mk {
  total_tests : Z;
  total_rays : Z;
  tests_per_ray : D
}.
End WithArith.
Arguments t {A}.
End RenderStats.

(** [long long] is 64 bits wide. *)
Definition in_llong (z : Z) : bool :=
  ((- 2 ^ 63 <=? z) && (z <=? 2 ^ 63 - 1))%Z.

Section Render.
Context {A : Arith} {SQ : Sqrt A} {P : Pow A} {T : Trig A} {R : Rng A}
  {SA : StdAlgo}.
Local Open Scope D_scope.

(** One sample of the pixel [(x, y)]: the body of the innermost loop.  The
    state is the colour summed so far, the generator and the two
    counters, which are [long long]: their overflow is undefined. *)
Definition sample (fuel inner : nat) (img : Image.t) (scene : Scene.t)
    (cam : Camera.t) (max_depth : Z) (use_bvh : bool) (x y : Z)
    (st : Vec3.t * rng_t * Z * Z) : res (Vec3.t * rng_t * Z * Z) :=
  let '(color, g, total_tests, total_rays) := st in
  let '(r1, g) := rand01 g in
  let u := (of_int x + r1) / of_int (Image.width img - 1) in
  let '(r2, g) := rand01 g in
  let v := (of_int y + r2) / of_int (Image.height img - 1) in
  '(ray, g) <- Camera.get_ray inner cam u v g ;;
  '(c, (g, tests)) <- ray_color fuel inner ray scene max_depth use_bvh
                        (g, 0%Z) ;;
  if in_llong (total_tests + tests) && in_llong (total_rays + 1) then
    Ret (Vec3.add color c, g, (total_tests + tests)%Z, (total_rays + 1)%Z)
  else Undef.

(** The pixel [(x, y)]: the body of the loop over [x]. *)
Definition pixel (fuel inner : nat) (scene : Scene.t) (cam : Camera.t)
    (samples max_depth : Z) (use_bvh : bool) (y x : Z)
    (st : Image.t * rng_t * Z * Z) : res (Image.t * rng_t * Z * Z) :=
  let '(img, g, total_tests, total_rays) := st in
  '(color, g, total_tests, total_rays) <-
     for_ 0 samples
       (fun _ => sample fuel inner img scene cam max_depth use_bvh x y)
       (Vec3.zero, g, total_tests, total_rays) ;;
  img <- Image.set img x (Image.height img - 1 - y)%Z
           (Vec3.div color (of_int samples)) ;;
  Ret (img, g, total_tests, total_rays).

(** [render]: the image as the loops leave it, the statistics and the
    generator. *)
Definition render (fuel inner : nat) (img : Image.t) (scene : Scene.t)
    (cam : Camera.t) (samples max_depth : Z) (use_bvh : bool) (g : rng_t)
  : res (Image.t * RenderStats.t * rng_t) :=
  '(img, g, total_tests, total_rays) <-
     for_ 0 (Image.height img)
       (fun y st =>
          for_ 0 (Image.width (fst (fst (fst st))))
            (pixel fuel inner scene cam samples max_depth use_bvh y) st)
       (img, g, 0%Z, 0%Z) ;;
  Ret (img,
       RenderStats.mk total_tests total_rays
         (of_int total_tests / of_int total_rays),
       g).
End Render.

(** ** A reference instance of the library algorithms *)

(** Insertion sort and a partition that keeps the relative order: one
    admissible behaviour of [std::sort] and [std::partition], used to run the
    model on concrete scenes. *)
Fixpoint insert_by (cmp : Z -> Z -> bool) (x : Z) (l : list Z) : list Z :=
  match l with
  | [] => [x]
  | y :: tl => if cmp y x then y :: insert_by cmp x tl else x :: y :: tl
  end.

Definition insertion_sort (cmp : Z -> Z -> bool) (l : list Z) : list Z :=
  fold_right (insert_by cmp) [] l.

Definition partition_in_order (p : Z -> bool) (l : list Z) : list Z * nat :=
  (filter p l ++ filter (fun a => negb (p a)) l, length (filter p l)).

#[export] Instance ref_algo : StdAlgo := {|
  std_sort := insertion_sort;
  std_partition := partition_in_order
|}.

(** * Specification-side definitions *)

(** ** What the standard guarantees of [std::sort] and [std::partition] *)

(** A comparator is a strict weak ordering: irreflexive, transitive, and a
    value in between is below the larger or above the smaller. *)
Definition strict_weak_order (cmp : Z -> Z -> bool) : Prop :=
  (forall a, cmp a a = false) /\
  (forall a b c, cmp a b = true -> cmp b c = true -> cmp a c = true) /\
  (forall a b c, cmp a c = true -> cmp a b = true \/ cmp b c = true).

(** No element of a sorted range is below an earlier one. *)
Definition sorted_by (cmp : Z -> Z -> bool) (l : list Z) : Prop :=
  StronglySorted (fun a b => cmp b a = false) l.

Class StdAlgoSpec (SA : StdAlgo) : Prop := {
  sort_perm : forall cmp l, Permutation l (std_sort cmp l);
  sort_sorted : forall cmp l,
      strict_weak_order cmp -> sorted_by cmp (std_sort cmp l);
  partition_perm : forall p l, Permutation l (fst (std_partition p l));
  partition_point : forall p l,
      (snd (std_partition p l) <= length l)%nat /\
      Forall (fun a => p a = true)
             (firstn (snd (std_partition p l)) (fst (std_partition p l))) /\
      Forall (fun a => p a = false)
             (skipn (snd (std_partition p l)) (fst (std_partition p l)))
}.

(** ** The order of the arithmetic *)

(** The comparisons of [double] form a total order on the values that are not
    NaN; [ok] singles these out. *)
Class OrderLaws (A : Arith) (ok : D -> Prop) : Prop := {
  ltb_irrefl : forall x, ltb x x = false;
  ltb_trans : forall x y z, ltb x y = true -> ltb y z = true -> ltb x z = true;
  ltb_between : forall x y z,
      ok y -> ltb x z = true -> ltb x y = true \/ ltb y z = true;
  ltb_leb : forall x y, ltb x y = true -> leb x y = true;
  nltb_leb : forall x y, ok x -> ok y -> ltb x y = false -> leb y x = true;
  ok_zero : ok (of_int 0)
}.

Section Boxes.
Context {A : Arith}.
Local Open Scope D_scope.

Definition vec_ok (ok : D -> Prop) (v : Vec3.t) : Prop :=
  ok (Vec3.x v) /\ ok (Vec3.y v) /\ ok (Vec3.z v).

Definition box_ok (ok : D -> Prop) (b : AABB.t) : Prop :=
  vec_ok ok (AABB.min_pt b) /\ vec_ok ok (AABB.max_pt b).

(** [outer] contains [inner]: component-wise, the minimum corner of
    [outer] is below and its maximum corner above. *)
Definition contains (outer inner : AABB.t) : bool :=
  (Vec3.x (AABB.min_pt outer) <=? Vec3.x (AABB.min_pt inner))
  && (Vec3.y (AABB.min_pt outer) <=? Vec3.y (AABB.min_pt inner))
  && (Vec3.z (AABB.min_pt outer) <=? Vec3.z (AABB.min_pt inner))
  && (Vec3.x (AABB.max_pt inner) <=? Vec3.x (AABB.max_pt outer))
  && (Vec3.y (AABB.max_pt inner) <=? Vec3.y (AABB.max_pt outer))
  && (Vec3.z (AABB.max_pt inner) <=? Vec3.z (AABB.max_pt outer)).

(** [min <= max] on every axis. *)
Definition ordered (b : AABB.t) : bool :=
  (Vec3.x (AABB.min_pt b) <=? Vec3.x (AABB.max_pt b))
  && (Vec3.y (AABB.min_pt b) <=? Vec3.y (AABB.max_pt b))
  && (Vec3.z (AABB.min_pt b) <=? Vec3.z (AABB.max_pt b)).
End Boxes.

(** ** The slab test as the specification words it *)

Module SlabSpec.
Section WithArith.
Context {A : Arith}.
Local Open Scope D_scope.

(** Entry and exit distances on axis [i] from the reciprocal of the
    direction component, swapped when the component is negative, and the
    interval shrunk by them. *)
Definition narrow (b : AABB.t) (ray : Ray.t) (i : Z) (I : D * D) : D * D :=
  let d := Vec3.get (Ray.direction ray) i in
  let inv_d := of_int 1 / d in
  let t0 := (Vec3.get (AABB.min_pt b) i - Vec3.get (Ray.origin ray) i)
            * inv_d in
  let t1 := (Vec3.get (AABB.max_pt b) i - Vec3.get (Ray.origin ray) i)
            * inv_d in
  let entry := if d <? of_int 0 then t1 else t0 in
  let exit := if d <? of_int 0 then t0 else t1 in
  (std_max (fst I) entry, std_min (snd I) exit).

Definition is_empty (I : D * D) : bool := snd I <=? fst I.

(** All three axes narrow the interval in turn; the answer is [false]
    at the first axis that empties it. *)
Definition hit (b : AABB.t) (ray : Ray.t) (t_min t_max : D) : bool :=
  let I1 := narrow b ray 0 (t_min, t_max) in
  let I2 := narrow b ray 1 I1 in
  let I3 := narrow b ray 2 I2 in
  if is_empty I1 then false
  else if is_empty I2 then false
  else if is_empty I3 then false
  else true.

(** The sign of the reciprocal is the sign of the component. *)
Definition sign_kept (ray : Ray.t) (i : Z) : Prop :=
  (of_int 1 / Vec3.get (Ray.direction ray) i <? of_int 0)
  = (Vec3.get (Ray.direction ray) i <? of_int 0).
End WithArith.
End SlabSpec.

(** ** The arena as a tree *)

(** [build] lays a binary tree out in preorder: a node, its left subtree,
    its right subtree. *)
Module Tree.
Section WithArith.
Context {A : Arith}.

Inductive t : Type :=
| Leaf (si : Z)
| Node (l r : t).

Fixpoint size (tr : t) : nat :=
  match tr with
  | Leaf _ => 1
  | Node l r => S (size l + size r)
  end.

Fixpoint leaves (tr : t) : list Z :=
  match tr with
  | Leaf si => [si]
  | Node l r => leaves l ++ leaves r
  end.

Definition sphere_box (sph : list Sphere.t) (si : Z) : AABB.t :=
  match at_ sph si with
  | Ret s => Sphere.bounding_box s
  | _ => AABB.empty
  end.

Fixpoint box (sph : list Sphere.t) (tr : t) : AABB.t :=
  match tr with
  | Leaf si => sphere_box sph si
  | Node l r => AABB.merge (box sph l) (box sph r)
  end.

Fixpoint layout (sph : list Sphere.t) (base : Z) (tr : t)
  : list BVHNode.t :=
  match tr with
  | Leaf si => [BVHNode.mk (sphere_box sph si) (-1) (-1) si true]
  | Node l r =>
      let lc := (base + 1)%Z in
      let rc := (base + 1 + Z.of_nat (size l))%Z in
      BVHNode.mk (AABB.merge (box sph l) (box sph r)) lc rc (-1) false
      :: layout sph lc l ++ layout sph rc r
  end.
End WithArith.
End Tree.


(** ** The order of binary64 through an integer key *)

Definition SFkey (f : spec_float) : option (Z * Z * Z) :=
  match f with
  | S754_nan => None
  | S754_infinity true => Some (-2, 0, 0)%Z
  | S754_infinity false => Some (2, 0, 0)%Z
  | S754_zero _ => Some (0, 0, 0)%Z
  | S754_finite false m e => Some (1, e, Zpos m)%Z
  | S754_finite true m e => Some (-1, - e, Zneg m)%Z
  end.

Definition lex3 (a b : Z * Z * Z) : comparison :=
  let '(a1, a2, a3) := a in
  let '(b1, b2, b3) := b in
  match (a1 ?= b1)%Z with
  | Eq => match (a2 ?= b2)%Z with
          | Eq => (a3 ?= b3)%Z
          | c => c
          end
  | c => c
  end.

Definition key_lt (a b : Z * Z * Z) : Prop :=
  let '(a1, a2, a3) := a in
  let '(b1, b2, b3) := b in
  (a1 < b1 \/ (a1 = b1 /\ (a2 < b2 \/ (a2 = b2 /\ a3 < b3))))%Z.

Definition fkey (x : float) : option (Z * Z * Z) := SFkey (Prim2SF x).

Definition not_nan (x : float) : Prop := fkey x <> None.

(** ** Boxes within the seed of the merges *)

Section Seed.
Context {A : Arith}.
Local Open Scope D_scope.

(** No minimum coordinate above [1e30], no maximum coordinate below
    [-1e30]. *)
Definition within_seed (a : AABB.t) : bool :=
  (Vec3.x (AABB.min_pt a) <=? c_1e30)
  && (Vec3.y (AABB.min_pt a) <=? c_1e30)
  && (Vec3.z (AABB.min_pt a) <=? c_1e30)
  && (- c_1e30 <=? Vec3.x (AABB.max_pt a))
  && (- c_1e30 <=? Vec3.y (AABB.max_pt a))
  && (- c_1e30 <=? Vec3.z (AABB.max_pt a)).
End Seed.

(** ** Well-formed arenas *)

Section ArenaSpec.
Context {A : Arith}.

Definition valid_index (sph : list Sphere.t) (i : Z) : Prop :=
  (0 <= i < Z.of_nat (length sph))%Z.


End ArenaSpec.

(** The preorder layout of [tr] occupies the arena from index [base] on. *)
Definition embedded {A : Arith} (sph : list Sphere.t)
    (arena : list BVHNode.t) (base : Z) (tr : Tree.t) : Prop :=
  (0 <= base)%Z /\
  forall j node,
    nth_error (Tree.layout sph base tr) j = Some node ->
    nth_error arena (Z.to_nat base + j) = Some node.

Section Inside.
Context {A : Arith}.
Local Open Scope D_scope.

(** [p] lies strictly inside [b] / inside [b] or on its faces, on every
    axis. *)
Definition strictly_inside (b : AABB.t) (p : Vec3.t) : bool :=
  (Vec3.x (AABB.min_pt b) <? Vec3.x p) && (Vec3.x p <? Vec3.x (AABB.max_pt b))
  && (Vec3.y (AABB.min_pt b) <? Vec3.y p) && (Vec3.y p <? Vec3.y (AABB.max_pt b))
  && (Vec3.z (AABB.min_pt b) <? Vec3.z p) && (Vec3.z p <? Vec3.z (AABB.max_pt b)).

Definition inside (b : AABB.t) (p : Vec3.t) : bool :=
  (Vec3.x (AABB.min_pt b) <=? Vec3.x p) && (Vec3.x p <=? Vec3.x (AABB.max_pt b))
  && (Vec3.y (AABB.min_pt b) <=? Vec3.y p) && (Vec3.y p <=? Vec3.y (AABB.max_pt b))
  && (Vec3.z (AABB.min_pt b) <=? Vec3.z p) && (Vec3.z p <=? Vec3.z (AABB.max_pt b)).
End Inside.

(** No component of the direction is zero. *)
Definition oblique (ray : Ray.t (A := exactQ)) : Prop :=
  ~ (Vec3.x (Ray.direction ray) == 0)%Q
  /\ ~ (Vec3.y (Ray.direction ray) == 0)%Q
  /\ ~ (Vec3.z (Ray.direction ray) == 0)%Q.

(** The coordinate [i] of the ray at [t] lies strictly between the two
    faces of [b] on that axis. *)
Definition between (b : AABB.t (A := exactQ)) (ray : Ray.t (A := exactQ))
    (i : Z) (t : Q) : Prop :=
  (Vec3.get (AABB.min_pt b) i
   < Vec3.get (Ray.origin ray) i + Vec3.get (Ray.direction ray) i * t
   /\ Vec3.get (Ray.origin ray) i + Vec3.get (Ray.direction ray) i * t
      < Vec3.get (AABB.max_pt b) i)%Q.

(** The squared distance of [p] from the centre of [s]. *)
Definition dist2 {A : Arith} (s : Sphere.t) (p : Vec3.t) : D :=
  Vec3.dot (Vec3.sub p (Sphere.center s)) (Vec3.sub p (Sphere.center s)).

Section Roots.
Context {A : Arith} {SQ : Sqrt A}.
Local Open Scope D_scope.

(** The two candidate parameters of [Sphere::intersect], the one with the
    square root subtracted first. *)
Definition roots (s : Sphere.t) (ray : Ray.t) : D * D :=
  let oc := Vec3.sub (Ray.origin ray) (Sphere.center s) in
  let a := Vec3.dot (Ray.direction ray) (Ray.direction ray) in
  let half_b := Vec3.dot oc (Ray.direction ray) in
  let c := Vec3.dot oc oc - Sphere.radius s * Sphere.radius s in
  let discriminant := half_b * half_b - a * c in
  let sqrt_d := dsqrt discriminant in
  ((- half_b - sqrt_d) / a, (- half_b + sqrt_d) / a).

(** The discriminant [Sphere::intersect] computes. *)
Definition discriminant (s : Sphere.t) (ray : Ray.t) : D :=
  let oc := Vec3.sub (Ray.origin ray) (Sphere.center s) in
  let a := Vec3.dot (Ray.direction ray) (Ray.direction ray) in
  let half_b := Vec3.dot oc (Ray.direction ray) in
  let c := Vec3.dot oc oc - Sphere.radius s * Sphere.radius s in
  half_b * half_b - a * c.

(** [t] is not outside [t_min, t_max] as the source tests it. *)
Definition accepted (t t_min t_max : D) : bool :=
  negb ((t <? t_min) || (t >? t_max)).
End Roots.

(** [<=] excludes the converse [<]. *)
Class LebLaws (A : Arith) : Prop := {
  leb_not_gt : forall x y, leb x y = true -> ltb y x = false
}.

(** Every rational is comparable. *)
Definition any_Q (x : Q) : Prop := True.

(** The pixel vector of an image has [width * height] entries, and the
    product fits [int]. *)
Definition image_ok {A : Arith} (img : Image.t) : Prop :=
  (0 <= Image.width img /\ 0 <= Image.height img
   /\ Image.width img * Image.height img <= INT_MAX
   /\ Z.of_nat (length (Image.pixels img))
      = Image.width img * Image.height img)%Z.

(** Component-wise equality of rational vectors. *)
Definition veq (a b : Vec3.t (A := exactQ)) : Prop :=
  (Vec3.x a == Vec3.x b /\ Vec3.y a == Vec3.y b /\ Vec3.z a == Vec3.z b)%Q.

(** The square root is exact at [x]. *)
Definition sqrt_exact_at {SQ : Sqrt exactQ} (x : Q) : Prop :=
  (dsqrt x * dsqrt x == x)%Q.

(** The squared length of a rational vector. *)
Definition norm2 (a : Vec3.t (A := exactQ)) : Q := Vec3.dot a a.

Section SceneGenSpec.
Context {A : Arith} {SQ : Sqrt A} {L : Literals A}.
Local Open Scope D_scope.

(** What every small sphere of a generated scene satisfies: radius and
    height 0.2, the centre not within 1.2 of the centre of a large sphere as
    the source computes the distance, and a material of one of the three
    kinds with the constants of the source. *)
Definition small_sphere (s : Sphere.t) : Prop :=
  Sphere.radius s = c_0p2
  /\ Vec3.y (Sphere.center s) = c_0p2
  /\ clear_of (Sphere.center s) big_centers = true
  /\ match Material.type (Sphere.mat s) with
     | Material.DIFFUSE =>
         Material.roughness (Sphere.mat s) = of_int 0
         /\ Material.ior (Sphere.mat s) = of_int 0
     | Material.METAL => Material.ior (Sphere.mat s) = of_int 0
     | Material.GLASS =>
         Material.ior (Sphere.mat s) = c_1p5
         /\ Material.albedo (Sphere.mat s)
            = Vec3.mk (of_int 1) (of_int 1) (of_int 1)
     end.
End SceneGenSpec.

Section RenderSpec.
Context {A : Arith} {R : Rng A}.

(** The invariant of the loops of [render]: the image keeps its
    dimensions and the size of its pixel vector, [rays] rays were traced,
    and without the hierarchy no test was counted. *)
Definition render_inv (use_bvh : bool) (img0 : Image.t) (tests0 rays : Z)
    (st : Image.t * rng_t * Z * Z) : Prop :=
  let '(img, _, total_tests, total_rays) := st in
  Image.width img = Image.width img0
  /\ Image.height img = Image.height img0
  /\ length (Image.pixels img) = length (Image.pixels img0)
  /\ total_rays = rays
  /\ (use_bvh = false -> total_tests = tests0).
End RenderSpec.

(** The extent of a box on an axis, as the construction computes it. *)
Definition extent_on {A : Arith} (b : AABB.t) (axis : Z) : D :=
  (Vec3.get (AABB.max_pt b) axis - Vec3.get (AABB.min_pt b) axis)%D.

Section GoodHit.
Context {SQ : Sqrt exactQ}.

(** The hit [r] of the sphere [s] on [t_min, c] is a proper one: strictly
    inside the interval, on a sphere with a radius that is not negative,
    met by the ray at two different points, with an exact square root of
    the discriminant. *)
Definition proper_hit (s : Sphere.t (A := exactQ)) (ray : Ray.t)
    (t_min c : Q) (r : HitRecord.t) : Prop :=
  Sphere.intersect s ray t_min c = Some r
  /\ (t_min < HitRecord.t_ r)%Q /\ (HitRecord.t_ r < c)%Q
  /\ (0 <= Sphere.radius s)%Q
  /\ (0 < discriminant s ray)%Q
  /\ sqrt_exact_at (discriminant s ray).

(** The ray does not touch [s] in a single point, and where it meets [s]
    the square root of the discriminant is exact and not negative; the
    radius is not negative. *)
Definition regular (s : Sphere.t (A := exactQ)) (ray : Ray.t) : Prop :=
  (0 <= Sphere.radius s)%Q
  /\ ((discriminant s ray < 0)%Q
      \/ ((0 < discriminant s ray)%Q
          /\ sqrt_exact_at (discriminant s ray)
          /\ (0 <= dsqrt (discriminant s ray))%Q)).
End GoodHit.

(** ** Concrete scenes on binary64 *)

Module Ex.
Local Open Scope float_scope.

Definition vec (a b c : float) : Vec3.t (A := binary64) :=
  Vec3.mk (A := binary64) a b c.

Definition gray : Material.t (A := binary64) :=
  Material.diffuse (vec 0.5 0.5 0.5).

Definition ball (c : Vec3.t (A := binary64)) (r : float)
  : Sphere.t (A := binary64) := Sphere.mk c r gray.

(** A unit sphere at the origin and one five units along x. *)
Definition unit_ball := ball (vec 0 0 0) 1.
Definition far_ball := ball (vec 5 0 0) 1.

(** A ray along x that meets [unit_ball] at [t = 4], where it also enters
    the box of the sphere. *)
Definition ray_x : Ray.t (A := binary64) :=
  Ray.mk (vec (-5) 0 0) (vec 1 0 0).

(** A ray from the centre of [unit_ball] that leaves the sphere, and its
    box, at [t = 0.001]. *)
Definition ray_fast : Ray.t (A := binary64) :=
  Ray.mk (vec 0 0 0) (vec 1000 0 0).

Definition scene_of {SA : StdAlgo} (sph : list (Sphere.t (A := binary64)))
  : res (Scene.t (A := binary64)) :=
  Scene.build_bvh (length sph) (Scene.mk sph None).

(** The hit parameter and the counter of a traversal, if it hits. *)
Definition hit_t (r : res (option (HitRecord.t (A := binary64)) * Z))
  : res (option float) :=
  '(h, _) <- r ;; Ret (option_map (HitRecord.t_ (A := binary64)) h).

(** A box beyond the seed of the merges. *)
Definition distant_box : AABB.t (A := binary64) :=
  AABB.mk (vec 2e30 0 0) (vec 3e30 1 1).


Definition three : list (Sphere.t (A := binary64)) :=
  [ ball (vec 4 0 0) 1; ball (vec 0 0 0) 1; ball (vec (-3) 0 0) 1 ].

(** A glass ball and the parts of libm and of the generator that the
    path tracer needs, to run it: the fifth power by multiplication and a
    linear congruential generator. *)
Definition glass_ball : Sphere.t (A := binary64) :=
  Sphere.mk (vec 0 0 0) 1 (Material.glass (A := binary64) 1.5).

Definition powi (x : float) (n : Z) : float :=
  Z.iter n (fun acc => acc * x) 1.

Definition lcg (s : Z) : float * Z :=
  (float_of_int (s mod 1024) / 1024,
   ((s * 1103515245 + 12345) mod 2 ^ 31)%Z).

(** The record of the hit of [ray_x] on [glass_ball], at [t = 4]. *)
Definition glass_hit : HitRecord.t (A := binary64) :=
  Sphere.record glass_ball ray_x 4.


(** Two boxes with rational corners. *)
Definition qbox (x0 y0 z0 x1 y1 z1 : Q) : AABB.t (A := exactQ) :=
  AABB.mk (Vec3.mk (A := exactQ) x0 y0 z0) (Vec3.mk (A := exactQ) x1 y1 z1).
(** A camera at (0,0,5) that looks down the z axis through a pinhole, and
    an image of two pixels. *)
Definition cam0 : Camera.t (A := binary64) :=
  Camera.mk (vec 0 0 5) (vec (-1) (-1) 4) (vec 2 0 0) (vec 0 2 0)
    (vec 1 0 0) (vec 0 1 0) (vec 0 0 1) 0.

Definition img0 : Image.t (A := binary64) :=
  Image.mk 2%Z 1%Z (repeat (Vec3.zero (A := binary64)) 2).

(** Whether a run came back with a result. *)
Definition returned {T : Type} (r : res T) : bool :=
  match r with
  | Ret _ => true
  | _ => false
  end.
End Ex.

(** ** Concrete scenes on the rationals *)

Module ExQ.
Definition qvec (a b c : Q) : Vec3.t (A := exactQ) :=
  Vec3.mk (A := exactQ) a b c.

(** A ray with rational coordinates, oblique to the axes. *)
Definition qray : Ray.t (A := exactQ) :=
  Ray.mk (qvec (-1) (1 # 2) 1) (qvec 1 (1 # 4) (1 # 8)).

(** A square root on the rationals that is exact on the squares of
    fractions in lowest terms. *)
Definition qsqrt (q : Q) : Q := Z.sqrt (Qnum q) # Pos.sqrt (Qden q).

Definition qball : Sphere.t (A := exactQ) :=
  Sphere.mk (qvec 0 0 0) 1%Q
    (Material.diffuse (A := exactQ) (qvec (1 # 2) (1 # 2) (1 # 2))).

Definition qray_x : Ray.t (A := exactQ) :=
  Ray.mk (qvec (-5) 0 0) (qvec 1 0 0).

(** An oblique ray through the centre of [qball], reached at [t = 1]. *)
Definition qray_in : Ray.t (A := exactQ) :=
  Ray.mk (qvec (-1) (- (1 # 4)) (- (1 # 8)))
         (qvec 1 (1 # 4) (1 # 8)).

(** A ray through the centre of [qball], oblique to the axes, with a
    direction of length 3, and a scene of [qball] and a sphere that the ray
    misses. *)
Definition qray_through : Ray.t (A := exactQ) :=
  Ray.mk (qvec (-4) (-2) (-4)) (qvec 2 1 2).

Definition qpair : list (Sphere.t (A := exactQ)) :=
  [ Sphere.mk (qvec 10 0 0) 1%Q (Sphere.mat qball); qball ].

(** The first two terms of the series of the tangent, a generator on the
    rationals, and a camera at (0,0,5) that looks at the origin. *)
Definition qtrig : Trig exactQ :=
  @Build_Trig exactQ (fun x => x + x * x * x / 3)%Q (355 # 113).

Definition qlcg : Rng exactQ :=
  @Build_Rng exactQ Z
    (fun s => (((s mod 1024) # 1024)%Q,
               ((s * 1103515245 + 12345) mod 2 ^ 31)%Z)).

Definition qcam (aperture : Q) : Camera.t (A := exactQ) :=
  Camera.make (SQ := qsqrt) (T := qtrig)
    (qvec 0 0 5) (qvec 0 0 0) (qvec 0 1 0) 90%Q 1%Q aperture 5%Q.
End ExQ.

#[export] Instance example_pow : Pow binary64 := Ex.powi.
#[export] Instance example_rng : Rng binary64 := @Build_Rng binary64 Z Ex.lcg.

(** * Theorems *)

#[local] Open Scope Z_scope.

(** ** Lists as vectors *)

Lemma at_app_r {T : Type} (l1 l2 : list T) (i : Z) :
  Z.of_nat (length l1) <= i ->
  at_ (l1 ++ l2) i = at_ l2 (i - Z.of_nat (length l1)).
Proof.
  intros H. unfold at_.
  destruct (i <? 0)%Z eqn:E1; [lia|].
  destruct (i - Z.of_nat (length l1) <? 0)%Z eqn:E2; [lia|].
  rewrite nth_error_app2 by lia.
  replace (Z.to_nat (i - Z.of_nat (length l1)))
    with (Z.to_nat i - length l1)%nat by lia.
  reflexivity.
Qed.

Lemma at_app_l {T : Type} (l1 l2 : list T) (i : Z) :
  0 <= i < Z.of_nat (length l1) ->
  at_ (l1 ++ l2) i = at_ l1 i.
Proof.
  intros H. unfold at_.
  destruct (i <? 0)%Z eqn:E1; [lia|].
  rewrite nth_error_app1 by lia. reflexivity.
Qed.

Lemma at_cons_0 {T : Type} (a : T) (l : list T) : at_ (a :: l) 0 = Ret a.
Proof. reflexivity. Qed.

Lemma at_Ret_nth {T : Type} (l : list T) (i : Z) (a : T) :
  at_ l i = Ret a <-> 0 <= i /\ nth_error l (Z.to_nat i) = Some a.
Proof.
  unfold at_. destruct (i <? 0)%Z eqn:E.
  - split; [discriminate | lia].
  - destruct (nth_error l (Z.to_nat i)) eqn:N; split.
    + intros H; inversion H; subst; split; [lia | reflexivity].
    + intros [_ H]; inversion H; reflexivity.
    + discriminate.
    + intros [_ H]; discriminate.
Qed.

Lemma at_in_range {T : Type} (l : list T) (i : Z) :
  0 <= i < Z.of_nat (length l) -> exists a, at_ l i = Ret a.
Proof.
  intros H. destruct (nth_error l (Z.to_nat i)) eqn:N.
  - exists t. apply at_Ret_nth. split; [lia | assumption].
  - apply nth_error_None in N. lia.
Qed.

Lemma to_int32_small (z : Z) : INT_MIN <= z <= INT_MAX -> to_int32 z = z.
Proof.
  unfold to_int32, INT_MIN, INT_MAX. intros H.
  rewrite Z.mod_small; lia.
Qed.

(** ** The empty scene *)

(** C3.  A scene with zero primitives gets an empty node arena, and the
    traversal of that arena answers "no hit" for every ray and every interval
    with the counter of visited nodes unchanged: the guard on [nodes.empty()]
    returns before node 0 is read.  Reading node 0 of the empty arena, as
    [intersect_node] would, is out of bounds. *)
Theorem empty_scene_never_hits {A : Arith} {SQ : Sqrt A} {SA : StdAlgo}
    (fuel fuel' : nat) (ray : Ray.t) (t_min t_max : D) (tests : Z) :
  BVH.make fuel [] = Ret (BVH.mk [] [])
  /\ Scene.build_bvh fuel (Scene.mk [] None)
     = Ret (Scene.mk [] (Some (BVH.mk [] [])))
  /\ Traverse.intersect fuel' (BVH.mk [] []) ray t_min t_max tests
     = Ret (None, tests)
  /\ Scene.intersect_bvh fuel' (Scene.mk [] (Some (BVH.mk [] []))) ray
       t_min t_max tests = Ret (None, tests)
  /\ Traverse.intersect_node (S fuel') (BVH.mk [] []) 0 ray t_min t_max tests
     = Undef.
Proof. repeat split; reflexivity. Qed.

(** ** The depth bound of the path tracer *)

(** C8.  [ray_color] at depth 0 is black for every ray and every scene, and
    it leaves the generator and the counter of tests as they were.  No
    intersection query is made: the result is the same with no fuel for a
    traversal and on a scene whose BVH was never built, where a query would
    not return.  The guard is [depth <= 0], so negative depths do the
    same. *)
Theorem ray_color_depth_zero {A : Arith} {SQ : Sqrt A} {P : Pow A}
    {R : Rng A} {SA : StdAlgo}
    (fuel inner : nat) (ray : Ray.t) (scene : Scene.t) (use_bvh : bool)
    (st : rng_t * Z) :
  ray_color fuel inner ray scene 0 use_bvh st = Ret (black, st)
  /\ black = Vec3.mk (of_int 0) (of_int 0) (of_int 0)
  /\ (forall depth, depth <= 0 ->
      ray_color fuel inner ray scene depth use_bvh st = Ret (black, st)).
Proof.
  split; [|split].
  - destruct fuel; reflexivity.
  - reflexivity.
  - intros depth Hd. apply Z.leb_le in Hd.
    destruct fuel; cbn [ray_color]; rewrite Hd; reflexivity.
Qed.

(** ** The slab test *)

(** C5.  The ray test of a box narrows the interval on the three axes in
    turn, none skipped, with the entry and exit distances taken from the
    reciprocal of the direction component and swapped when the component is
    negative; it answers [false] at the first axis whose narrowed interval is
    empty ([t_max <= t_min]) and [true] when none is.  The source decides the
    swap on the sign of the reciprocal; the hypotheses say that this is the
    sign of the component. *)
Theorem slab_test_all_axes {A : Arith} (b : AABB.t) (ray : Ray.t)
    (t_min t_max : D) :
  SlabSpec.sign_kept ray 0 -> SlabSpec.sign_kept ray 1 ->
  SlabSpec.sign_kept ray 2 ->
  AABB.intersect b ray t_min t_max = SlabSpec.hit b ray t_min t_max.
Proof.
  unfold SlabSpec.sign_kept. intros H0 H1 H2.
  unfold AABB.intersect, SlabSpec.hit, SlabSpec.is_empty.
  cbn [AABB.intersect_from].
  unfold AABB.slab, SlabSpec.narrow. cbn [fst snd].
  rewrite H0, H1, H2.
  destruct (ltb (Vec3.get (Ray.direction ray) 0) (of_int 0));
    (match goal with |- context [leb ?a ?b] => destruct (leb a b) end;
     [reflexivity|]);
    cbn [fst snd];
    destruct (ltb (Vec3.get (Ray.direction ray) 1) (of_int 0));
    (match goal with |- context [leb ?a ?b] => destruct (leb a b) end;
     [reflexivity|]);
    cbn [fst snd];
    destruct (ltb (Vec3.get (Ray.direction ray) 2) (of_int 0));
    (match goal with |- context [leb ?a ?b] => destruct (leb a b) end;
     reflexivity).
Qed.

Lemma slab_test_all_axes_witness :
  AABB.intersect (Sphere.bounding_box Ex.unit_ball)
    (Ray.mk (Ex.vec (-5) 0.5 0.25) (Ex.vec 1 (-0.125) 0.0625))
    0.001%float 1e10%float
  = SlabSpec.hit (Sphere.bounding_box Ex.unit_ball)
      (Ray.mk (Ex.vec (-5) 0.5 0.25) (Ex.vec 1 (-0.125) 0.0625))
      0.001%float 1e10%float.
Proof.
  apply (@slab_test_all_axes binary64); vm_compute; reflexivity.
Defined.

(** ** The order of binary64 *)

Lemma SFcompare_key (x y : spec_float) :
  SFcompare x y =
  match SFkey x, SFkey y with
  | Some a, Some b => Some (lex3 a b)
  | _, _ => None
  end.
Proof.
  destruct x as [[|]|[|]| |[|] mx ex], y as [[|]|[|]| |[|] my ey];
    try reflexivity; cbn [SFcompare SFkey lex3].
  rewrite Z.compare_opp, (Z.compare_antisym ex ey).
  change (Pos.compare_cont Eq mx my) with (mx ?= my)%positive.
  change (Z.neg mx ?= Z.neg my) with (CompOpp (mx ?= my)%positive).
  cbn. destruct (ex ?= ey); reflexivity.
Qed.

Lemma lex3_Lt (a b : Z * Z * Z) : lex3 a b = Lt <-> key_lt a b.
Proof.
  destruct a as [[a1 a2] a3], b as [[b1 b2] b3]; cbn.
  destruct (Z.compare_spec a1 b1), (Z.compare_spec a2 b2),
    (Z.compare_spec a3 b3);
    split; intros HH; try discriminate; try reflexivity; try lia.
Qed.

Lemma lex3_Eq (a b : Z * Z * Z) : lex3 a b = Eq <-> a = b.
Proof.
  destruct a as [[a1 a2] a3], b as [[b1 b2] b3]; cbn.
  destruct (Z.compare_spec a1 b1), (Z.compare_spec a2 b2),
    (Z.compare_spec a3 b3);
    split; intros HH; try discriminate; try reflexivity;
    try (inversion HH; lia); try (f_equal; [f_equal|]; lia).
Qed.

Lemma ltb_key (x y : float) :
  PrimFloat.ltb x y = true <->
  exists a b, fkey x = Some a /\ fkey y = Some b /\ key_lt a b.
Proof.
  rewrite FloatAxioms.ltb_spec. unfold SFltb, fkey. rewrite SFcompare_key.
  destruct (SFkey (Prim2SF x)) as [a|], (SFkey (Prim2SF y)) as [b|].
  - destruct (lex3 a b) eqn:E; split; intros H;
      try discriminate; try reflexivity.
    + destruct H as (a' & b' & Ha & Hb & Hl).
      inversion Ha; inversion Hb; subst.
      apply lex3_Lt in Hl. congruence.
    + exists a, b. repeat split. now apply lex3_Lt.
    + destruct H as (a' & b' & Ha & Hb & Hl).
      inversion Ha; inversion Hb; subst.
      apply lex3_Lt in Hl. congruence.
  - split; [discriminate|]. intros (a' & b' & _ & Hb & _). discriminate.
  - split; [discriminate|]. intros (a' & b' & Ha & _). discriminate.
  - split; [discriminate|]. intros (a' & b' & Ha & _). discriminate.
Qed.

Lemma leb_key (x y : float) :
  PrimFloat.leb x y = true <->
  exists a b, fkey x = Some a /\ fkey y = Some b /\ (key_lt a b \/ a = b).
Proof.
  rewrite FloatAxioms.leb_spec. unfold SFleb, fkey. rewrite SFcompare_key.
  destruct (SFkey (Prim2SF x)) as [a|], (SFkey (Prim2SF y)) as [b|].
  - destruct (lex3 a b) eqn:E; split; intros H;
      try discriminate; try reflexivity.
    + exists a, b. repeat split. right. now apply lex3_Eq.
    + exists a, b. repeat split. left. now apply lex3_Lt.
    + destruct H as (a' & b' & Ha & Hb & [Hl|He]).
      * inversion Ha; inversion Hb; subst. apply lex3_Lt in Hl. congruence.
      * assert (lex3 a b = Eq) by (apply lex3_Eq; congruence). congruence.
  - split; [discriminate|]. intros (a' & b' & _ & Hb & _). discriminate.
  - split; [discriminate|]. intros (a' & b' & Ha & _). discriminate.
  - split; [discriminate|]. intros (a' & b' & Ha & _). discriminate.
Qed.

Lemma key_lt_irrefl (a : Z * Z * Z) : ~ key_lt a a.
Proof. destruct a as [[a1 a2] a3]. cbn. lia. Qed.

Lemma key_lt_trans (a b c : Z * Z * Z) : key_lt a b -> key_lt b c -> key_lt a c.
Proof.
  destruct a as [[a1 a2] a3], b as [[b1 b2] b3], c as [[c1 c2] c3].
  cbn. lia.
Qed.

Lemma key_total (a b : Z * Z * Z) : key_lt a b \/ a = b \/ key_lt b a.
Proof.
  destruct a as [[a1 a2] a3], b as [[b1 b2] b3]. cbn.
  destruct (Z.lt_total a1 b1) as [?|[?|?]]; [lia| |lia].
  destruct (Z.lt_total a2 b2) as [?|[?|?]]; [lia| |lia].
  destruct (Z.lt_total a3 b3) as [?|[?|?]]; [lia| |lia].
  right; left. congruence.
Qed.

Lemma f_ltb_irrefl (x : float) : PrimFloat.ltb x x = false.
Proof.
  destruct (PrimFloat.ltb x x) eqn:E; [|reflexivity].
  apply ltb_key in E. destruct E as (a & b & Ha & Hb & Hl).
  rewrite Ha in Hb. inversion Hb; subst.
  now apply key_lt_irrefl in Hl.
Qed.

Lemma f_ltb_trans (x y z : float) :
  PrimFloat.ltb x y = true -> PrimFloat.ltb y z = true ->
  PrimFloat.ltb x z = true.
Proof.
  rewrite !ltb_key. intros (a & b & Ha & Hb & Hab) (b' & c & Hb' & Hc & Hbc).
  rewrite Hb in Hb'. inversion Hb'; subst b'.
  exists a, c. repeat split; auto. eapply key_lt_trans; eauto.
Qed.

Lemma f_ltb_between (x y z : float) :
  not_nan y -> PrimFloat.ltb x z = true ->
  PrimFloat.ltb x y = true \/ PrimFloat.ltb y z = true.
Proof.
  unfold not_nan. intros Hy H. apply ltb_key in H.
  destruct H as (a & c & Ha & Hc & Hac).
  destruct (fkey y) as [b|] eqn:Eb; [|congruence].
  destruct (key_total a b) as [Hl|[He|Hg]].
  - left. apply ltb_key. eauto 6.
  - subst b. right. apply ltb_key. eauto 6.
  - right. apply ltb_key. exists b, c. repeat split; auto.
    eapply key_lt_trans; eauto.
Qed.

Lemma f_ltb_leb (x y : float) :
  PrimFloat.ltb x y = true -> PrimFloat.leb x y = true.
Proof.
  rewrite ltb_key, leb_key. intros (a & b & Ha & Hb & Hab). eauto 6.
Qed.

Lemma f_nltb_leb (x y : float) :
  not_nan x -> not_nan y -> PrimFloat.ltb x y = false ->
  PrimFloat.leb y x = true.
Proof.
  unfold not_nan. intros Hx Hy H.
  destruct (fkey x) as [a|] eqn:Ea; [|congruence].
  destruct (fkey y) as [b|] eqn:Eb; [|congruence].
  apply leb_key. exists b, a. repeat split; auto.
  destruct (key_total a b) as [Hl|[He|Hg]]; auto.
  assert (PrimFloat.ltb x y = true) by (apply ltb_key; eauto 6). congruence.
Qed.

Lemma f_leb_nltb (x y : float) :
  PrimFloat.leb x y = true -> PrimFloat.ltb y x = false.
Proof.
  intros H. destruct (PrimFloat.ltb y x) eqn:E; [|reflexivity].
  apply leb_key in H. apply ltb_key in E.
  destruct H as (a & b & Ha & Hb & Hab), E as (b' & a' & Hb' & Ha' & Hl).
  rewrite Ha in Ha'. rewrite Hb in Hb'. inversion Ha'; inversion Hb'; subst.
  destruct Hab as [Hab|Hab].
  - exfalso. eapply key_lt_irrefl, key_lt_trans; eauto.
  - subst. now apply key_lt_irrefl in Hl.
Qed.

Lemma SFkey_inj (x y : spec_float) (k : Z * Z * Z) :
  SFkey x = Some k -> SFkey y = Some k -> k <> (0, 0, 0) -> x = y.
Proof.
  destruct x as [[|]|[|]| |[|] mx ex], y as [[|]|[|]| |[|] my ey]; cbn;
    intros Hx Hy Hk; try congruence;
    rewrite <- Hx in Hy; inversion Hy; subst; try reflexivity.
  f_equal. lia.
Qed.

(** Two doubles that compare equal are the same double, zeros apart. *)
Lemma f_leb_antisym (x y : float) :
  PrimFloat.leb x y = true -> PrimFloat.ltb x y = false ->
  fkey x <> Some (0, 0, 0) \/ fkey y <> Some (0, 0, 0) -> x = y.
Proof.
  intros Hle Hlt Hz. apply leb_key in Hle.
  destruct Hle as (a & b & Ha & Hb & Hab).
  destruct Hab as [Hab|Hab].
  - assert (PrimFloat.ltb x y = true) by (apply ltb_key; eauto 6). congruence.
  - subst b. apply Prim2SF_inj. apply (SFkey_inj _ _ a Ha Hb).
    destruct Hz; congruence.
Qed.

#[export] Instance binary64_order : OrderLaws binary64 not_nan.
Proof.
  constructor.
  - exact f_ltb_irrefl.
  - exact f_ltb_trans.
  - exact f_ltb_between.
  - exact f_ltb_leb.
  - exact f_nltb_leb.
  - vm_compute. discriminate.
Qed.

(** ** Merging with the seed box *)

(** C6, refuted as stated.  The seed box has the corners [1e30] and [-1e30],
    which are finite; merging a box that lies beyond it with the seed moves
    the minimum corner from 2e30 to 1e30. *)
Lemma merge_seed_not_identity :
  Vec3.x (AABB.min_pt (AABB.empty (A := binary64))) = 1e30%float
  /\ PrimFloat.ltb 1e30 infinity = true
  /\ Vec3.x (AABB.min_pt (AABB.merge Ex.distant_box AABB.empty)) = 1e30%float
  /\ Vec3.x (AABB.min_pt Ex.distant_box) = 2e30%float
  /\ AABB.merge Ex.distant_box AABB.empty <> Ex.distant_box.
Proof.
  split; [vm_compute; reflexivity|].
  split; [vm_compute; reflexivity|].
  split; [vm_compute; reflexivity|].
  split; [vm_compute; reflexivity|].
  intros H.
  apply (f_equal (fun b : AABB.t (A := binary64) =>
                    PrimFloat.eqb (Vec3.x (AABB.min_pt b)) 2e30)) in H.
  vm_compute in H. discriminate.
Qed.

(** C6, amended.  For every box whose minimum coordinates are at most 1e30
    and whose maximum coordinates are at least -1e30, merging with the seed
    box on either side gives the box back. *)
Theorem merge_seed_identity (a : AABB.t (A := binary64)) :
  within_seed a = true ->
  AABB.merge a AABB.empty = a /\ AABB.merge AABB.empty a = a.
Proof.
  destruct a as [[x y z] [x' y' z']]. unfold within_seed. cbn.
  rewrite !andb_true_iff. intros [[[[[Hx Hy] Hz] Hx'] Hy'] Hz'].
  assert (K : forall u, PrimFloat.leb u 1e30 = true ->
                std_min (A := binary64) u 1e30%float = u
                /\ std_min (A := binary64) 1e30%float u = u).
  { intros u Hu. unfold std_min. cbn. split.
    - now rewrite (f_leb_nltb _ _ Hu).
    - destruct (PrimFloat.ltb u 1e30) eqn:E; [reflexivity|].
      symmetry. apply f_leb_antisym; auto.
      right. vm_compute. discriminate. }
  assert (L : forall u, PrimFloat.leb (- 1e30) u = true ->
                std_max (A := binary64) u (- 1e30)%float = u
                /\ std_max (A := binary64) (- 1e30)%float u = u).
  { intros u Hu. unfold std_max. cbn. split.
    - now rewrite (f_leb_nltb _ _ Hu).
    - destruct (PrimFloat.ltb (- 1e30) u) eqn:E; [reflexivity|].
      apply f_leb_antisym; auto.
      left. vm_compute. discriminate. }
  unfold AABB.merge, AABB.empty. cbn.
  destruct (K x Hx), (K y Hy), (K z Hz), (L x' Hx'), (L y' Hy'), (L z' Hz').
  split; f_equal; f_equal; assumption.
Qed.

Lemma merge_seed_identity_witness :
  AABB.merge (Sphere.bounding_box Ex.unit_ball) AABB.empty
  = Sphere.bounding_box Ex.unit_ball
  /\ AABB.merge AABB.empty (Sphere.bounding_box Ex.unit_ball)
     = Sphere.bounding_box Ex.unit_ball.
Proof.
  apply merge_seed_identity. vm_compute. reflexivity.
Defined.

(** ** Surface area *)

Lemma Q_std_min (x y : Q) :
  (std_min (A := exactQ) x y <= x /\ std_min (A := exactQ) x y <= y)%Q.
Proof.
  unfold std_min. cbn. unfold Qltb.
  destruct (Qle_bool x y) eqn:E; cbn.
  - apply Qle_bool_iff in E. split; lra.
  - assert (~ (x <= y)%Q) by (intros H; apply Qle_bool_iff in H; congruence).
    split; lra.
Qed.

Lemma Q_std_max (x y : Q) :
  (x <= std_max (A := exactQ) x y /\ y <= std_max (A := exactQ) x y)%Q.
Proof.
  unfold std_max. cbn. unfold Qltb.
  destruct (Qle_bool y x) eqn:E; cbn.
  - apply Qle_bool_iff in E. split; lra.
  - assert (~ (y <= x)%Q) by (intros H; apply Qle_bool_iff in H; congruence).
    split; lra.
Qed.




(** ** The dielectric branch *)

Lemma schlick_inverse_ratio (cosine ior : Q) :
  (0 < ior)%Q ->
  (schlick (A := exactQ) cosine (1 / ior)
   == schlick (A := exactQ) cosine ior)%Q.
Proof.
  intros H. unfold schlick.
  cbn [add sub mul div of_int exactQ].
  generalize (dpow (A := exactQ) (inject_Z 1 - cosine)%Q 5). intros p.
  change (inject_Z 1) with 1%Q.
  field. split; lra.
Qed.

Lemma schlick_normal_incidence :
  (schlick (A := exactQ) 1 (3 # 2) == 4 # 100)%Q.
Proof. vm_compute. reflexivity. Qed.

(** C4.  When the query of [ray_color] hits a GLASS material, with the
    refraction ratio [1/ior] on a front face and [ior] otherwise, the
    scattered ray starts at the hit point and is the reflection whenever
    [ratio * sin_theta > 1]; otherwise one number [u] is drawn and the ray is
    the reflection exactly when [u] is below
    [r0 + (1 - r0) * (1 - cos_theta)^5], the refraction if not; the colour
    of the scattered ray is multiplied by (1,1,1).  The source computes [r0]
    from the ratio; in exact arithmetic this is [((1-ior)/(1+ior))^2] on
    either face, and at [cos_theta = 1], [ior = 1.5] the reflectance is
    [0.04]. *)
Theorem glass_scatter {A : Arith} {SQ : Sqrt A} {P : Pow A} {R : Rng A}
    {SA : StdAlgo}
    (fuel inner : nat) (ray : Ray.t) (scene : Scene.t) (depth : Z)
    (use_bvh : bool) (g : rng_t) (total tests : Z) (rec : HitRecord.t) :
  0 < depth ->
  (if use_bvh
   then Scene.intersect_bvh inner scene ray c_0p001 c_1e10 0
   else Ret (Scene.intersect_brute scene ray c_0p001 c_1e10, 0))
  = Ret (Some rec, tests) ->
  Material.type (HitRecord.mat rec) = Material.GLASS ->
  let ior := Material.ior (HitRecord.mat rec) in
  let ratio := if HitRecord.front_face rec then (of_int 1 / ior)%D else ior in
  let unit_dir := Vec3.normalize (Ray.direction ray) in
  let cos_theta :=
    std_min (Vec3.dot (Vec3.neg unit_dir) (HitRecord.normal rec)) (of_int 1) in
  let sin_theta := dsqrt (of_int 1 - cos_theta * cos_theta)%D in
  let r0 := ((of_int 1 - ratio) / (of_int 1 + ratio)
             * ((of_int 1 - ratio) / (of_int 1 + ratio)))%D in
  let reflectance :=
    (r0 + (of_int 1 - r0) * dpow (of_int 1 - cos_theta) 5)%D in
  let total_internal := (ratio * sin_theta >? of_int 1)%D in
  let u := fst (rand01 g) in
  let direction :=
    if total_internal || (u <? reflectance)%D
    then reflect unit_dir (HitRecord.normal rec)
    else refract unit_dir (HitRecord.normal rec) ratio in
  let g' := if total_internal then g else snd (rand01 g) in
  ray_color (S fuel) inner ray scene depth use_bvh (g, total)
  = ('(c, st) <- ray_color fuel inner
                   (Ray.mk (HitRecord.point rec) direction) scene
                   (depth - 1) use_bvh (g', total + tests) ;;
     Ret (Vec3.mul (Vec3.mk (of_int 1) (of_int 1) (of_int 1)) c, st))
  /\ (forall cosine i : Q,
         (0 < i)%Q ->
         (schlick (A := exactQ) cosine (1 / i)
          == schlick (A := exactQ) cosine i)%Q)
  /\ (schlick (A := exactQ) 1 (3 # 2) == 4 # 100)%Q.
Proof.
  intros Hd Hq Hg. intros.
  split; [|split; [exact schlick_inverse_ratio
                  | exact schlick_normal_incidence]].
  cbn [ray_color].
  destruct (depth <=? 0) eqn:E; [apply Z.leb_le in E; lia|].
  rewrite Hq. cbn [bind]. rewrite Hg.
  unfold glass_direction.
  fold ior ratio unit_dir cos_theta sin_theta.
  unfold schlick. fold r0. fold reflectance. fold total_internal.
  subst direction g'.
  destruct total_internal; cbn [orb].
  - reflexivity.
  - subst u. destruct (rand01 g) as [u g1]. cbn [fst snd].
    destruct (ltb u reflectance); reflexivity.
Qed.

Lemma glass_scatter_witness :
  ray_color (A := binary64) 1 1 Ex.ray_x (Scene.mk [Ex.glass_ball] None) 1
    false (7, 0)
  = Ret (Ex.vec 0 0 0, (snd (Ex.lcg 7), 0)).
Proof.
  refine (eq_trans
            (proj1 (@glass_scatter binary64 _ _ _ _ 0%nat 1%nat Ex.ray_x
                      (Scene.mk [Ex.glass_ball] None) 1 false 7 0 0
                      Ex.glass_hit _ _ _)) _).
  - lia.
  - reflexivity.
  - reflexivity.
  - reflexivity.
Defined.

(** ** The reference algorithms meet the standard's guarantees *)

Lemma insert_by_perm (cmp : Z -> Z -> bool) (x : Z) (l : list Z) :
  Permutation (x :: l) (insert_by cmp x l).
Proof.
  induction l as [|y tl IH]; cbn.
  - apply Permutation_refl.
  - destruct (cmp y x).
    + eapply perm_trans; [apply perm_swap|]. now apply perm_skip.
    + apply Permutation_refl.
Qed.

Lemma insertion_sort_perm (cmp : Z -> Z -> bool) (l : list Z) :
  Permutation l (insertion_sort cmp l).
Proof.
  induction l as [|x tl IH]; cbn.
  - apply perm_nil.
  - eapply perm_trans; [|apply insert_by_perm]. now apply perm_skip.
Qed.

Lemma insert_by_sorted (cmp : Z -> Z -> bool) (x : Z) (l : list Z) :
  strict_weak_order cmp -> sorted_by cmp l -> sorted_by cmp (insert_by cmp x l).
Proof.
  intros (Hirr & Htr & Hbt). unfold sorted_by.
  induction l as [|y tl IH]; intros Hs; cbn.
  - constructor; constructor.
  - inversion Hs as [|? ? Htl Hy]; subst.
    destruct (cmp y x) eqn:E.
    + constructor; [now apply IH|].
      apply (Permutation_Forall (insert_by_perm cmp x tl)).
      constructor; [|assumption].
      destruct (cmp x y) eqn:E'; [|reflexivity].
      pose proof (Htr _ _ _ E E') as C. rewrite Hirr in C. discriminate.
    + constructor; [assumption|].
      constructor; [assumption|].
      rewrite Forall_forall in *. intros z Hz.
      destruct (cmp z x) eqn:E'; [|reflexivity].
      destruct (Hbt z y x E') as [H|H].
      * now rewrite (Hy z Hz) in H.
      * congruence.
Qed.

Lemma insertion_sort_sorted (cmp : Z -> Z -> bool) (l : list Z) :
  strict_weak_order cmp -> sorted_by cmp (insertion_sort cmp l).
Proof.
  intros H. induction l as [|x tl IH]; cbn.
  - constructor.
  - now apply insert_by_sorted.
Qed.

Lemma filter_split_perm (p : Z -> bool) (l : list Z) :
  Permutation l (filter p l ++ filter (fun a => negb (p a)) l).
Proof.
  induction l as [|x tl IH]; cbn.
  - apply perm_nil.
  - destruct (p x); cbn.
    + now apply perm_skip.
    + apply Permutation_cons_app. assumption.
Qed.

#[export] Instance ref_algo_spec : StdAlgoSpec ref_algo.
Proof.
  constructor; cbn.
  - exact insertion_sort_perm.
  - exact insertion_sort_sorted.
  - exact filter_split_perm.
  - intros p l. repeat split.
    + apply filter_length_le.
    + rewrite firstn_app, Nat.sub_diag, firstn_all. cbn. rewrite app_nil_r.
      apply Forall_forall. intros a Ha. now apply filter_In in Ha.
    + rewrite skipn_app, Nat.sub_diag, skipn_all. cbn.
      apply Forall_forall. intros a Ha. apply filter_In in Ha.
      destruct Ha as [_ Ha]. now apply negb_true_iff in Ha.
Qed.

(** ** The split of a range *)


Lemma get_range_ok {T : Type} (v : list T) (start end_ : Z) :
  0 <= start <= end_ -> end_ <= Z.of_nat (length v) ->
  get_range v start end_ = Ret (range v start end_).
Proof.
  intros H1 H2. unfold get_range.
  replace (0 <=? start) with true by (symmetry; apply Z.leb_le; lia).
  replace (start <=? end_) with true by (symmetry; apply Z.leb_le; lia).
  replace (end_ <=? Z.of_nat (length v)) with true
    by (symmetry; apply Z.leb_le; lia).
  reflexivity.
Qed.


Section SplitLemmas.
Context {A : Arith} {SA : StdAlgo}.
Local Open Scope D_scope.

Lemma center_on_ok (ok : D -> Prop) (laws : OrderLaws A ok)
    (sph : list Sphere.t) (axis a : Z) :
  Forall (fun s => vec_ok ok (Sphere.center s)) sph ->
  ok (BVH.center_on sph axis a).
Proof.
  intros H. unfold BVH.center_on.
  destruct (a <? 0)%Z; [apply ok_zero|].
  destruct (nth_error sph (Z.to_nat a)) as [s|] eqn:E; [|apply ok_zero].
  apply nth_error_In in E. rewrite Forall_forall in H.
  destruct (H s E) as (Hx & Hy & Hz). unfold Vec3.get.
  destruct (axis =? 0)%Z; [assumption|]. destruct (axis =? 1)%Z; assumption.
Qed.

Lemma by_center_swo (ok : D -> Prop) (laws : OrderLaws A ok)
    (sph : list Sphere.t) (axis : Z) :
  Forall (fun s => vec_ok ok (Sphere.center s)) sph ->
  strict_weak_order (BVH.by_center sph axis).
Proof.
  intros H. unfold BVH.by_center. repeat split.
  - intros a. apply ltb_irrefl.
  - intros a b c. apply ltb_trans.
  - intros a b c. apply ltb_between. now apply center_on_ok.
Qed.

Lemma fill_buckets_ok (sph : list Sphere.t) (axis : Z) (cb : AABB.t)
    (extent : D) (idxs : list Z) (buckets : list BVH.Bucket) :
  Forall (fun i => (0 <= i < Z.of_nat (length sph))%Z) idxs ->
  exists b, BVH.fill_buckets sph axis cb extent idxs buckets = Ret b.
Proof.
  revert buckets. induction idxs as [|i rest IH]; intros buckets H; cbn.
  - eauto.
  - inversion H as [|? ? Hi Hrest]; subst.
    destruct (at_in_range sph i Hi) as [s Hs]. rewrite Hs. cbn. apply IH, Hrest.
Qed.
End SplitLemmas.

Section Split.
Context {A : Arith} {SA : StdAlgo}.
Local Open Scope D_scope.

End Split.



(** ** Construction of the arena *)

(** *** Ranges of a vector split in three *)

Lemma firstn_exact {T : Type} (l1 l2 : list T) :
  firstn (length l1) (l1 ++ l2) = l1.
Proof. induction l1 as [|x l1 IH]; cbn; [now destruct l2 | now rewrite IH]. Qed.

Lemma skipn_exact {T : Type} (l1 l2 : list T) :
  skipn (length l1) (l1 ++ l2) = l2.
Proof. induction l1 as [|x l1 IH]; cbn; auto. Qed.

Lemma range_mid {T : Type} (pre seg post : list T) :
  range (pre ++ seg ++ post) (Z.of_nat (length pre))
    (Z.of_nat (length pre + length seg)) = seg.
Proof.
  unfold range.
  replace (Z.to_nat (Z.of_nat (length pre + length seg) - Z.of_nat (length pre)))
    with (length seg) by lia.
  now rewrite Nat2Z.id, skipn_exact, firstn_exact.
Qed.

Lemma splice_mid {T : Type} (pre seg post seg' : list T) :
  splice (pre ++ seg ++ post) (Z.of_nat (length pre))
    (Z.of_nat (length pre + length seg)) seg' = pre ++ seg' ++ post.
Proof.
  unfold splice. rewrite !Nat2Z.id, firstn_exact.
  rewrite <- (length_app pre seg), (app_assoc pre seg post), skipn_exact.
  reflexivity.
Qed.

Lemma get_range_mid {T : Type} (pre seg post : list T) :
  get_range (pre ++ seg ++ post) (Z.of_nat (length pre))
    (Z.of_nat (length pre + length seg)) = Ret seg.
Proof.
  rewrite get_range_ok.
  - now rewrite range_mid.
  - lia.
  - rewrite !length_app. lia.
Qed.

Lemma at_mid {T : Type} (pre post : list T) (a : T) (tl : list T) :
  at_ (pre ++ (a :: tl) ++ post) (Z.of_nat (length pre)) = Ret a.
Proof.
  rewrite at_app_r by lia. rewrite Z.sub_diag. reflexivity.
Qed.

Lemma set_nth_mid {T : Type} (l1 l2 : list T) (a b : T) :
  set_nth (l1 ++ a :: l2) (length l1) b = l1 ++ b :: l2.
Proof. induction l1 as [|x l1 IH]; cbn; [reflexivity | now rewrite IH]. Qed.

Lemma store_mid {T : Type} (l1 l2 : list T) (a b : T) :
  store (l1 ++ a :: l2) (Z.of_nat (length l1)) b = Ret (l1 ++ b :: l2).
Proof.
  unfold store. rewrite length_app. cbn [length].
  replace (0 <=? Z.of_nat (length l1)) with true
    by (symmetry; apply Z.leb_le; lia).
  replace (Z.of_nat (length l1) <? Z.of_nat (length l1 + S (length l2)))
    with true by (symmetry; apply Z.ltb_lt; lia).
  cbn. now rewrite Nat2Z.id, set_nth_mid.
Qed.

Section Stores.
Context {A : Arith} {SA : StdAlgo}.

Lemma modify_mid (l1 l2 : list BVHNode.t) (a : BVHNode.t)
    (f : BVHNode.t -> BVHNode.t) :
  BVH.modify (l1 ++ a :: l2) (Z.of_nat (length l1)) f = Ret (l1 ++ f a :: l2).
Proof.
  unfold BVH.modify.
  replace (l1 ++ a :: l2) with (l1 ++ (a :: l2) ++ []) at 1
    by now rewrite app_nil_r.
  rewrite at_mid. cbn [bind]. apply store_mid.
Qed.

Lemma centroid_bounds_ok (sph : list Sphere.t) (idxs : list Z) (b : AABB.t) :
  Forall (valid_index sph) idxs -> exists cb, BVH.centroid_bounds sph idxs b = Ret cb.
Proof.
  revert b. induction idxs as [|i rest IH]; intros b H; cbn.
  - eauto.
  - inversion H as [|? ? Hi Hrest]; subst.
    destruct (at_in_range sph i Hi) as [s Hs]. rewrite Hs. cbn. apply IH, Hrest.
Qed.
End Stores.

Section SplitShape.
Context {A : Arith} {SA : StdAlgo}.
Local Open Scope D_scope.

(** The median index of a range of two or more lies strictly inside it. *)
Lemma median_inside (n : Z) : (2 <= n)%Z -> (0 < Z.quot n 2 < n)%Z.
Proof.
  intros H. rewrite Z.quot_div_nonneg by lia.
  split.
  - apply Z.div_str_pos. lia.
  - apply Z.div_lt; lia.
Qed.

(** [sah_split] on a range of two or more valid_index indices: the range is
    permuted and cut strictly inside. *)
Lemma sah_split_ok (spec : StdAlgoSpec SA) (sph : list Sphere.t)
    (pre seg post : list Z) (axis : Z) (cb : AABB.t) :
  (2 <= length seg)%nat -> Forall (valid_index sph) seg ->
  (Z.of_nat (length pre + length seg) <= INT_MAX)%Z ->
  exists sl sr,
    BVH.sah_split sph (pre ++ seg ++ post) (Z.of_nat (length pre))
      (Z.of_nat (length pre + length seg)) axis cb
    = Ret (Z.of_nat (length pre + length sl), pre ++ (sl ++ sr) ++ post)
    /\ Permutation seg (sl ++ sr) /\ sl <> [] /\ sr <> [].
Proof.
  intros Hn Hv Hmax.
  set (start := Z.of_nat (length pre)).
  set (end_ := Z.of_nat (length pre + length seg)).
  assert (Hc : (end_ - start = Z.of_nat (length seg))%Z) by (subst start end_; lia).
  (* every outcome is a permuted range cut at an offset k inside it *)
  assert (K : forall (seg' : list Z) (k : Z),
             Permutation seg seg' -> (0 < k < Z.of_nat (length seg))%Z ->
             exists sl sr,
               Ret (start + k, pre ++ seg' ++ post)%Z
               = Ret (Z.of_nat (length pre + length sl), pre ++ (sl ++ sr) ++ post)
               /\ Permutation seg (sl ++ sr) /\ sl <> [] /\ sr <> []).
  { intros seg' k Hp Hk.
    assert (Hl := Permutation_length Hp).
    exists (firstn (Z.to_nat k) seg'), (skipn (Z.to_nat k) seg').
    rewrite firstn_skipn. repeat split.
    - f_equal. f_equal. rewrite length_firstn. subst start. lia.
    - assumption.
    - intros E. apply (f_equal (@length Z)) in E.
      rewrite length_firstn in E. cbn in E. lia.
    - intros E. apply (f_equal (@length Z)) in E.
      rewrite length_skipn in E. cbn in E. lia. }
  unfold BVH.sah_split. fold start end_. rewrite Hc.
  destruct (Z.of_nat (length seg) <=? 4)%Z.
  - subst start end_. rewrite get_range_mid. cbn [bind]. rewrite splice_mid.
    apply K; [apply sort_perm | apply median_inside; lia].
  - match goal with |- context [if ?c then _ else _] => destruct c end.
    + replace (pre ++ seg ++ post) with (pre ++ seg ++ post) by reflexivity.
      apply K; [apply Permutation_refl | apply median_inside; lia].
    + subst start end_. rewrite get_range_mid. cbn [bind].
      match goal with
      | |- context [BVH.fill_buckets ?a ?b ?c ?d ?e ?f] =>
          destruct (fill_buckets_ok a b c d e f Hv) as [bk Hbk]; rewrite Hbk
      end.
      cbn [bind]. cbn zeta.
      match goal with
      | |- context [std_partition ?p seg] =>
          pose proof (partition_point p seg) as (Hk & _);
          pose proof (partition_perm p seg) as Hp;
          revert Hk Hp;
          destruct (std_partition p seg) as [seg' k]
      end.
      cbn [fst snd]. intros Hk Hp. rewrite splice_mid.
      rewrite to_int32_small by (unfold INT_MIN, INT_MAX in *; lia).
      destruct ((Z.of_nat (length pre) + Z.of_nat k =? Z.of_nat (length pre))
                || (Z.of_nat (length pre) + Z.of_nat k
                    =? Z.of_nat (length pre + length seg)))%Z eqn:E.
      * apply K; [assumption | apply median_inside; lia].
      * apply orb_false_iff in E. destruct E as [E1 E2].
        apply Z.eqb_neq in E1, E2.
        apply K; [assumption | lia].
Qed.
End SplitShape.

Section Layout.
Context {A : Arith} {SA : StdAlgo}.

Lemma layout_length (sph : list Sphere.t) (tr : Tree.t) (base : Z) :
  length (Tree.layout sph base tr) = Tree.size tr.
Proof.
  revert base. induction tr as [si|l IHl r IHr]; intros base; cbn.
  - reflexivity.
  - now rewrite length_app, IHl, IHr.
Qed.

Lemma size_leaves (tr : Tree.t) :
  (Tree.size tr + 1 = 2 * length (Tree.leaves tr))%nat.
Proof.
  induction tr as [si|l IHl r IHr]; cbn.
  - reflexivity.
  - rewrite length_app. lia.
Qed.

(** The first node of a laid-out tree carries the box of the tree. *)
Lemma layout_head (sph : list Sphere.t) (tr : Tree.t) (base : Z) :
  exists n rest, Tree.layout sph base tr = n :: rest
                 /\ BVHNode.bbox n = Tree.box sph tr.
Proof. destruct tr; cbn; eauto. Qed.

Lemma sphere_box_at (sph : list Sphere.t) (si : Z) (s : Sphere.t) :
  at_ sph si = Ret s -> Tree.sphere_box sph si = Sphere.bounding_box s.
Proof. intros H. unfold Tree.sphere_box. now rewrite H. Qed.

Lemma build_layout (spec : StdAlgoSpec SA) (sph : list Sphere.t) :
  forall (fuel : nat) (nodes : list BVHNode.t) (pre seg post : list Z),
    seg <> [] -> Forall (valid_index sph) seg -> (length seg <= fuel)%nat ->
    Z.of_nat (length nodes) + 2 * Z.of_nat (length seg) - 1 <= INT_MAX ->
    Z.of_nat (length pre + length seg) <= INT_MAX ->
    exists tr seg',
      BVH.build fuel sph nodes (pre ++ seg ++ post) (Z.of_nat (length pre))
        (Z.of_nat (length pre + length seg))
      = Ret (Z.of_nat (length nodes),
             nodes ++ Tree.layout sph (Z.of_nat (length nodes)) tr,
             pre ++ seg' ++ post)
      /\ Tree.leaves tr = seg' /\ Permutation seg seg'.
Proof.
  induction fuel as [|fuel IH]; intros nodes pre seg post Hne Hv Hf Hn Hi.
  - destruct seg; [congruence | cbn in Hf; lia].
  - cbn [BVH.build].
    rewrite to_int32_small by (unfold INT_MIN, INT_MAX in *; destruct seg; [congruence | cbn [length] in *; lia]).
    replace (Z.of_nat (length pre + length seg) - Z.of_nat (length pre))
      with (Z.of_nat (length seg)) by lia.
    destruct (Z.of_nat (length seg) =? 1) eqn:E1.
    + (* a leaf *)
      apply Z.eqb_eq in E1.
      destruct seg as [|si [|? ?]]; cbn [length] in E1; try lia.
      rewrite at_mid. cbn [bind].
      inversion Hv as [|? ? Hsi _]; subst.
      destruct (at_in_range sph si Hsi) as [s Hs]. rewrite Hs. cbn [bind].
      rewrite modify_mid. cbn [bind].
      exists (Tree.Leaf si), [si]. split; [|split; [reflexivity | apply Permutation_refl]].
      cbn [Tree.layout]. rewrite (sphere_box_at _ _ _ Hs). reflexivity.
    + (* an inner node *)
      apply Z.eqb_neq in E1.
      assert (H2 : (2 <= length seg)%nat)
        by (destruct seg as [|? [|? ?]]; cbn [length] in *; [congruence | lia | lia]).
      replace (Z.of_nat (length pre) <? Z.of_nat (length pre + length seg))
        with true by (symmetry; apply Z.ltb_lt; lia).
      rewrite get_range_mid. cbn [bind].
      destruct (centroid_bounds_ok sph seg AABB.empty Hv) as [cb Hcb].
      rewrite Hcb. cbn [bind].
      destruct (sah_split_ok spec sph pre seg post (BVH.longest_axis cb) cb
                  H2 Hv Hi) as (sl & sr & Hsplit & Hperm & Hsl & Hsr).
      rewrite Hsplit. cbn [bind].
      assert (Hlen : (length seg = length sl + length sr)%nat)
        by (rewrite (Permutation_length Hperm), length_app; reflexivity).
      assert (Hv' : Forall (valid_index sph) (sl ++ sr))
        by (eapply Permutation_Forall; eassumption).
      apply Forall_app in Hv'. destruct Hv' as [Hvl Hvr].
      assert (Hsl' : (1 <= length sl)%nat) by (destruct sl; [congruence | cbn; lia]).
      assert (Hsr' : (1 <= length sr)%nat) by (destruct sr; [congruence | cbn; lia]).
      (* the left subtree *)
      rewrite <- (app_assoc sl sr post).
      destruct (IH (nodes ++ [BVHNode.default]) pre sl (sr ++ post) Hsl Hvl)
        as (tl & sl' & Hbl & Hll & Hpl);
        [lia | rewrite length_app; cbn [length]; lia | lia |].
      rewrite Hbl. cbn [bind].
      assert (Hlsl : length sl' = length sl)
        by (symmetry; apply Permutation_length; assumption).
      (* the right subtree *)
      rewrite (app_assoc pre sl' (sr ++ post)).
      replace (length pre + length sl)%nat with (length (pre ++ sl'))
        by (rewrite length_app; lia).
      replace (length pre + length seg)%nat
        with (length (pre ++ sl') + length sr)%nat
        by (rewrite length_app; lia).
      set (nodes2 := (nodes ++ [BVHNode.default])
                     ++ Tree.layout sph
                          (Z.of_nat (length (nodes ++ [BVHNode.default]))) tl).
      assert (Hn2 : (length nodes2 = length nodes + 2 * length sl)%nat).
      { subst nodes2. rewrite !length_app, layout_length. cbn [length].
        pose proof (size_leaves tl) as Hs. rewrite Hll, Hlsl in Hs. lia. }
      destruct (IH nodes2 (pre ++ sl') sr post Hsr Hvr)
        as (tr & sr' & Hbr & Hlr & Hpr);
        [lia | lia | rewrite length_app; lia |].
      rewrite Hbr. cbn [bind].
      (* the boxes of the children *)
      subst nodes2.
      remember (Tree.layout sph
                  (Z.of_nat (length (nodes ++ [BVHNode.default]))) tl)
        as L1 eqn:EL1.
      remember (Tree.layout sph
                  (Z.of_nat (length ((nodes ++ [BVHNode.default]) ++ L1))) tr)
        as L2 eqn:EL2.
      destruct (layout_head sph tl
                  (Z.of_nat (length (nodes ++ [BVHNode.default]))))
        as (nl & restl & Hnl & Hbl').
      destruct (layout_head sph tr
                  (Z.of_nat (length ((nodes ++ [BVHNode.default]) ++ L1))))
        as (nr & restr & Hnr & Hbr').
      rewrite <- EL1 in Hnl. rewrite <- EL2 in Hnr.
      assert (Hatl : at_ (((nodes ++ [BVHNode.default]) ++ L1) ++ L2)
                       (Z.of_nat (length (nodes ++ [BVHNode.default])))
                     = Ret nl).
      { rewrite Hnl, <- app_assoc. apply at_mid. }
      assert (Hatr : at_ (((nodes ++ [BVHNode.default]) ++ L1) ++ L2)
                       (Z.of_nat (length ((nodes ++ [BVHNode.default]) ++ L1)))
                     = Ret nr).
      { rewrite Hnr.
        replace (nr :: restr) with ((nr :: restr) ++ []) by apply app_nil_r.
        apply at_mid. }
      rewrite Hatl. cbn [bind]. rewrite Hatr. cbn [bind].
      replace (((nodes ++ [BVHNode.default]) ++ L1) ++ L2)
        with (nodes ++ BVHNode.default :: (L1 ++ L2))
        by (rewrite <- !app_assoc; reflexivity).
      rewrite modify_mid. cbn [bind].
      exists (Tree.Node tl tr), (sl' ++ sr').
      split; [|split].
      * f_equal. f_equal; [f_equal|].
        -- cbn [Tree.layout]. unfold BVH.set_inner, BVHNode.default.
           cbn [BVHNode.sphere_idx BVHNode.bbox].
           rewrite Hbl', Hbr'. subst L1 L2.
           rewrite !length_app, layout_length. cbn [length].
           repeat f_equal; lia.
        -- now rewrite <- !app_assoc.
      * cbn [Tree.leaves]. now rewrite Hll, Hlr.
      * eapply perm_trans; [exact Hperm|]. now apply Permutation_app.
Qed.
End Layout.

Section LayoutNodes.
Context {A : Arith}.


Lemma size_pos (tr : Tree.t) : (1 <= Tree.size tr)%nat.
Proof. destruct tr; cbn; lia. Qed.

End LayoutNodes.

Section Make.
Context {A : Arith} {SA : StdAlgo}.
Local Open Scope D_scope.

Lemma iota_seq (sph : list Sphere.t) :
  (Z.of_nat (length sph) <= INT_MAX)%Z ->
  BVH.iota sph = map Z.of_nat (seq 0 (length sph)).
Proof.
  intros H. unfold BVH.iota.
  rewrite to_int32_small by (unfold INT_MIN, INT_MAX in *; lia).
  apply map_ext_in. intros i Hi. apply in_seq in Hi.
  replace (Z.of_nat i <? Z.of_nat (length sph))%Z with true
    by (symmetry; apply Z.ltb_lt; lia).
  reflexivity.
Qed.

Lemma make_layout (spec : StdAlgoSpec SA) (sph : list Sphere.t) (fuel : nat) :
  sph <> [] -> (2 * Z.of_nat (length sph) - 1 <= INT_MAX)%Z ->
  (length sph <= fuel)%nat ->
  exists tr,
    BVH.make fuel sph = Ret (BVH.mk (Tree.layout sph 0 tr) sph)
    /\ Permutation (map Z.of_nat (seq 0 (length sph))) (Tree.leaves tr).
Proof.
  intros Hne Hmax Hfuel. unfold BVH.make.
  destruct sph as [|s0 sph0] eqn:Es; [congruence|]. rewrite <- Es in *.
  assert (Hlen : (1 <= length sph)%nat) by (rewrite Es; cbn; lia).
  rewrite iota_seq by lia.
  set (seg := map Z.of_nat (seq 0 (length sph))).
  assert (Hseg : length seg = length sph)
    by (subst seg; now rewrite length_map, length_seq).
  rewrite Hseg.
  rewrite to_int32_small by (unfold INT_MIN, INT_MAX in *; lia).
  destruct (build_layout spec sph fuel [] [] seg [])
    as (tr & seg' & Hb & Hl & Hp).
  - intros E. rewrite E in Hseg. cbn in Hseg. lia.
  - subst seg. apply Forall_forall. intros i Hi.
    apply in_map_iff in Hi. destruct Hi as (j & <- & Hj).
    apply in_seq in Hj. unfold valid_index. lia.
  - lia.
  - cbn [length]. lia.
  - cbn [length]. lia.
  - cbn [app length Nat.add] in Hb. rewrite !app_nil_r, Hseg in Hb.
    change (Z.of_nat 0) with 0%Z in Hb.
    rewrite Hb. cbn [bind].
    exists tr. split; [reflexivity|]. now rewrite Hl.
Qed.
End Make.

Section BoxOrder.
Context {A : Arith} (ok : D -> Prop) (laws : OrderLaws A ok).
Local Open Scope D_scope.

Lemma leb_refl_ok (x : D) : ok x -> (x <=? x) = true.
Proof. intros H. apply (nltb_leb (ok := ok)); auto. apply ltb_irrefl. Qed.

Lemma std_min_low (x y : D) :
  ok x -> ok y ->
  ok (std_min x y) /\ (std_min x y <=? x) = true /\ (std_min x y <=? y) = true.
Proof.
  intros Hx Hy. unfold std_min. destruct (y <? x) eqn:E.
  - repeat split; [assumption | now apply ltb_leb | now apply leb_refl_ok].
  - repeat split; [assumption | now apply leb_refl_ok
                  | now apply (nltb_leb (ok := ok))].
Qed.

Lemma std_max_high (x y : D) :
  ok x -> ok y ->
  ok (std_max x y) /\ (x <=? std_max x y) = true /\ (y <=? std_max x y) = true.
Proof.
  intros Hx Hy. unfold std_max. destruct (x <? y) eqn:E.
  - repeat split; [assumption | now apply ltb_leb | now apply leb_refl_ok].
  - repeat split; [assumption | now apply leb_refl_ok
                  | now apply (nltb_leb (ok := ok))].
Qed.

Lemma merge_contains (a b : AABB.t) :
  box_ok ok a -> box_ok ok b ->
  box_ok ok (AABB.merge a b)
  /\ contains (AABB.merge a b) a = true
  /\ contains (AABB.merge a b) b = true.
Proof.
  destruct a as [[ax ay az] [ax' ay' az']], b as [[bx byy bz] [bx' by' bz']].
  unfold box_ok, vec_ok, contains, AABB.merge.
  cbn [AABB.min_pt AABB.max_pt Vec3.x Vec3.y Vec3.z].
  intros ((H1 & H2 & H3) & H4 & H5 & H6) ((G1 & G2 & G3) & G4 & G5 & G6).
  destruct (std_min_low ax bx H1 G1) as (? & -> & ->).
  destruct (std_min_low ay byy H2 G2) as (? & -> & ->).
  destruct (std_min_low az bz H3 G3) as (? & -> & ->).
  destruct (std_max_high ax' bx' H4 G4) as (? & -> & ->).
  destruct (std_max_high ay' by' H5 G5) as (? & -> & ->).
  destruct (std_max_high az' bz' H6 G6) as (? & -> & ->).
  cbn. auto 10.
Qed.

Lemma tree_box_ok (sph : list Sphere.t) (tr : Tree.t) :
  (forall si, In si (Tree.leaves tr) -> box_ok ok (Tree.sphere_box sph si)) ->
  box_ok ok (Tree.box sph tr).
Proof.
  induction tr as [si|l IHl r IHr]; cbn [Tree.box Tree.leaves]; intros H.
  - apply H. now left.
  - apply merge_contains.
    + apply IHl. intros si Hs. apply H, in_or_app. now left.
    + apply IHr. intros si Hs. apply H, in_or_app. now right.
Qed.
End BoxOrder.

Section Arena.
Context {A : Arith} {SA : StdAlgo}.

Lemma leaves_valid (sph : list Sphere.t) (tr : Tree.t) :
  Permutation (map Z.of_nat (seq 0 (length sph))) (Tree.leaves tr) ->
  forall si, In si (Tree.leaves tr) -> valid_index sph si.
Proof.
  intros Hp si Hi. apply (Permutation_in _ (Permutation_sym Hp)) in Hi.
  apply in_map_iff in Hi. destruct Hi as (j & <- & Hj).
  apply in_seq in Hj. unfold valid_index. lia.
Qed.


End Arena.



(** ** Traversal against the exhaustive baseline *)

(** A sorted range of two indices whose keys differ has one order. *)
Lemma sort_two (SA : StdAlgo) (spec : StdAlgoSpec SA) (cmp : Z -> Z -> bool)
    (a b : Z) :
  strict_weak_order cmp -> cmp b a = true -> std_sort cmp [a; b] = [b; a].
Proof.
  intros Hswo Hba.
  pose proof (sort_perm cmp [a; b]) as Hp.
  pose proof (sort_sorted cmp [a; b] Hswo) as Hs.
  apply Permutation_length_2_inv in Hp. destruct Hp as [E|E]; [|assumption].
  rewrite E in Hs. unfold sorted_by in Hs.
  inversion Hs as [|? ? _ Hf]; subst. inversion Hf as [|? ? Hc _]; subst.
  congruence.
Qed.

Lemma two_ball_split (SA : StdAlgo) (spec : StdAlgoSpec SA)
    (cb : AABB.t (A := binary64)) :
  BVH.sah_split (SA := SA) [Ex.far_ball; Ex.unit_ball] [0; 1] 0 2 0 cb
  = Ret (1, [1; 0]).
Proof.
  unfold BVH.sah_split.
  cbn [Z.sub Z.leb Z.compare Z.opp Z.add Z.pos_sub Pos.compare
       Pos.compare_cont].
  change (get_range [0; 1] 0 2) with (Ret [0; 1]). cbn [bind].
  rewrite (sort_two SA spec).
  - reflexivity.
  - apply (by_center_swo (A := binary64) not_nan binary64_order).
    repeat constructor; unfold not_nan; vm_compute; discriminate.
  - vm_compute. reflexivity.
Qed.

(** C1, evaluated.  A unit sphere at the origin and the ray from (-5,0,0)
    along x on the interval [0.001, 4]: the baseline finds the hit at t = 4,
    the traversal none, because the slab test of the root rejects an interval
    narrowed to the single point 4.  With a second sphere at (5,0,0), the ray
    from the origin with direction (1000,0,0) and the interval of
    [ray_color], [0.001, 1e10]: the baseline returns the nearest hit,
    t = 0.001, the traversal the hit of the other sphere, t = 0.004.  Both
    hold whatever [std::sort] does within its guarantees. *)
Theorem bvh_drops_boundary_hit (SA : StdAlgo) (spec : StdAlgoSpec SA) :
  (scene <- Ex.scene_of (SA := SA) [Ex.unit_ball] ;;
   Ex.hit_t (Scene.intersect_bvh 1 scene Ex.ray_x 0.001%float 4%float 0))
  = Ret None
  /\ option_map (HitRecord.t_ (A := binary64))
       (Scene.intersect_brute (Scene.mk [Ex.unit_ball] None) Ex.ray_x
          0.001%float 4%float)
     = Some 4%float
  /\ (scene <- Ex.scene_of (SA := SA) [Ex.far_ball; Ex.unit_ball] ;;
      Ex.hit_t (Scene.intersect_bvh 2 scene Ex.ray_fast
                  0.001%float 1e10%float 0))
     = Ret (Some 0.004%float)
  /\ option_map (HitRecord.t_ (A := binary64))
       (Scene.intersect_brute (Scene.mk [Ex.far_ball; Ex.unit_ball] None)
          Ex.ray_fast 0.001%float 1e10%float)
     = Some 0.001%float.
Proof.
  split; [reflexivity|]. split; [vm_compute; reflexivity|].
  split; [|vm_compute; reflexivity].
  unfold Ex.scene_of, Scene.build_bvh, BVH.make.
  cbn [Scene.spheres length].
  change (BVH.iota [Ex.far_ball; Ex.unit_ball]) with [0; 1].
  change (to_int32 (Z.of_nat (length [0; 1]))) with 2.
  cbn [BVH.build].
  cbn [Z.sub Z.eqb Z.ltb Z.compare Z.opp Z.add Z.pos_sub Pos.compare
       Pos.compare_cont Pos.eqb bind].
  change (get_range [0; 1] 0 2) with (Ret [0; 1]). cbn [bind].
  change (BVH.centroid_bounds [Ex.far_ball; Ex.unit_ball] [0; 1] AABB.empty)
    with (Ret (BVH.grow (BVH.grow AABB.empty (Sphere.center Ex.far_ball))
                        (Sphere.center Ex.unit_ball))).
  cbn [bind].
  change (BVH.longest_axis
            (BVH.grow (BVH.grow AABB.empty (Sphere.center Ex.far_ball))
               (Sphere.center Ex.unit_ball))) with 0.
  rewrite (two_ball_split SA spec). cbn [bind].
  reflexivity.
Qed.

Lemma bvh_drops_boundary_hit_witness :
  (scene <- Ex.scene_of (SA := ref_algo) [Ex.unit_ball] ;;
   Ex.hit_t (Scene.intersect_bvh 1 scene Ex.ray_x 0.001%float 4%float 0))
  = Ret None
  /\ (scene <- Ex.scene_of (SA := ref_algo) [Ex.far_ball; Ex.unit_ball] ;;
      Ex.hit_t (Scene.intersect_bvh 2 scene Ex.ray_fast
                  0.001%float 1e10%float 0))
     = Ret (Some 0.004%float).
Proof.
  split.
  - exact (proj1 (bvh_drops_boundary_hit ref_algo ref_algo_spec)).
  - exact (proj1 (proj2 (proj2
             (bvh_drops_boundary_hit ref_algo ref_algo_spec)))).
Defined.

(** ** Traversal of a constructed hierarchy *)

Section Traversal.
Context {A : Arith} {SQ : Sqrt A} {SA : StdAlgo}.

(** Once a sphere has been hit the baseline reports a hit. *)
Lemma brute_loop_some (sph : list Sphere.t) (ray : Ray.t) (t_min closest : D)
    (h : HitRecord.t) :
  Scene.brute_loop sph ray t_min closest (Some h) <> None.
Proof.
  revert closest h. induction sph as [|s rest IH]; intros closest h; cbn.
  - discriminate.
  - destruct (Sphere.intersect s ray t_min closest); apply IH.
Qed.


Lemma traverse_subtree (sph : list Sphere.t) (arena : list BVHNode.t)
    (ray : Ray.t) (t_min : D) :
  forall (tr : Tree.t) (base : Z) (fuel : nat) (t_max : D) (tests : Z),
    embedded sph arena base tr ->
    Forall (valid_index sph) (Tree.leaves tr) ->
    (Tree.size tr <= fuel)%nat ->
    exists r k,
      Traverse.intersect_node fuel (BVH.mk arena sph) base ray t_min t_max
        tests = Ret (r, tests + k)
      /\ 1 <= k <= Z.of_nat (Tree.size tr)
      /\ (r <> None ->
          exists si s, In si (Tree.leaves tr) /\ at_ sph si = Ret s
                       /\ Sphere.intersect s ray t_min t_max <> None).
Proof.
  induction tr as [si|l IHl r IHr];
    intros base fuel t_max tests [Hb Hemb] Hv Hf.
  - (* a leaf *)
    destruct fuel as [|fuel]; [cbn in Hf; lia|].
    cbn [Traverse.intersect_node BVH.nodes BVH.spheres].
    assert (Hat : at_ arena base
                  = Ret (BVHNode.mk (Tree.sphere_box sph si) (-1) (-1) si true)).
    { apply at_Ret_nth. split; [assumption|].
      specialize (Hemb 0%nat _ eq_refl). now rewrite Nat.add_0_r in Hemb. }
    rewrite Hat. cbn [bind BVHNode.bbox BVHNode.is_leaf BVHNode.sphere_idx].
    destruct (AABB.intersect (Tree.sphere_box sph si) ray t_min t_max);
      cbn [negb].
    + inversion Hv as [|? ? Hsi _]; subst.
      destruct (at_in_range sph si Hsi) as [s Hs]. rewrite Hs. cbn [bind].
      exists (Sphere.intersect s ray t_min t_max), 1.
      split; [reflexivity|]. split; [cbn; lia|].
      intros Hr. exists si, s. cbn. auto.
    + exists None, 1. split; [reflexivity|]. split; [cbn; lia|]. congruence.
  - (* an inner node *)
    destruct fuel as [|fuel]; [cbn in Hf; lia|].
    cbn [Tree.size] in Hf.
    cbn [Traverse.intersect_node BVH.nodes BVH.spheres].
    cbn [Tree.leaves] in Hv. apply Forall_app in Hv. destruct Hv as [Hvl Hvr].
    assert (Hat : at_ arena base
                  = Ret (BVHNode.mk
                           (AABB.merge (Tree.box sph l) (Tree.box sph r))
                           (base + 1) (base + 1 + Z.of_nat (Tree.size l))
                           (-1) false)).
    { apply at_Ret_nth. split; [assumption|].
      specialize (Hemb 0%nat _ eq_refl). now rewrite Nat.add_0_r in Hemb. }
    rewrite Hat.
    cbn [bind BVHNode.bbox BVHNode.is_leaf BVHNode.left BVHNode.right].
    destruct (AABB.intersect (AABB.merge (Tree.box sph l) (Tree.box sph r))
                ray t_min t_max); cbn [negb].
    2:{ exists None, 1. split; [reflexivity|]. split; [cbn [Tree.size]; lia|].
        congruence. }
    replace (base + 1 >=? 0) with true by (symmetry; apply Z.geb_le; lia).
    replace (base + 1 + Z.of_nat (Tree.size l) >=? 0) with true
      by (symmetry; apply Z.geb_le; lia).
    assert (Hel : embedded sph arena (base + 1) l).
    { split; [lia|]. intros j node Hj.
      replace (Z.to_nat (base + 1) + j)%nat with (Z.to_nat base + S j)%nat
        by lia.
      apply Hemb. cbn [Tree.layout nth_error].
      rewrite nth_error_app1; [assumption|].
      apply nth_error_Some. congruence. }
    assert (Her : embedded sph arena (base + 1 + Z.of_nat (Tree.size l)) r).
    { split; [lia|]. intros j node Hj.
      replace (Z.to_nat (base + 1 + Z.of_nat (Tree.size l)) + j)%nat
        with (Z.to_nat base + S (Tree.size l + j))%nat by lia.
      apply Hemb. cbn [Tree.layout nth_error].
      rewrite nth_error_app2 by (rewrite layout_length; lia).
      rewrite layout_length.
      replace (Tree.size l + j - Tree.size l)%nat with j by lia.
      assumption. }
    destruct (IHl (base + 1) fuel t_max (tests + 1) Hel Hvl ltac:(lia))
      as (hl & kl & Hrl & Hkl & Hhl).
    rewrite Hrl. cbn [bind].
    destruct (IHr (base + 1 + Z.of_nat (Tree.size l)) fuel
                (match hl with
                 | Some rec_left => HitRecord.t_ rec_left
                 | None => t_max
                 end) (tests + 1 + kl) Her Hvr ltac:(lia))
      as (hr & kr & Hrr & Hkr & Hhr).
    rewrite Hrr. cbn [bind].
    exists (match hr with Some rec_right => Some rec_right | None => hl end),
      (1 + kl + kr).
    split; [|split].
    + destruct hr; f_equal; f_equal; lia.
    + cbn [Tree.size]. lia.
    + intros Hne. cbn [Tree.leaves].
      destruct hl as [rec_left|].
      * destruct (Hhl ltac:(discriminate)) as (si & s & Hin & Hs & Hhit).
        exists si, s. split; [apply in_or_app; now left | auto].
      * destruct hr as [rec_right|]; [|congruence].
        destruct (Hhr ltac:(discriminate)) as (si & s & Hin & Hs & Hhit).
        exists si, s. split; [apply in_or_app; now right | auto].
Qed.
End Traversal.


(** ** The slab test in exact arithmetic *)

Lemma Qltb_lt (a b : Q) : Qltb a b = true <-> (a < b)%Q.
Proof.
  unfold Qltb. rewrite negb_true_iff.
  destruct (Qle_bool b a) eqn:E.
  - apply Qle_bool_iff in E. split; [discriminate | lra].
  - split; [|reflexivity]. intros _.
    destruct (Qlt_le_dec a b) as [H|H]; [assumption|].
    apply Qle_bool_iff in H. congruence.
Qed.

Lemma Qltb_ge (a b : Q) : Qltb a b = false <-> (b <= a)%Q.
Proof.
  unfold Qltb. rewrite negb_false_iff. apply Qle_bool_iff.
Qed.

Lemma Qle_bool_gt (a b : Q) : Qle_bool a b = false <-> (b < a)%Q.
Proof.
  destruct (Qle_bool a b) eqn:E.
  - apply Qle_bool_iff in E. split; [discriminate | lra].
  - split; [|reflexivity]. intros _.
    destruct (Qlt_le_dec b a) as [H|H]; [assumption|].
    apply Qle_bool_iff in H. congruence.
Qed.

(** One axis of the slab test in exact arithmetic: the interval that is left
    is the part of the old one on which the coordinate of the ray lies
    between the two faces. *)
Lemma slab_axis (lo hi o d mn mx : Q) :
  ~ (d == 0)%Q ->
  let inv_d := (1 / d)%Q in
  let t0 := ((mn - o) * inv_d)%Q in
  let t1 := ((mx - o) * inv_d)%Q in
  let e := if Qltb inv_d 0 then t1 else t0 in
  let x := if Qltb inv_d 0 then t0 else t1 in
  forall t : Q,
    (std_max (A := exactQ) lo e < t /\ t < std_min (A := exactQ) hi x
     <-> lo < t /\ t < hi /\ mn < o + d * t /\ o + d * t < mx)%Q.
Proof.
  intros Hd inv_d t0 t1 e x t.
  assert (Hk : (d * inv_d == 1)%Q) by (subst inv_d; field; assumption).
  assert (Hmax : forall a b : Q,
             (std_max (A := exactQ) a b < t <-> a < t /\ b < t)%Q).
  { intros a b. unfold std_max. cbn [ltb exactQ].
    destruct (Qltb a b) eqn:E;
      [apply Qltb_lt in E | apply Qltb_ge in E]; intuition lra. }
  assert (Hmin : forall a b : Q,
             (t < std_min (A := exactQ) a b <-> t < a /\ t < b)%Q).
  { intros a b. unfold std_min. cbn [ltb exactQ].
    destruct (Qltb b a) eqn:E;
      [apply Qltb_lt in E | apply Qltb_ge in E]; intuition lra. }
  rewrite Hmax, Hmin. subst e x.
  assert (H0 : (t0 * d == mn - o)%Q).
  { subst t0. transitivity ((mn - o) * (d * inv_d))%Q; [ring|].
    rewrite Hk. ring. }
  assert (H1 : (t1 * d == mx - o)%Q).
  { subst t1. transitivity ((mx - o) * (d * inv_d))%Q; [ring|].
    rewrite Hk. ring. }
  clearbody t0 t1.
  destruct (Qltb inv_d 0) eqn:E; [apply Qltb_lt in E | apply Qltb_ge in E].
  - assert (Hdn : (d < 0)%Q) by nra.
    assert (G0 : (t1 < t <-> o + d * t < mx)%Q) by (split; intros H; nra).
    assert (G1 : (t < t0 <-> mn < o + d * t)%Q) by (split; intros H; nra).
    rewrite G0, G1. tauto.
  - assert (Hdn : (0 < d)%Q) by nra.
    assert (G0 : (t0 < t <-> mn < o + d * t)%Q) by (split; intros H; nra).
    assert (G1 : (t < t1 <-> o + d * t < mx)%Q) by (split; intros H; nra).
    rewrite G0, G1. tauto.
Qed.

Lemma slab_exact (b : AABB.t (A := exactQ)) (ray : Ray.t) (i : Z)
    (lo hi : Q) :
  ~ (Vec3.get (Ray.direction ray) i == 0)%Q ->
  match AABB.slab b ray i lo hi with
  | Some (lo', hi') =>
      forall t, (lo' < t /\ t < hi')%Q
                <-> (lo < t /\ t < hi)%Q /\ between b ray i t
  | None => forall t, ~ ((lo < t /\ t < hi)%Q /\ between b ray i t)
  end.
Proof.
  intros Hd. unfold AABB.slab, between.
  cbn [add sub mul div of_int ltb leb exactQ].
  change (inject_Z 1) with 1%Q. change (inject_Z 0) with 0%Q.
  pose proof (slab_axis lo hi (Vec3.get (Ray.origin ray) i)
                (Vec3.get (Ray.direction ray) i)
                (Vec3.get (AABB.min_pt b) i) (Vec3.get (AABB.max_pt b) i) Hd)
    as H.
  cbv zeta in H.
  destruct (Qltb (1 / Vec3.get (Ray.direction ray) i) 0);
    cbv beta iota zeta;
    match goal with
    | |- context [Qle_bool ?h ?l] => destruct (Qle_bool h l) eqn:E
    end;
    cbv beta iota zeta; intros t; specialize (H t);
    try tauto;
    apply Qle_bool_iff in E; intros Hc;
    match type of H with
    | ?L <-> _ => assert (X : L) by tauto
    end; lra.
Qed.

Lemma strictly_inside_between (b : AABB.t (A := exactQ)) (ray : Ray.t)
    (t : Q) :
  strictly_inside b (Ray.at_t ray t) = true
  <-> between b ray 0 t /\ between b ray 1 t /\ between b ray 2 t.
Proof.
  unfold strictly_inside, between, Ray.at_t, Vec3.add, Vec3.scale.
  cbn [Vec3.get Z.eqb Pos.eqb Vec3.x Vec3.y Vec3.z ltb add mul exactQ].
  rewrite !andb_true_iff, !Qltb_lt.
  destruct ray as [[ox oy oz] [dx dy dz]].
  cbn [Ray.origin Ray.direction Vec3.x Vec3.y Vec3.z].
  intuition lra.
Qed.

(** A ray strictly inside the box at a parameter strictly inside the
    interval passes the three slabs. *)
Lemma slab_test_accepts (b : AABB.t (A := exactQ)) (ray : Ray.t)
    (t_min t_max t : Q) :
  oblique ray -> (t_min < t)%Q -> (t < t_max)%Q ->
  strictly_inside b (Ray.at_t ray t) = true ->
  AABB.intersect b ray t_min t_max = true.
Proof.
  intros (Hx & Hy & Hz) H1 H2 Hi. apply strictly_inside_between in Hi.
  unfold AABB.intersect. cbn [AABB.intersect_from].
  pose proof (slab_exact b ray 0 t_min t_max Hx) as S0.
  destruct (AABB.slab b ray 0 t_min t_max) as [[lo1 hi1]|];
    [|exfalso; apply (S0 t); tauto].
  pose proof (slab_exact b ray 1 lo1 hi1 Hy) as S1.
  destruct (AABB.slab b ray 1 lo1 hi1) as [[lo2 hi2]|];
    [|exfalso; apply (S1 t); rewrite S0; tauto].
  pose proof (slab_exact b ray 2 lo2 hi2 Hz) as S2.
  destruct (AABB.slab b ray 2 lo2 hi2) as [[lo3 hi3]|];
    [reflexivity | exfalso; apply (S2 t); rewrite S1, S0; tauto].
Qed.

(** The interval a slab hands on is not empty. *)
Lemma slab_some_lt (b : AABB.t (A := exactQ)) (ray : Ray.t) (i : Z)
    (lo hi lo' hi' : Q) :
  AABB.slab b ray i lo hi = Some (lo', hi') -> (lo' < hi')%Q.
Proof.
  unfold AABB.slab. cbn [leb exactQ].
  destruct (if (_ <? _)%D then _ else _) as [u v].
  match goal with
  | |- (if Qle_bool ?h ?l then _ else _) = _ -> _ =>
      destruct (Qle_bool h l) eqn:E; [discriminate|];
      apply Qle_bool_gt in E; intros H; inversion H; subst; exact E
  end.
Qed.

(** X2.  In exact arithmetic, for a ray with no zero direction component, the
    slab test answers [true] exactly when the ray is strictly inside the box
    at some parameter strictly between [t_min] and [t_max]: a ray that only
    touches a face, or meets the box only at an end of the interval, is
    rejected. *)
Theorem slab_test_exact (b : AABB.t (A := exactQ)) (ray : Ray.t)
    (t_min t_max : Q) :
  oblique ray ->
  AABB.intersect b ray t_min t_max = true
  <-> exists t : Q, (t_min < t /\ t < t_max)%Q
                    /\ strictly_inside b (Ray.at_t ray t) = true.
Proof.
  intros Ho. split.
  - destruct Ho as (Hx & Hy & Hz).
    unfold AABB.intersect. cbn [AABB.intersect_from].
    pose proof (slab_exact b ray 0 t_min t_max Hx) as S0.
    destruct (AABB.slab b ray 0 t_min t_max) as [[lo1 hi1]|];
      [|discriminate].
    pose proof (slab_exact b ray 1 lo1 hi1 Hy) as S1.
    destruct (AABB.slab b ray 1 lo1 hi1) as [[lo2 hi2]|]; [|discriminate].
    pose proof (slab_exact b ray 2 lo2 hi2 Hz) as S2.
    destruct (AABB.slab b ray 2 lo2 hi2) as [[lo3 hi3]|] eqn:E3;
      [|discriminate].
    intros _. apply slab_some_lt in E3.
    exists ((lo3 + hi3) / 2)%Q.
    assert (Hm : (lo3 < (lo3 + hi3) / 2 /\ (lo3 + hi3) / 2 < hi3)%Q).
    { split; [apply Qlt_shift_div_l | apply Qlt_shift_div_r]; lra. }
    apply S2 in Hm. destruct Hm as [Hm B2]. apply S1 in Hm.
    destruct Hm as [Hm B1]. apply S0 in Hm. destruct Hm as [Hm B0].
    split; [assumption|]. apply strictly_inside_between. tauto.
  - intros (t & [H1 H2] & Hi). now apply (slab_test_accepts b ray t_min t_max t).
Qed.

Lemma slab_test_exact_witness :
  AABB.intersect (Ex.qbox 0 0 0 1 2 3) ExQ.qray 0%Q 10%Q = true
  <-> exists t : Q,
        (0 < t /\ t < 10)%Q
        /\ strictly_inside (Ex.qbox 0 0 0 1 2 3) (Ray.at_t ExQ.qray t) = true.
Proof.
  apply slab_test_exact. repeat split; vm_compute; discriminate.
Defined.

(** ** Spheres in exact arithmetic *)

Lemma square_nonneg (u : Q) : (0 <= u * u)%Q.
Proof. nra. Qed.

Lemma square_bound (u r : Q) :
  (0 <= r -> u * u <= r * r -> - r <= u /\ u <= r)%Q.
Proof. intros Hr H. split; nra. Qed.

Lemma square_bound_strict (u r : Q) :
  (0 <= r -> u * u < r * r -> - r < u /\ u < r)%Q.
Proof. intros Hr H. split; nra. Qed.

Lemma interior_strictly_inside (s : Sphere.t (A := exactQ)) (p : Vec3.t) :
  (0 <= Sphere.radius s)%Q ->
  (dist2 s p < Sphere.radius s * Sphere.radius s)%Q ->
  strictly_inside (Sphere.bounding_box s) p = true.
Proof.
  destruct s as [[cx cy cz] r m], p as [px py pz].
  unfold dist2, strictly_inside, Sphere.bounding_box, Vec3.dot, Vec3.sub,
    Vec3.add.
  cbn [Sphere.center Sphere.radius AABB.min_pt AABB.max_pt Vec3.x Vec3.y
       Vec3.z add sub mul ltb leb exactQ].
  intros Hr H. rewrite !andb_true_iff, !Qltb_lt.
  pose proof (square_nonneg (px - cx)). pose proof (square_nonneg (py - cy)).
  pose proof (square_nonneg (pz - cz)).
  destruct (square_bound_strict (px - cx) r Hr) as [? ?]; [lra|].
  destruct (square_bound_strict (py - cy) r Hr) as [? ?]; [lra|].
  destruct (square_bound_strict (pz - cz) r Hr) as [? ?]; [lra|].
  repeat split; lra.
Qed.

(** X3.  In exact arithmetic the box of a sphere with a radius that is not
    negative holds every point of the ball, and holds the points of its
    interior strictly inside. *)
Theorem bounding_box_encloses (s : Sphere.t (A := exactQ)) (p : Vec3.t) :
  (0 <= Sphere.radius s)%Q ->
  ((dist2 s p <= Sphere.radius s * Sphere.radius s)%Q ->
   inside (Sphere.bounding_box s) p = true)
  /\ ((dist2 s p < Sphere.radius s * Sphere.radius s)%Q ->
      strictly_inside (Sphere.bounding_box s) p = true).
Proof.
  intros Hr. split; [|now apply interior_strictly_inside].
  destruct s as [[cx cy cz] r m], p as [px py pz].
  unfold dist2, inside, Sphere.bounding_box, Vec3.dot, Vec3.sub, Vec3.add
    in *.
  cbn [Sphere.center Sphere.radius AABB.min_pt AABB.max_pt Vec3.x Vec3.y
       Vec3.z add sub mul ltb leb exactQ] in *.
  intros H. rewrite !andb_true_iff, !Qle_bool_iff.
  pose proof (square_nonneg (px - cx)). pose proof (square_nonneg (py - cy)).
  pose proof (square_nonneg (pz - cz)).
  destruct (square_bound (px - cx) r Hr) as [? ?]; [lra|].
  destruct (square_bound (py - cy) r Hr) as [? ?]; [lra|].
  destruct (square_bound (pz - cz) r Hr) as [? ?]; [lra|].
  repeat split; lra.
Qed.

Lemma bounding_box_encloses_witness :
  ((dist2 ExQ.qball (ExQ.qvec (1 # 2) (1 # 2) (1 # 2))
    <= Sphere.radius ExQ.qball * Sphere.radius ExQ.qball)%Q ->
   inside (Sphere.bounding_box ExQ.qball) (ExQ.qvec (1 # 2) (1 # 2) (1 # 2))
   = true)
  /\ ((dist2 ExQ.qball (ExQ.qvec (1 # 2) (1 # 2) (1 # 2))
       < Sphere.radius ExQ.qball * Sphere.radius ExQ.qball)%Q ->
      strictly_inside (Sphere.bounding_box ExQ.qball)
        (ExQ.qvec (1 # 2) (1 # 2) (1 # 2)) = true).
Proof.
  apply bounding_box_encloses. vm_compute. discriminate.
Defined.

(** X4.  In exact arithmetic the box test of a sphere never rejects a ray
    that is inside the open ball at a parameter strictly between [t_min] and
    [t_max]. *)
Theorem box_test_keeps_interior_hits (s : Sphere.t (A := exactQ))
    (ray : Ray.t) (t_min t_max t : Q) :
  oblique ray -> (0 <= Sphere.radius s)%Q ->
  (t_min < t)%Q -> (t < t_max)%Q ->
  (dist2 s (Ray.at_t ray t) < Sphere.radius s * Sphere.radius s)%Q ->
  AABB.intersect (Sphere.bounding_box s) ray t_min t_max = true.
Proof.
  intros Ho Hr H1 H2 Hd.
  apply (slab_test_accepts _ ray t_min t_max t); try assumption.
  now apply interior_strictly_inside.
Qed.

Lemma box_test_keeps_interior_hits_witness :
  AABB.intersect (Sphere.bounding_box ExQ.qball) ExQ.qray_in 0%Q 10%Q = true.
Proof.
  apply (box_test_keeps_interior_hits ExQ.qball ExQ.qray_in 0 10 1).
  - repeat split; vm_compute; discriminate.
  - vm_compute. discriminate.
  - reflexivity.
  - reflexivity.
  - vm_compute. reflexivity.
Defined.

(** A number [t] with [a * t = - half_b +- s], where [s * s] is the
    discriminant, is a root of the quadratic. *)
Lemma quadratic_root (a half_b c s t : Q) :
  ~ (a == 0)%Q -> (s * s == half_b * half_b - a * c)%Q ->
  (a * t == - half_b - s \/ a * t == - half_b + s)%Q ->
  (a * t * t + 2 * half_b * t + c == 0)%Q.
Proof.
  intros Ha Hs Ht.
  assert (H : (a * (a * t * t + 2 * half_b * t + c) == 0)%Q).
  { transitivity ((a * t + half_b) * (a * t + half_b)
                  - (half_b * half_b - a * c))%Q; [ring|].
    rewrite <- Hs. destruct Ht as [Ht|Ht]; rewrite Ht; ring. }
  apply Qmult_integral in H. tauto.
Qed.

Section SphereRoots.
Context {A : Arith} {SQ : Sqrt A}.

(** A reported hit is the record of one of the two candidates, the first
    one if it is accepted, and the candidate is accepted. *)
Lemma intersect_root (s : Sphere.t) (ray : Ray.t) (t_min t_max : D)
    (rec : HitRecord.t) :
  Sphere.intersect s ray t_min t_max = Some rec ->
  exists t,
    rec = Sphere.record s ray t /\ accepted t t_min t_max = true
    /\ (t = fst (roots s ray)
        \/ (t = snd (roots s ray)
            /\ accepted (fst (roots s ray)) t_min t_max = false)).
Proof.
  unfold Sphere.intersect, roots, accepted. cbn [fst snd].
  destruct (_ <? of_int 0)%D; [discriminate|].
  match goal with
  | |- (if ?b then _ else _) = _ -> _ => destruct b eqn:E1
  end.
  - match goal with
    | |- (if ?b then _ else _) = _ -> _ => destruct b eqn:E2
    end; [discriminate|].
    intros H. inversion H. eexists. split; [reflexivity|].
    rewrite E2. split; [reflexivity|]. right. split; reflexivity.
  - intros H. inversion H. eexists. split; [reflexivity|].
    rewrite E1. split; [reflexivity|]. left. reflexivity.
Qed.
End SphereRoots.

Section SphereHit.
Context {SQ : Sqrt exactQ}.

Lemma root_on_surface (s : Sphere.t (A := exactQ)) (ray : Ray.t) (t : Q) :
  ~ (Vec3.dot (Ray.direction ray) (Ray.direction ray) == 0)%Q ->
  (dsqrt (discriminant s ray) * dsqrt (discriminant s ray)
   == discriminant s ray)%Q ->
  t = fst (roots s ray) \/ t = snd (roots s ray) ->
  (dist2 s (Ray.at_t ray t) == Sphere.radius s * Sphere.radius s)%Q.
Proof.
  destruct s as [[cx cy cz] r m], ray as [[ox oy oz] [dx dy dz]].
  unfold roots, discriminant, dist2, Ray.at_t, Vec3.dot, Vec3.sub, Vec3.add,
    Vec3.scale.
  cbn [Sphere.center Sphere.radius Ray.origin Ray.direction Vec3.x Vec3.y
       Vec3.z add sub mul div opp exactQ fst snd].
  set (a := (dx * dx + dy * dy + dz * dz)%Q).
  set (hb := ((ox - cx) * dx + (oy - cy) * dy + (oz - cz) * dz)%Q).
  set (c := ((ox - cx) * (ox - cx) + (oy - cy) * (oy - cy)
             + (oz - cz) * (oz - cz) - r * r)%Q).
  generalize (dsqrt (A := exactQ) (hb * hb - a * c)%Q). intros sd Ha Hs Ht.
  assert (Hroot : (a * t == - hb - sd \/ a * t == - hb + sd)%Q).
  { destruct Ht as [-> | ->]; [left | right]; field; exact Ha. }
  pose proof (quadratic_root a hb c sd t Ha Hs Hroot) as Hq.
  transitivity (a * t * t + 2 * hb * t + c + r * r)%Q.
  - subst a hb c. ring.
  - rewrite Hq. ring.
Qed.

Lemma normal_against_ray (s : Sphere.t (A := exactQ)) (ray : Ray.t) (t : Q) :
  (Vec3.dot (Ray.direction ray) (HitRecord.normal (Sphere.record s ray t))
   <= 0)%Q.
Proof.
  unfold Sphere.record. cbn [HitRecord.normal].
  generalize (Vec3.div (Vec3.sub (Ray.at_t ray t) (Sphere.center s))
                       (Sphere.radius s)).
  intros [nx ny nz]. destruct (Ray.direction ray) as [dx dy dz].
  unfold Vec3.dot, Vec3.neg.
  cbn [Vec3.x Vec3.y Vec3.z add mul opp ltb of_int exactQ].
  change (inject_Z 0) with 0%Q.
  destruct (Qltb (dx * nx + dy * ny + dz * nz) 0) eqn:E;
    [apply Qltb_lt in E | apply Qltb_ge in E];
    cbn [Vec3.x Vec3.y Vec3.z]; lra.
Qed.

Lemma normal_unit (s : Sphere.t (A := exactQ)) (ray : Ray.t) (t : Q) :
  ~ (Sphere.radius s == 0)%Q ->
  (dist2 s (Ray.at_t ray t) == Sphere.radius s * Sphere.radius s)%Q ->
  (Vec3.dot (HitRecord.normal (Sphere.record s ray t))
            (HitRecord.normal (Sphere.record s ray t)) == 1)%Q.
Proof.
  unfold Sphere.record, dist2. cbn [HitRecord.normal].
  generalize (Vec3.sub (Ray.at_t ray t) (Sphere.center s)).
  intros [ux uy uz]. generalize (Sphere.radius s). intros r Hr.
  match goal with
  | |- context [if ?b then _ else _] => destruct b
  end;
    unfold Vec3.dot, Vec3.div, Vec3.neg;
    cbn [Vec3.x Vec3.y Vec3.z add mul div opp exactQ]; intros Hd.
  - transitivity ((ux * ux + uy * uy + uz * uz) / (r * r))%Q;
      [field; assumption|].
    rewrite Hd. field. assumption.
  - transitivity ((ux * ux + uy * uy + uz * uz) / (r * r))%Q;
      [field; assumption|].
    rewrite Hd. field. assumption.
Qed.

(** X5.  In exact arithmetic, when the direction of the ray is not zero and
    the square root is exact on the discriminant, a hit reported by
    [Sphere::intersect] has its parameter within [t_min, t_max], its point
    at that parameter on the ray and on the surface of the sphere, and the
    material of the sphere; its normal does not point along the ray, and
    has length one when the radius is not zero. *)
Theorem sphere_hit_on_surface (s : Sphere.t (A := exactQ)) (ray : Ray.t)
    (t_min t_max : Q) (rec : HitRecord.t) :
  ~ (Vec3.dot (Ray.direction ray) (Ray.direction ray) == 0)%Q ->
  (dsqrt (discriminant s ray) * dsqrt (discriminant s ray)
   == discriminant s ray)%Q ->
  Sphere.intersect s ray t_min t_max = Some rec ->
  (t_min <= HitRecord.t_ rec /\ HitRecord.t_ rec <= t_max)%Q
  /\ HitRecord.point rec = Ray.at_t ray (HitRecord.t_ rec)
  /\ HitRecord.mat rec = Sphere.mat s
  /\ (dist2 s (HitRecord.point rec) == Sphere.radius s * Sphere.radius s)%Q
  /\ (Vec3.dot (Ray.direction ray) (HitRecord.normal rec) <= 0)%Q
  /\ (~ (Sphere.radius s == 0)%Q ->
      (Vec3.dot (HitRecord.normal rec) (HitRecord.normal rec) == 1)%Q).
Proof.
  intros Ha Hs Hit.
  destruct (intersect_root s ray t_min t_max rec Hit)
    as (t & -> & Hacc & Hroot).
  assert (Hsurf : (dist2 s (Ray.at_t ray t)
                   == Sphere.radius s * Sphere.radius s)%Q)
    by (apply root_on_surface; tauto).
  unfold accepted in Hacc. apply negb_true_iff, orb_false_iff in Hacc.
  destruct Hacc as [H1 H2]. apply Qltb_ge in H1, H2.
  split; [split; assumption|].
  split; [reflexivity|]. split; [reflexivity|].
  split; [exact Hsurf|].
  split; [apply normal_against_ray|].
  intros Hr. now apply normal_unit.
Qed.
End SphereHit.

Lemma sphere_hit_on_surface_witness :
  let rec := Sphere.record ExQ.qball ExQ.qray_x 4%Q in
  (0 <= HitRecord.t_ rec /\ HitRecord.t_ rec <= 10)%Q
  /\ HitRecord.point rec = Ray.at_t ExQ.qray_x (HitRecord.t_ rec)
  /\ HitRecord.mat rec = Sphere.mat ExQ.qball
  /\ (dist2 ExQ.qball (HitRecord.point rec)
      == Sphere.radius ExQ.qball * Sphere.radius ExQ.qball)%Q
  /\ (Vec3.dot (Ray.direction ExQ.qray_x) (HitRecord.normal rec) <= 0)%Q
  /\ (~ (Sphere.radius ExQ.qball == 0)%Q ->
      (Vec3.dot (HitRecord.normal rec) (HitRecord.normal rec) == 1)%Q).
Proof.
  apply (@sphere_hit_on_surface ExQ.qsqrt ExQ.qball ExQ.qray_x 0%Q 10%Q).
  - vm_compute. discriminate.
  - vm_compute. reflexivity.
  - reflexivity.
Defined.

(** ** The exhaustive search *)

Section Brute.
Context {A : Arith} {SQ : Sqrt A} {SA : StdAlgo}.

(** [Sphere::intersect] through its two candidates. *)
Lemma intersect_by_roots (s : Sphere.t) (ray : Ray.t) (t_min t_max : D) :
  Sphere.intersect s ray t_min t_max =
  if (discriminant s ray <? of_int 0)%D then None
  else if accepted (fst (roots s ray)) t_min t_max
       then Some (Sphere.record s ray (fst (roots s ray)))
       else if accepted (snd (roots s ray)) t_min t_max
            then Some (Sphere.record s ray (snd (roots s ray)))
            else None.
Proof.
  unfold Sphere.intersect, roots, discriminant, accepted. cbn [fst snd].
  destruct (_ <? of_int 0)%D; [reflexivity|].
  match goal with
  | |- (if ?b then _ else _) = _ => destruct b
  end; cbn [negb]; [|reflexivity].
  match goal with
  | |- (if ?b then _ else _) = _ => destruct b
  end; reflexivity.
Qed.

Lemma brute_loop_none (sph : list Sphere.t) (ray : Ray.t) (t_min t_max : D) :
  Scene.brute_loop sph ray t_min t_max None = None
  <-> forall s, In s sph -> Sphere.intersect s ray t_min t_max = None.
Proof.
  induction sph as [|s0 rest IH]; cbn [Scene.brute_loop].
  - split; [intros _ s [] | reflexivity].
  - destruct (Sphere.intersect s0 ray t_min t_max) as [h|] eqn:E.
    + split.
      * intros H. exfalso. revert H. apply brute_loop_some.
      * intros H. specialize (H s0 (or_introl eq_refl)). congruence.
    + rewrite IH. split.
      * intros H s [<-|Hin]; auto.
      * intros H s Hin. apply H. now right.
Qed.

Lemma brute_loop_source (sph : list Sphere.t) (ray : Ray.t) (t_min : D) :
  forall (closest : D) (hit : option HitRecord.t) (rec : HitRecord.t),
    Scene.brute_loop sph ray t_min closest hit = Some rec ->
    hit = Some rec
    \/ exists s t, In s sph /\ rec = Sphere.record s ray t
                   /\ (t <? t_min)%D = false.
Proof.
  induction sph as [|s0 rest IH]; intros closest hit rec;
    cbn [Scene.brute_loop].
  - intros ->. now left.
  - destruct (Sphere.intersect s0 ray t_min closest) as [h|] eqn:E; intros H.
    + apply IH in H. destruct H as [H|(s & t & Hin & Hr & Ht)].
      * inversion H; subst h.
        destruct (intersect_root s0 ray t_min closest rec E)
          as (t & -> & Hacc & _).
        right. exists s0, t. split; [now left|]. split; [reflexivity|].
        unfold accepted in Hacc.
        apply negb_true_iff, orb_false_iff in Hacc. tauto.
      * right. exists s, t. split; [now right | auto].
    + apply IH in H. destruct H as [H|(s & t & Hin & Hr & Ht)];
        [now left|].
      right. exists s, t. split; [now right | auto].
Qed.

(** X6.  The exhaustive search reports a miss exactly when every sphere of the
    scene misses on the whole interval, and a hit it reports is the record
    of a sphere of the scene at a parameter that is not below [t_min]. *)
Theorem brute_force_classifies (sc : Scene.t) (ray : Ray.t)
    (t_min t_max : D) :
  (Scene.intersect_brute sc ray t_min t_max = None
   <-> forall s, In s (Scene.spheres sc) ->
                 Sphere.intersect s ray t_min t_max = None)
  /\ (forall rec,
         Scene.intersect_brute sc ray t_min t_max = Some rec ->
         exists s t, In s (Scene.spheres sc)
                     /\ rec = Sphere.record s ray t
                     /\ (t <? t_min)%D = false).
Proof.
  unfold Scene.intersect_brute. split.
  - apply brute_loop_none.
  - intros rec H. apply brute_loop_source in H.
    destruct H as [H|H]; [discriminate | exact H].
Qed.
End Brute.

Section BruteExact.
Context {SQ : Sqrt exactQ} {SA : StdAlgo}.

Lemma accepted_Q (t t_min t_max : Q) :
  accepted (A := exactQ) t t_min t_max = true <-> (t_min <= t /\ t <= t_max)%Q.
Proof.
  unfold accepted. cbn [ltb exactQ].
  rewrite negb_true_iff, orb_false_iff, !Qltb_ge. tauto.
Qed.

(** A smaller upper end changes the answer of a sphere only to an earlier
    parameter, or to a miss when its parameter lies beyond the new end. *)
Lemma intersect_shrink (s : Sphere.t (A := exactQ)) (ray : Ray.t)
    (t_min c t_max : Q) (r' : HitRecord.t) :
  (c <= t_max)%Q ->
  Sphere.intersect s ray t_min t_max = Some r' ->
  match Sphere.intersect s ray t_min c with
  | Some r => (HitRecord.t_ r <= HitRecord.t_ r')%Q
  | None => (c < HitRecord.t_ r')%Q
  end.
Proof.
  intros Hc. rewrite !intersect_by_roots.
  destruct (discriminant s ray <? of_int 0)%D; [discriminate|].
  generalize (fst (roots s ray)), (snd (roots s ray)). intros t1 t2.
  destruct (accepted t1 t_min t_max) eqn:E1;
    destruct (accepted t1 t_min c) eqn:E1c;
    destruct (accepted t2 t_min t_max) eqn:E2;
    destruct (accepted t2 t_min c) eqn:E2c;
    intros H; inversion H; subst r'; clear H;
    cbn [Sphere.record HitRecord.t_];
    repeat match goal with
    | H : accepted _ _ _ = true |- _ => apply accepted_Q in H
    | H : accepted ?t ?a ?b = false |- _ =>
        assert (~ (a <= t /\ t <= b)%Q)
          by (intros X; apply accepted_Q in X; congruence);
        clear H
    end; lra.
Qed.

Lemma brute_loop_nearest (sph : list (Sphere.t (A := exactQ))) (ray : Ray.t)
    (t_min t_max : Q) :
  forall (closest : Q) (hit : option HitRecord.t) (rec : HitRecord.t),
    (closest <= t_max)%Q ->
    (forall h, hit = Some h ->
               (t_min <= HitRecord.t_ h /\ HitRecord.t_ h <= closest)%Q) ->
    Scene.brute_loop sph ray t_min closest hit = Some rec ->
    (t_min <= HitRecord.t_ rec /\ HitRecord.t_ rec <= closest)%Q
    /\ forall s r', In s sph ->
                    Sphere.intersect s ray t_min t_max = Some r' ->
                    (HitRecord.t_ rec <= HitRecord.t_ r')%Q.
Proof.
  induction sph as [|s0 rest IH]; intros closest hit rec Hc Hh;
    cbn [Scene.brute_loop].
  - intros ->. split; [now apply Hh | intros s r' []].
  - pose proof (intersect_shrink s0 ray t_min closest t_max) as Hs.
    destruct (Sphere.intersect s0 ray t_min closest) as [h|] eqn:E; intros H.
    + destruct (intersect_root s0 ray t_min closest h E)
        as (t & -> & Hacc & _).
      apply accepted_Q in Hacc. cbn [Sphere.record HitRecord.t_] in *.
      apply IH in H.
      * destruct H as [[H1 H2] H3]. split; [split; lra|].
        intros s r' [<-|Hin] Hr'; [|now apply (H3 s)].
        specialize (Hs r' Hc Hr'). cbn [HitRecord.t_] in Hs. lra.
      * lra.
      * intros h' Hh'. inversion Hh'; subst h'.
        cbn [Sphere.record HitRecord.t_]. split; lra.
    + apply IH in H; [|assumption|assumption].
      destruct H as [[H1 H2] H3]. split; [split; lra|].
      intros s r' [<-|Hin] Hr'; [|now apply (H3 s)].
      specialize (Hs r' Hc Hr'). lra.
Qed.

(** X7.  In exact arithmetic the hit that the exhaustive search reports lies
    within [t_min, t_max] and is the nearest: no sphere of the scene, tested
    alone on the whole interval, is hit at a smaller parameter. *)
Theorem brute_force_nearest (sc : Scene.t (A := exactQ)) (ray : Ray.t)
    (t_min t_max : Q) (rec : HitRecord.t) :
  Scene.intersect_brute sc ray t_min t_max = Some rec ->
  (t_min <= HitRecord.t_ rec /\ HitRecord.t_ rec <= t_max)%Q
  /\ forall s r', In s (Scene.spheres sc) ->
                  Sphere.intersect s ray t_min t_max = Some r' ->
                  (HitRecord.t_ rec <= HitRecord.t_ r')%Q.
Proof.
  unfold Scene.intersect_brute. intros H.
  apply (brute_loop_nearest _ ray t_min t_max t_max None rec) in H.
  - exact H.
  - lra.
  - intros h Hh. discriminate.
Qed.
End BruteExact.

Lemma brute_force_nearest_witness :
  let sc := Scene.mk (A := exactQ)
              [ExQ.qball;
               Sphere.mk (ExQ.qvec (-3) 0 0) 1%Q (Sphere.mat ExQ.qball)]
              None in
  let rec := Sphere.record
               (Sphere.mk (ExQ.qvec (-3) 0 0) 1%Q (Sphere.mat ExQ.qball))
               ExQ.qray_x 1%Q in
  (0 <= HitRecord.t_ rec /\ HitRecord.t_ rec <= 10)%Q
  /\ forall s r', In s (Scene.spheres sc) ->
                  Sphere.intersect (SQ := ExQ.qsqrt) s ExQ.qray_x 0%Q 10%Q
                  = Some r' ->
                  (HitRecord.t_ rec <= HitRecord.t_ r')%Q.
Proof.
  apply (@brute_force_nearest ExQ.qsqrt). reflexivity.
Defined.

(** ** Containment of boxes *)

#[export] Instance binary64_leb : LebLaws binary64.
Proof. constructor. exact f_leb_nltb. Qed.

#[export] Instance exactQ_order : OrderLaws exactQ any_Q.
Proof.
  constructor; cbn [ltb leb of_int exactQ]; unfold any_Q.
  - intros x. apply Qltb_ge. lra.
  - intros x y z H1 H2. apply Qltb_lt in H1, H2. apply Qltb_lt. lra.
  - intros x y z _ H. apply Qltb_lt in H.
    destruct (Qlt_le_dec x y) as [H1|H1].
    + left. now apply Qltb_lt.
    + right. apply Qltb_lt. lra.
  - intros x y H. apply Qltb_lt in H. apply Qle_bool_iff. lra.
  - intros x y _ _ H. apply Qltb_ge in H. now apply Qle_bool_iff.
  - exact I.
Qed.

#[export] Instance exactQ_leb : LebLaws exactQ.
Proof.
  constructor. cbn [ltb leb exactQ]. intros x y H.
  apply Qle_bool_iff in H. now apply Qltb_ge.
Qed.

Section Containment.
Context {A : Arith} (ok : D -> Prop) (laws : OrderLaws A ok)
  (laws' : LebLaws A).
Local Open Scope D_scope.

Lemma leb_trans_ok (x y z : D) :
  ok x -> ok y -> ok z ->
  (x <=? y) = true -> (y <=? z) = true -> (x <=? z) = true.
Proof.
  intros Hx Hy Hz H1 H2.
  apply (nltb_leb (ok := ok)); try assumption.
  destruct (z <? x) eqn:E; [|reflexivity].
  destruct (ltb_between (ok := ok) z y x Hy E) as [H|H].
  - rewrite (leb_not_gt _ _ H2) in H. discriminate.
  - rewrite (leb_not_gt _ _ H1) in H. discriminate.
Qed.

Lemma contains_trans (a b c : AABB.t) :
  box_ok ok a -> box_ok ok b -> box_ok ok c ->
  contains a b = true -> contains b c = true -> contains a c = true.
Proof.
  destruct a as [[a1 a2 a3] [a4 a5 a6]], b as [[b1 b2 b3] [b4 b5 b6]],
    c as [[c1 c2 c3] [c4 c5 c6]].
  unfold box_ok, vec_ok, contains.
  cbn [AABB.min_pt AABB.max_pt Vec3.x Vec3.y Vec3.z].
  intros ((A1 & A2 & A3) & A4 & A5 & A6) ((B1 & B2 & B3) & B4 & B5 & B6)
    ((C1 & C2 & C3) & C4 & C5 & C6).
  rewrite !andb_true_iff.
  intros (((((H1 & H2) & H3) & H4) & H5) & H6)
    (((((G1 & G2) & G3) & G4) & G5) & G6).
  repeat split.
  - apply (leb_trans_ok a1 b1 c1); assumption.
  - apply (leb_trans_ok a2 b2 c2); assumption.
  - apply (leb_trans_ok a3 b3 c3); assumption.
  - apply (leb_trans_ok c4 b4 a4); assumption.
  - apply (leb_trans_ok c5 b5 a5); assumption.
  - apply (leb_trans_ok c6 b6 a6); assumption.
Qed.

(** A box that holds [a] and [b] holds their merge: every corner
    coordinate of the merge is the coordinate of [a] or of [b]. *)
Lemma merge_least (x a b : AABB.t) :
  contains x a = true -> contains x b = true ->
  contains x (AABB.merge a b) = true.
Proof.
  unfold contains, AABB.merge, std_min, std_max.
  cbn [AABB.min_pt AABB.max_pt Vec3.x Vec3.y Vec3.z].
  rewrite !andb_true_iff.
  intros (((((H1 & H2) & H3) & H4) & H5) & H6)
    (((((G1 & G2) & G3) & G4) & G5) & G6).
  repeat match goal with
         | |- context [if ?c then _ else _] => destruct c
         end; tauto.
Qed.

(** X8.  On boxes without NaN, [merge(a, b)] holds [a] and [b] and is held
    by every box that holds both; hence [merge(a, b)] and [merge(b, a)] hold
    each other, and so do the two ways of merging three boxes. *)
Theorem merge_is_least_upper_bound (a b c : AABB.t) :
  box_ok ok a -> box_ok ok b -> box_ok ok c ->
  (contains (AABB.merge a b) a = true /\ contains (AABB.merge a b) b = true)
  /\ (forall x, contains x a = true -> contains x b = true ->
                contains x (AABB.merge a b) = true)
  /\ contains (AABB.merge a b) (AABB.merge b a) = true
  /\ contains (AABB.merge (AABB.merge a b) c) (AABB.merge a (AABB.merge b c))
     = true
  /\ contains (AABB.merge a (AABB.merge b c)) (AABB.merge (AABB.merge a b) c)
     = true.
Proof.
  intros Ha Hb Hc.
  destruct (merge_contains ok laws a b Ha Hb) as (Hab & Ca & Cb).
  destruct (merge_contains ok laws b c Hb Hc) as (Hbc & Db & Dc).
  destruct (merge_contains ok laws (AABB.merge a b) c Hab Hc)
    as (Habc & E1 & E2).
  destruct (merge_contains ok laws a (AABB.merge b c) Ha Hbc)
    as (Habc' & F1 & F2).
  split; [split; assumption|].
  split; [intros x; apply merge_least|].
  split; [apply merge_least; assumption|].
  split.
  - apply merge_least.
    + apply (contains_trans _ (AABB.merge a b)); assumption.
    + apply merge_least; [|assumption].
      apply (contains_trans _ (AABB.merge a b)); assumption.
  - apply merge_least; [|apply (contains_trans _ (AABB.merge b c)); assumption].
    apply merge_least; [assumption|].
    apply (contains_trans _ (AABB.merge b c)); assumption.
Qed.

(** The box of a subtree holds the box of each of its spheres. *)
Lemma tree_box_contains (sph : list Sphere.t) (tr : Tree.t) :
  (forall si, In si (Tree.leaves tr) -> box_ok ok (Tree.sphere_box sph si)) ->
  forall si, In si (Tree.leaves tr) ->
             contains (Tree.box sph tr) (Tree.sphere_box sph si) = true.
Proof.
  induction tr as [sj|l IHl r IHr]; cbn [Tree.box Tree.leaves];
    intros Hok si Hin.
  - destruct Hin as [<-|[]].
    specialize (Hok sj (or_introl eq_refl)).
    destruct Hok as ((H1 & H2 & H3) & H4 & H5 & H6).
    unfold contains.
    rewrite !(leb_refl_ok ok laws) by assumption. reflexivity.
  - assert (Hl : box_ok ok (Tree.box sph l)).
    { apply (tree_box_ok ok laws). intros sj Hj. apply Hok, in_or_app.
      now left. }
    assert (Hr : box_ok ok (Tree.box sph r)).
    { apply (tree_box_ok ok laws). intros sj Hj. apply Hok, in_or_app.
      now right. }
    destruct (merge_contains ok laws _ _ Hl Hr) as (Hm & Cl & Cr).
    apply in_app_or in Hin. destruct Hin as [Hin|Hin].
    + apply (contains_trans _ (Tree.box sph l)); try assumption.
      * apply Hok, in_or_app. now left.
      * apply IHl; [|assumption]. intros sj Hj. apply Hok, in_or_app.
        now left.
    + apply (contains_trans _ (Tree.box sph r)); try assumption.
      * apply Hok, in_or_app. now right.
      * apply IHr; [|assumption]. intros sj Hj. apply Hok, in_or_app.
        now right.
Qed.
End Containment.

Section RootBox.
Context {A : Arith} {SA : StdAlgo} (ok : D -> Prop) (laws : OrderLaws A ok)
  (laws' : LebLaws A).

End RootBox.

Lemma merge_is_least_upper_bound_witness :
  contains (AABB.merge (Sphere.bounding_box Ex.unit_ball)
                       (Sphere.bounding_box Ex.far_ball))
           (AABB.merge (Sphere.bounding_box Ex.far_ball)
                       (Sphere.bounding_box Ex.unit_ball)) = true.
Proof.
  refine (proj1 (proj2 (proj2
    (@merge_is_least_upper_bound binary64 not_nan binary64_order binary64_leb
       (Sphere.bounding_box Ex.unit_ball) (Sphere.bounding_box Ex.far_ball)
       (Sphere.bounding_box Ex.unit_ball) _ _ _))));
    repeat split; unfold not_nan; vm_compute; discriminate.
Defined.


(** ** The split and the recursion of the construction *)

Section SplitProper.
Context {A : Arith} {SA : StdAlgo}.



(** X11.  On an empty range the recursion of [build] never ends: whatever
    the fuel, the model runs out of it.  The guard of the constructor on an
    empty scene is what keeps [build] off that range. *)
Theorem build_empty_range_diverges (spec : StdAlgoSpec SA)
    (sph : list Sphere.t) (fuel : nat) :
  forall (nodes : list BVHNode.t) (indices : list Z) (start : Z),
    0 <= start <= Z.of_nat (length indices) ->
    BVH.build fuel sph nodes indices start start = OutOfFuel.
Proof.
  induction fuel as [|fuel IH]; intros nodes indices start Hs;
    [reflexivity|].
  cbn [BVH.build].
  replace (start - start) with 0 by lia. cbn [Z.eqb].
  replace (start <? start) with false by (symmetry; apply Z.ltb_ge; lia).
  cbn [bind BVH.centroid_bounds].
  unfold BVH.sah_split. replace (start - start) with 0 by lia.
  cbn [Z.leb Z.compare].
  rewrite get_range_ok by lia. cbn [bind].
  assert (Hr : range indices start start = []).
  { unfold range. replace (start - start) with 0 by lia. reflexivity. }
  rewrite Hr.
  assert (Hsort : forall cmp, std_sort cmp [] = []).
  { intros cmp. apply Permutation_nil. apply sort_perm. }
  rewrite Hsort.
  assert (Hsp : splice indices start start [] = indices).
  { unfold splice. cbn [app]. apply firstn_skipn. }
  rewrite Hsp. change (Z.quot 0 2) with 0. rewrite Z.add_0_r.
  rewrite IH by assumption. reflexivity.
Qed.
End SplitProper.


Lemma build_empty_range_diverges_witness :
  BVH.build (A := binary64) (SA := ref_algo) 1000 Ex.three [] [0; 1; 2] 1 1
  = OutOfFuel.
Proof.
  apply (@build_empty_range_diverges binary64 ref_algo ref_algo_spec
           Ex.three 1000).
  cbn. lia.
Defined.

(** ** The path tracer *)

Section Tracer.
Context {A : Arith} {SQ : Sqrt A} {P : Pow A} {R : Rng A} {SA : StdAlgo}.

(** X12.  With [use_bvh] false, [ray_color] never reads the hierarchy and
    never counts a test: the result does not depend on the [bvh] pointer of
    the scene, and [total_tests] comes back as it went in.  With [use_bvh]
    true on a scene whose hierarchy was never built, a call at a positive
    depth dereferences the null pointer. *)
Theorem brute_mode_counts_nothing (fuel inner : nat) :
  forall (ray : Ray.t) (sph : list Sphere.t) (b b' : option BVH.t)
         (depth : Z) (g : rng_t) (total : Z),
    ray_color fuel inner ray (Scene.mk sph b) depth false (g, total)
    = ray_color fuel inner ray (Scene.mk sph b') depth false (g, total)
    /\ match ray_color fuel inner ray (Scene.mk sph b) depth false (g, total)
       with
       | Ret (_, (_, total')) => total' = total
       | _ => True
       end
    /\ (0 < depth ->
        ray_color (S fuel) inner ray (Scene.mk sph None) depth true (g, total)
        = Undef).
Proof.
  assert (Hnull : forall f ray sph depth g total,
             0 < depth ->
             ray_color (S f) inner ray (Scene.mk sph None) depth true
               (g, total) = Undef).
  { intros f ray sph depth g total Hd. cbn [ray_color].
    replace (depth <=? 0) with false by (symmetry; apply Z.leb_gt; lia).
    reflexivity. }
  enough (H : forall (ray : Ray.t) (sph : list Sphere.t)
                     (b b' : option BVH.t) (depth : Z) (g : rng_t)
                     (total : Z),
             ray_color fuel inner ray (Scene.mk sph b) depth false (g, total)
             = ray_color fuel inner ray (Scene.mk sph b') depth false
                 (g, total)
             /\ match ray_color fuel inner ray (Scene.mk sph b) depth false
                        (g, total)
                with
                | Ret (_, (_, total')) => total' = total
                | _ => True
                end).
  { intros ray sph b b' depth g total.
    destruct (H ray sph b b' depth g total) as [H1 H2].
    split; [exact H1|]. split; [exact H2 | apply Hnull]. }
  clear Hnull.
  induction fuel as [|fuel IH]; intros ray sph b b' depth g total.
  - cbn [ray_color]. destruct (depth <=? 0); split; reflexivity || exact I.
  - cbn [ray_color]. destruct (depth <=? 0); [split; reflexivity|].
    cbn [bind]. unfold Scene.intersect_brute. cbn [Scene.spheres].
    rewrite Z.add_0_r.
    destruct (Scene.brute_loop sph ray c_0p001 c_1e10 None) as [rec|];
      [|split; reflexivity].
    destruct (Material.type (HitRecord.mat rec)).
    + destruct (rand_unit_vec inner g) as [[v g']| |]; cbn [bind];
        [|split; [reflexivity | exact I] ..].
      match goal with
      | |- context [ray_color fuel inner ?r (Scene.mk sph b) ?d false ?st] =>
          destruct (IH r sph b b' d g' total) as [E T]
      end.
      rewrite <- E. split; [reflexivity|].
      match goal with
      | |- context [ray_color fuel inner ?r (Scene.mk sph b) ?d false ?st] =>
          destruct (ray_color fuel inner r (Scene.mk sph b) d false st)
            as [[c [g2 t2]]| |]
      end; cbn [bind]; auto.
    + destruct (rand_in_unit_sphere inner g) as [[p g']| |]; cbn [bind];
        [|split; [reflexivity | exact I] ..].
      match goal with
      | |- context [if ?c then _ else _] => destruct c
      end; [split; reflexivity|].
      match goal with
      | |- context [ray_color fuel inner ?r (Scene.mk sph b) ?d false ?st] =>
          destruct (IH r sph b b' d g' total) as [E T]
      end.
      rewrite <- E. split; [reflexivity|].
      match goal with
      | |- context [ray_color fuel inner ?r (Scene.mk sph b) ?d false ?st] =>
          destruct (ray_color fuel inner r (Scene.mk sph b) d false st)
            as [[c [g2 t2]]| |]
      end; cbn [bind]; auto.
    + destruct (glass_direction ray rec g) as [direction g'].
      match goal with
      | |- context [ray_color fuel inner ?r (Scene.mk sph b) ?d false ?st] =>
          destruct (IH r sph b b' d g' total) as [E T]
      end.
      rewrite <- E. split; [reflexivity|].
      match goal with
      | |- context [ray_color fuel inner ?r (Scene.mk sph b) ?d false ?st] =>
          destruct (ray_color fuel inner r (Scene.mk sph b) d false st)
            as [[c [g2 t2]]| |]
      end; cbn [bind]; auto.
Qed.

End Tracer.

(** ** Reflection and reflectance in exact arithmetic *)

Section Optics.
Context {SQ : Sqrt exactQ} {R : Rng exactQ} {SA : StdAlgo}.

(** X13.  In exact arithmetic, about a normal of length one, [reflect] keeps
    the length of the vector and turns its component along the normal
    around. *)
Theorem reflect_mirrors (v n : Vec3.t (A := exactQ)) :
  (Vec3.dot n n == 1)%Q ->
  (Vec3.dot (reflect v n) (reflect v n) == Vec3.dot v v)%Q
  /\ (Vec3.dot (reflect v n) n == - Vec3.dot v n)%Q.
Proof.
  destruct v as [vx vy vz], n as [nx ny nz].
  unfold reflect, Vec3.dot, Vec3.sub, Vec3.scale.
  cbn [Vec3.x Vec3.y Vec3.z add sub mul of_int exactQ].
  change (inject_Z 2) with 2%Q. intros Hn.
  set (k := (vx * nx + vy * ny + vz * nz)%Q).
  split.
  - transitivity (vx * vx + vy * vy + vz * vz
                  + 4 * k * k * (nx * nx + ny * ny + nz * nz - 1))%Q;
      [subst k; ring|].
    rewrite Hn. ring.
  - transitivity (- k - 2 * k * (nx * nx + ny * ny + nz * nz - 1))%Q;
      [subst k; ring|].
    rewrite Hn. ring.
Qed.

Lemma fifth_power_unit (x : Q) :
  (0 <= x -> x <= 1 -> 0 <= x ^ 5 /\ x ^ 5 <= 1)%Q.
Proof.
  intros H0 H1.
  assert (E : (x ^ 5 == x * (x * x) * (x * x))%Q) by (cbn; ring).
  rewrite E.
  assert (H2 : (0 <= x * x /\ x * x <= 1)%Q) by (split; nra).
  destruct H2 as [H2 H3].
  assert (H4 : (0 <= (x * x) * (x * x) /\ (x * x) * (x * x) <= 1)%Q)
    by (split; nra).
  destruct H4 as [H4 H5]. split; nra.
Qed.

(** X14.  In exact arithmetic, for a refraction ratio that is not negative
    and a cosine between 0 and 1, the reflectance [schlick] computes lies
    between its value at normal incidence, [((1-ior)/(1+ior))^2], and 1: it
    is a probability. *)
Theorem schlick_is_probability (cosine ior : Q) :
  (0 <= ior)%Q -> (0 <= cosine)%Q -> (cosine <= 1)%Q ->
  let r0 := ((1 - ior) / (1 + ior) * ((1 - ior) / (1 + ior)))%Q in
  (0 <= r0 /\ r0 <= schlick (A := exactQ) cosine ior
   /\ schlick (A := exactQ) cosine ior <= 1)%Q.
Proof.
  intros Hi H0 H1 r0. unfold schlick.
  cbn [add sub mul div of_int exactQ]. change (inject_Z 1) with 1%Q.
  fold r0. unfold dpow, exactQ_pow.
  destruct (fifth_power_unit (1 - cosine)) as [P0 P1]; [lra | lra |].
  set (p := ((1 - cosine) ^ 5)%Q) in *.
  set (q := ((1 - ior) / (1 + ior))%Q) in *.
  assert (Hq : (q * (1 + ior) == 1 - ior)%Q) by (subst q; field; lra).
  assert (Hq1 : (- 1 <= q /\ q <= 1)%Q) by (split; nra).
  assert (Hr : (0 <= r0 /\ r0 <= 1)%Q) by (subst r0; split; nra).
  destruct Hr as [Hr0 Hr1]. clearbody r0 p.
  repeat split; nra.
Qed.

(** The cosine between two vectors of length one is at most one. *)
Lemma unit_dot_le_1 (ux uy uz nx ny nz : Q) :
  (ux * ux + uy * uy + uz * uz == 1 -> nx * nx + ny * ny + nz * nz == 1 ->
   - (ux * nx + uy * ny + uz * nz) <= 1)%Q.
Proof.
  intros Hu Hn.
  pose proof (square_nonneg (ux + nx)). pose proof (square_nonneg (uy + ny)).
  pose proof (square_nonneg (uz + nz)). lra.
Qed.

(** X15.  In exact arithmetic, for a direction and a normal of length one,
    when the perpendicular part is no longer than one (there is no total
    internal reflection) and the square root is exact on what is left,
    [refract] returns a direction of length one. *)
Theorem refract_keeps_unit_length (uv n : Vec3.t (A := exactQ))
    (etai_over_etat : Q) :
  let cos_theta := std_min (A := exactQ) (Vec3.dot (Vec3.neg uv) n) 1%Q in
  let r_out_perp :=
    Vec3.scale (Vec3.add uv (Vec3.scale n cos_theta)) etai_over_etat in
  let rest := Qabs (1 - Vec3.dot r_out_perp r_out_perp) in
  (Vec3.dot uv uv == 1)%Q -> (Vec3.dot n n == 1)%Q ->
  (Vec3.dot r_out_perp r_out_perp <= 1)%Q ->
  (dsqrt rest * dsqrt rest == rest)%Q ->
  (Vec3.dot (refract uv n etai_over_etat) (refract uv n etai_over_etat)
   == 1)%Q.
Proof.
  cbv zeta. destruct uv as [ux uy uz], n as [nx ny nz].
  unfold refract, Vec3.dot, Vec3.neg, Vec3.add, Vec3.scale.
  cbn [Vec3.x Vec3.y Vec3.z add sub mul opp dabs of_int exactQ].
  change (inject_Z 1) with 1%Q.
  set (cos_theta := std_min (A := exactQ)
                      (- ux * nx + - uy * ny + - uz * nz)%Q 1%Q).
  set (px := ((ux + nx * cos_theta) * etai_over_etat)%Q).
  set (py := ((uy + ny * cos_theta) * etai_over_etat)%Q).
  set (pz := ((uz + nz * cos_theta) * etai_over_etat)%Q).
  set (rest := Qabs (1 - (px * px + py * py + pz * pz))).
  set (sd := dsqrt (A := exactQ) rest).
  intros Hu Hn Hp Hs.
  assert (Hc : (cos_theta == - (ux * nx + uy * ny + uz * nz))%Q).
  { subst cos_theta. unfold std_min. cbn [ltb exactQ].
    pose proof (unit_dot_le_1 ux uy uz nx ny nz Hu Hn) as Hle.
    destruct (Qltb 1 (- ux * nx + - uy * ny + - uz * nz)) eqn:E;
      [apply Qltb_lt in E; lra | ring]. }
  assert (Hr : (rest == 1 - (px * px + py * py + pz * pz))%Q).
  { subst rest. apply Qabs_pos. lra. }
  assert (Hperp : (px * nx + py * ny + pz * nz == 0)%Q).
  { subst px py pz.
    transitivity (etai_over_etat
                  * ((ux * nx + uy * ny + uz * nz)
                     + cos_theta * (nx * nx + ny * ny + nz * nz)))%Q;
      [ring|].
    rewrite Hn, Hc. ring. }
  transitivity ((px * px + py * py + pz * pz)
                - 2 * sd * (px * nx + py * ny + pz * nz)
                + sd * sd * (nx * nx + ny * ny + nz * nz))%Q; [ring|].
  rewrite Hperp, Hn, Hs, Hr. ring.
Qed.
End Optics.

Lemma reflect_mirrors_witness :
  (Vec3.dot (reflect (ExQ.qvec 1 (-2) 3) (ExQ.qvec 0 1 0))
            (reflect (ExQ.qvec 1 (-2) 3) (ExQ.qvec 0 1 0))
   == Vec3.dot (ExQ.qvec 1 (-2) 3) (ExQ.qvec 1 (-2) 3))%Q
  /\ (Vec3.dot (reflect (ExQ.qvec 1 (-2) 3) (ExQ.qvec 0 1 0))
               (ExQ.qvec 0 1 0)
      == - Vec3.dot (ExQ.qvec 1 (-2) 3) (ExQ.qvec 0 1 0))%Q.
Proof.
  apply reflect_mirrors. vm_compute. reflexivity.
Defined.

Lemma schlick_is_probability_witness :
  (0 <= (1 - (3 # 2)) / (1 + (3 # 2)) * ((1 - (3 # 2)) / (1 + (3 # 2)))
   /\ (1 - (3 # 2)) / (1 + (3 # 2)) * ((1 - (3 # 2)) / (1 + (3 # 2)))
      <= schlick (A := exactQ) (1 # 2) (3 # 2)
   /\ schlick (A := exactQ) (1 # 2) (3 # 2) <= 1)%Q.
Proof.
  apply (schlick_is_probability (1 # 2) (3 # 2)); vm_compute; discriminate.
Defined.

Lemma refract_keeps_unit_length_witness :
  (Vec3.dot (refract (SQ := ExQ.qsqrt) (ExQ.qvec (3 # 5) (- (4 # 5)) 0)
               (ExQ.qvec 0 1 0) 1)
            (refract (SQ := ExQ.qsqrt) (ExQ.qvec (3 # 5) (- (4 # 5)) 0)
               (ExQ.qvec 0 1 0) 1)
   == 1)%Q.
Proof.
  apply (@refract_keeps_unit_length ExQ.qsqrt
           (ExQ.qvec (3 # 5) (- (4 # 5)) 0) (ExQ.qvec 0 1 0) 1%Q);
    vm_compute; reflexivity || discriminate.
Defined.

(** ** Images *)

Lemma at_set_nth_same {T : Type} (v : list T) (n : nat) (a : T) :
  (n < length v)%nat -> nth_error (set_nth v n a) n = Some a.
Proof.
  revert n. induction v as [|b v IH]; intros [|n] H; cbn in *; try lia.
  - reflexivity.
  - apply IH. lia.
Qed.

Lemma at_set_nth_other {T : Type} (v : list T) (n m : nat) (a : T) :
  n <> m -> nth_error (set_nth v n a) m = nth_error v m.
Proof.
  revert n m. induction v as [|b v IH]; intros [|n] [|m] H; cbn;
    try reflexivity; try congruence.
  apply IH. congruence.
Qed.

Lemma set_nth_length {T : Type} (v : list T) (n : nat) (a : T) :
  length (set_nth v n a) = length v.
Proof.
  revert n. induction v as [|b v IH]; intros [|n]; cbn; auto.
Qed.

Section ImageFacts.
Context {A : Arith}.

Lemma index_in_range (img : Image.t) (x y : Z) :
  image_ok img -> 0 <= x < Image.width img -> 0 <= y < Image.height img ->
  Image.index img x y = Ret (y * Image.width img + x)
  /\ 0 <= y * Image.width img + x < Z.of_nat (length (Image.pixels img)).
Proof.
  intros (Hw & Hh & Hmax & Hlen) Hx Hy. unfold Image.index, Image.in_int.
  assert (H1 : 0 <= y * Image.width img) by nia.
  assert (H2 : y * Image.width img + x
               < Image.width img * Image.height img) by nia.
  unfold INT_MIN, INT_MAX in *.
  replace (- 2 ^ 31 <=? y * Image.width img) with true
    by (symmetry; apply Z.leb_le; lia).
  replace (y * Image.width img <=? 2 ^ 31 - 1) with true
    by (symmetry; apply Z.leb_le; lia).
  replace (- 2 ^ 31 <=? y * Image.width img + x) with true
    by (symmetry; apply Z.leb_le; lia).
  replace (y * Image.width img + x <=? 2 ^ 31 - 1) with true
    by (symmetry; apply Z.leb_le; lia).
  cbn [andb]. split; [reflexivity | lia].
Qed.

(** X16.  On an image whose pixel vector has [width * height] entries, a
    write at a position inside the image succeeds, keeps the image well
    formed, is read back at the same position, and leaves the pixel at
    every other position inside the image as it was. *)
Theorem image_write_then_read (img : Image.t) (x y : Z) (c : Vec3.t) :
  image_ok img -> 0 <= x < Image.width img -> 0 <= y < Image.height img ->
  exists img',
    Image.set img x y c = Ret img'
    /\ image_ok img'
    /\ Image.width img' = Image.width img
    /\ Image.height img' = Image.height img
    /\ Image.get img' x y = Ret c
    /\ forall x' y',
         0 <= x' < Image.width img -> 0 <= y' < Image.height img ->
         (x', y') <> (x, y) ->
         Image.get img' x' y' = Image.get img x' y'.
Proof.
  intros Hok Hx Hy.
  destruct (index_in_range img x y Hok Hx Hy) as [Hi Hr].
  unfold Image.set. rewrite Hi. cbn [bind]. unfold store.
  replace (0 <=? y * Image.width img + x) with true
    by (symmetry; apply Z.leb_le; lia).
  replace (y * Image.width img + x <? Z.of_nat (length (Image.pixels img)))
    with true by (symmetry; apply Z.ltb_lt; lia).
  cbn [andb bind]. eexists. split; [reflexivity|].
  set (img' := Image.mk _ _ _).
  assert (Hok' : image_ok img').
  { destruct Hok as (Hw & Hh & Hmax & Hlen). unfold image_ok, img'.
    cbn [Image.width Image.height Image.pixels].
    rewrite set_nth_length. auto. }
  split; [exact Hok'|]. split; [reflexivity|]. split; [reflexivity|].
  split.
  - destruct (index_in_range img' x y Hok' Hx Hy) as [Hi' _].
    unfold Image.get. rewrite Hi'. cbn [bind].
    change (Image.width img') with (Image.width img).
    apply at_Ret_nth. split; [lia|]. unfold img'.
    cbn [Image.pixels]. apply at_set_nth_same. lia.
  - intros x' y' Hx' Hy' Hne.
    destruct (index_in_range img' x' y' Hok' Hx' Hy') as [Hi' _].
    destruct (index_in_range img x' y' Hok Hx' Hy') as [Hi'' Hr''].
    unfold Image.get. rewrite Hi', Hi''. cbn [bind].
    change (Image.width img') with (Image.width img). unfold img'.
    cbn [Image.pixels]. unfold at_.
    destruct (y' * Image.width img + x' <? 0); [reflexivity|].
    rewrite at_set_nth_other; [reflexivity|].
    intros E.
    assert (E' : y * Image.width img + x = y' * Image.width img + x')
      by lia.
    assert (Hd : forall a b, 0 <= b < Image.width img ->
                   (a * Image.width img + b) / Image.width img = a).
    { intros a b Hb. rewrite Z.div_add_l by lia.
      rewrite Z.div_small by lia. lia. }
    assert (y = y') by (rewrite <- (Hd y x Hx), <- (Hd y' x' Hx'); congruence).
    subst y'. assert (x = x') by lia. subst x'.
    congruence.
Qed.

(** X17.  [Image(w, h)] gives an image exactly when [w * h] is a
    non-negative [int]; the image is then black at every position, and
    [at] does not check the column: one past the end of a row is the first
    pixel of the next row. *)
Theorem image_make_black (w h : Z) :
  (Image.make w h = None <-> w * h < 0 \/ INT_MAX < w * h)
  /\ forall img,
       Image.make w h = Some img ->
       Image.width img = w /\ Image.height img = h
       /\ Z.of_nat (length (Image.pixels img)) = w * h
       /\ (forall x y, 0 <= x < w -> 0 <= y < h ->
                       Image.get img x y = Ret Vec3.zero)
       /\ (forall y, 0 < w -> 0 <= y -> y + 1 < h ->
                     Image.get img w y = Image.get img 0 (y + 1)).
Proof.
  unfold Image.make. split.
  - destruct (0 <=? w * h) eqn:E1; destruct (w * h <=? INT_MAX) eqn:E2;
      cbn [andb]; split; intros H; try discriminate; try reflexivity;
      try lia.
  - intros img.
    destruct ((0 <=? w * h) && (w * h <=? INT_MAX)) eqn:E; [|discriminate].
    apply andb_true_iff in E. destruct E as [E1 E2].
    apply Z.leb_le in E1, E2. intros H. inversion H; subst img; clear H.
    cbn [Image.width Image.height Image.pixels].
    rewrite repeat_length.
    split; [reflexivity|]. split; [reflexivity|]. split; [lia|].
    split.
    + intros x y Hx Hy.
      set (img := Image.mk w h (repeat Vec3.zero (Z.to_nat (w * h)))).
      assert (Hok : image_ok img).
      { unfold image_ok, img. cbn [Image.width Image.height Image.pixels].
        rewrite repeat_length. repeat split; lia. }
      destruct (index_in_range img x y Hok Hx Hy) as [Hi Hr].
      unfold Image.get. rewrite Hi. cbn [bind].
      apply at_Ret_nth. split; [lia|]. unfold img. cbn [Image.pixels].
      apply nth_error_repeat. unfold img in Hr. cbn [Image.pixels] in Hr.
      rewrite repeat_length in Hr. cbn [Image.width] in *. lia.
    + intros y Hw Hy0 Hy1. unfold Image.get, Image.index, Image.in_int.
      cbn [Image.width Image.pixels].
      assert (0 <= y * w) by nia.
      assert ((y + 1) * w < w * h) by nia.
      replace ((y + 1) * w + 0) with (y * w + w) by ring.
      unfold INT_MIN, INT_MAX in *.
      replace (- 2 ^ 31 <=? y * w) with true
        by (symmetry; apply Z.leb_le; lia).
      replace (y * w <=? 2 ^ 31 - 1) with true
        by (symmetry; apply Z.leb_le; lia).
      replace (- 2 ^ 31 <=? y * w + w) with true
        by (symmetry; apply Z.leb_le; lia).
      replace (y * w + w <=? 2 ^ 31 - 1) with true
        by (symmetry; apply Z.leb_le; lia).
      replace (- 2 ^ 31 <=? (y + 1) * w) with true
        by (symmetry; apply Z.leb_le; lia).
      replace ((y + 1) * w <=? 2 ^ 31 - 1) with true
        by (symmetry; apply Z.leb_le; lia).
      reflexivity.
Qed.
End ImageFacts.

Lemma image_write_then_read_witness :
  exists img',
    Image.set (A := binary64)
      (Image.mk 2 2 (repeat (Vec3.zero (A := binary64)) 4)) 1 0
      (Ex.vec 1 1 1) = Ret img'
    /\ image_ok img'
    /\ Image.width img' = 2
    /\ Image.height img' = 2
    /\ Image.get img' 1 0 = Ret (Ex.vec 1 1 1)
    /\ forall x' y',
         0 <= x' < 2 -> 0 <= y' < 2 -> (x', y') <> (1, 0) ->
         Image.get img' x' y'
         = Image.get (Image.mk 2 2 (repeat (Vec3.zero (A := binary64)) 4))
             x' y'.
Proof.
  apply (@image_write_then_read binary64
           (Image.mk 2 2 (repeat (Vec3.zero (A := binary64)) 4)) 1 0
           (Ex.vec 1 1 1)).
  - unfold image_ok, INT_MAX. cbn. lia.
  - cbn. lia.
  - cbn. lia.
Defined.

(** ** The bytes of a channel *)

Lemma f_leb_ltb_trans (x y z : float) :
  PrimFloat.leb x y = true -> PrimFloat.ltb y z = true ->
  PrimFloat.ltb x z = true.
Proof.
  intros H1 H2. apply leb_key in H1. apply ltb_key in H2.
  destruct H1 as (a & b & Ha & Hb & Hab).
  destruct H2 as (b' & c & Hb' & Hc & Hbc).
  rewrite Hb in Hb'. inversion Hb'; subst b'.
  apply ltb_key. exists a, c. split; [assumption|]. split; [assumption|].
  destruct Hab as [Hab| ->]; [|assumption].
  exact (key_lt_trans _ _ _ Hab Hbc).
Qed.

(** X18.  On binary64, a channel that is zero or negative is written as the
    byte 0; a channel that is not below one -- one or more, infinite, or a
    NaN, which [std::min(1.0, p)] replaces by 1.0 -- is written as the byte
    255. *)
Theorem channel_saturates (p : float) :
  (PrimFloat.leb p 0 = true -> Image.channel (A := binary64) p = Ret 0)
  /\ (PrimFloat.ltb p 1 = false -> Image.channel (A := binary64) p = Ret 255)
  /\ (PrimFloat.leb 1 p = true -> PrimFloat.ltb p 1 = false)
  /\ (fkey p = None -> PrimFloat.ltb p 1 = false).
Proof.
  split; [|split; [|split]].
  - intros H. unfold Image.channel, std_min, std_max.
    cbn [ltb mul of_int binary64].
    change (float_of_int 1) with 1%float.
    change (float_of_int 0) with 0%float.
    rewrite (f_leb_ltb_trans p 0 1 H eq_refl).
    rewrite (f_leb_nltb p 0 H). reflexivity.
  - intros H. unfold Image.channel, std_min, std_max.
    cbn [ltb mul of_int binary64].
    change (float_of_int 1) with 1%float.
    change (float_of_int 0) with 0%float.
    rewrite H. reflexivity.
  - apply f_leb_nltb.
  - intros H. destruct (PrimFloat.ltb p 1) eqn:E; [|reflexivity].
    apply ltb_key in E. destruct E as (a & b & Ha & _). congruence.
Qed.

(** ** The camera in exact arithmetic *)

Section CameraFacts.
Context {SQ : Sqrt exactQ} {T : Trig exactQ} {R : Rng exactQ}.

Lemma cross_orthogonal (a b : Vec3.t (A := exactQ)) :
  (Vec3.dot (Vec3.cross a b) a == 0)%Q
  /\ (Vec3.dot (Vec3.cross a b) b == 0)%Q.
Proof.
  destruct a as [ax ay az], b as [bx byy bz].
  unfold Vec3.dot, Vec3.cross.
  cbn [Vec3.x Vec3.y Vec3.z add sub mul exactQ]. split; ring.
Qed.

Lemma dot_div_l (a b : Vec3.t (A := exactQ)) (k : Q) :
  (Vec3.dot (Vec3.div a k) b == Vec3.dot a b / k)%Q.
Proof.
  destruct a as [ax ay az], b as [bx byy bz].
  unfold Vec3.dot, Vec3.div.
  cbn [Vec3.x Vec3.y Vec3.z add mul div exactQ].
  unfold Qdiv. ring.
Qed.

Lemma dot_comm (a b : Vec3.t (A := exactQ)) :
  (Vec3.dot a b == Vec3.dot b a)%Q.
Proof.
  destruct a as [ax ay az], b as [bx byy bz].
  unfold Vec3.dot. cbn [Vec3.x Vec3.y Vec3.z add mul exactQ]. ring.
Qed.

(** Lagrange: the squared length of a cross product. *)
Lemma cross_norm2 (a b : Vec3.t (A := exactQ)) :
  (norm2 (Vec3.cross a b)
   == norm2 a * norm2 b - Vec3.dot a b * Vec3.dot a b)%Q.
Proof.
  destruct a as [ax ay az], b as [bx byy bz].
  unfold norm2, Vec3.dot, Vec3.cross.
  cbn [Vec3.x Vec3.y Vec3.z add sub mul exactQ]. ring.
Qed.

Lemma normalize_unit (a : Vec3.t (A := exactQ)) :
  ~ (norm2 a == 0)%Q -> sqrt_exact_at (norm2 a) ->
  (norm2 (Vec3.normalize a) == 1)%Q.
Proof.
  unfold sqrt_exact_at, Vec3.normalize, Vec3.length, norm2.
  destruct a as [ax ay az]. unfold Vec3.dot, Vec3.div.
  cbn [Vec3.x Vec3.y Vec3.z add mul div exactQ].
  set (n := (ax * ax + ay * ay + az * az)%Q).
  generalize (dsqrt (A := exactQ) n). intros l Hn Hl.
  assert (Hl0 : ~ (l == 0)%Q).
  { intros E. apply Hn. rewrite <- Hl, E. ring. }
  transitivity (n / (l * l))%Q; [subst n; field; assumption|].
  rewrite Hl. field. assumption.
Qed.

Lemma axes_from_view (vup w : Vec3.t (A := exactQ)) :
  let u := Vec3.normalize (Vec3.cross vup w) in
  let v := Vec3.cross w u in
  ((Vec3.dot u w == 0)%Q /\ (Vec3.dot v w == 0)%Q
   /\ (Vec3.dot v u == 0)%Q)
  /\ ((norm2 w == 1)%Q ->
      ~ (norm2 (Vec3.cross vup w) == 0)%Q ->
      sqrt_exact_at (norm2 (Vec3.cross vup w)) ->
      (norm2 u == 1)%Q /\ (norm2 v == 1)%Q).
Proof.
  cbv zeta.
  assert (Huw : (Vec3.dot (Vec3.normalize (Vec3.cross vup w)) w == 0)%Q).
  { unfold Vec3.normalize. rewrite dot_div_l.
    rewrite (proj2 (cross_orthogonal vup w)). unfold Qdiv. ring. }
  split; [split; [exact Huw | split]|].
  - apply cross_orthogonal.
  - apply cross_orthogonal.
  - intros Hw1 Hs Hse.
    assert (Hu1 : (norm2 (Vec3.normalize (Vec3.cross vup w)) == 1)%Q)
      by (apply normalize_unit; assumption).
    split; [exact Hu1|].
    rewrite cross_norm2, Hw1, Hu1,
      (dot_comm w (Vec3.normalize (Vec3.cross vup w))), Huw.
    ring.
Qed.

(** X19.  In exact arithmetic the three axes [u], [v], [w] that the camera
    constructor computes are orthogonal to each other, whatever the square
    root returns; when the viewing direction and [vup x w] are not zero and
    the square root is exact on their squared lengths, each axis has length
    one.  The camera sits at [look_from] and its lens radius is half the
    aperture. *)
Theorem camera_axes_orthonormal (look_from look_at vup : Vec3.t (A := exactQ))
    (vfov aspect aperture focus_dist : Q) :
  let cam := Camera.make look_from look_at vup vfov aspect aperture
               focus_dist in
  let view := Vec3.sub look_from look_at in
  let side := Vec3.cross vup (Vec3.normalize view) in
  ((Vec3.dot (Camera.u cam) (Camera.w cam) == 0)%Q
   /\ (Vec3.dot (Camera.v cam) (Camera.w cam) == 0)%Q
   /\ (Vec3.dot (Camera.v cam) (Camera.u cam) == 0)%Q)
  /\ Camera.origin cam = look_from
  /\ Camera.lens_radius cam = (aperture / 2)%Q
  /\ (~ (norm2 view == 0)%Q -> sqrt_exact_at (norm2 view) ->
      ~ (norm2 side == 0)%Q -> sqrt_exact_at (norm2 side) ->
      (norm2 (Camera.u cam) == 1)%Q /\ (norm2 (Camera.v cam) == 1)%Q
      /\ (norm2 (Camera.w cam) == 1)%Q).
Proof.
  cbv zeta. unfold Camera.make.
  cbn [Camera.u Camera.v Camera.w Camera.origin Camera.lens_radius].
  destruct (axes_from_view vup
              (Vec3.normalize (Vec3.sub look_from look_at))) as [Ho Hn].
  split; [exact Ho|]. split; [reflexivity|]. split; [reflexivity|].
  intros Hv Hve Hs Hse.
  assert (Hw1 : (norm2 (Vec3.normalize (Vec3.sub look_from look_at))
                 == 1)%Q) by (apply normalize_unit; assumption).
  destruct (Hn Hw1 Hs Hse) as [Hu1 Hv1].
  split; [exact Hu1|]. split; [exact Hv1 | exact Hw1].
Qed.

(** X20.  In exact arithmetic, a camera built with aperture zero is a
    pinhole: every ray that [get_ray] returns starts at [look_from], and its
    direction is the normalized vector
    [(s - 1/2) horizontal + (t - 1/2) vertical - focus_dist w]. *)
Theorem camera_pinhole_ray (look_from look_at vup : Vec3.t (A := exactQ))
    (vfov aspect focus_dist s t : Q) (spin : nat) (g : rng_t) :
  let cam := Camera.make look_from look_at vup vfov aspect 0%Q focus_dist in
  match Camera.get_ray spin cam s t g with
  | Ret (ray, _) =>
      veq (Ray.origin ray) look_from
      /\ exists toward,
           Ray.direction ray = Vec3.normalize toward
           /\ veq toward
                (Vec3.sub
                   (Vec3.add
                      (Vec3.scale (Camera.horizontal cam) (s - (1 # 2))%Q)
                      (Vec3.scale (Camera.vertical cam) (t - (1 # 2))%Q))
                   (Vec3.scale (Camera.w cam) focus_dist))
  | _ => True
  end.
Proof.
  cbv zeta. unfold Camera.get_ray.
  destruct (rand_in_unit_sphere spin g) as [[p g']| |]; [|exact I ..].
  cbn [bind]. cbn [Ray.origin Ray.direction].
  unfold Camera.make.
  cbn [Camera.u Camera.v Camera.w Camera.origin Camera.lens_radius
       Camera.horizontal Camera.vertical Camera.lower_left].
  generalize (Vec3.normalize (Vec3.sub look_from look_at)). intros w.
  generalize (Vec3.normalize (Vec3.cross vup w)). intros u.
  generalize (Vec3.cross w u). intros v.
  match goal with
  | |- context [dtan ?x] => generalize (dtan x)
  end. intros h.
  split.
  - destruct look_from as [ox oy oz], u as [ux uy uz], v as [vx vy vz],
      p as [px py pz].
    unfold veq, Vec3.add, Vec3.scale.
    cbn [Vec3.x Vec3.y Vec3.z add mul div of_int exactQ].
    change (inject_Z 2) with 2%Q. repeat split; field.
  - eexists. split; [reflexivity|].
    destruct look_from as [ox oy oz], u as [ux uy uz], v as [vx vy vz],
      w as [wx wy wz], p as [px py pz].
    unfold veq, Vec3.add, Vec3.sub, Vec3.scale.
    cbn [Vec3.x Vec3.y Vec3.z add sub mul div of_int c_0p5 exactQ].
    change (inject_Z 2) with 2%Q. repeat split; field.
Qed.

(** X21.  In exact arithmetic the centroid of a box lies inside the box when
    [min <= max] on every axis, and the centroid of the box of a sphere is
    the centre of the sphere. *)
Theorem centroid_inside (b : AABB.t (A := exactQ)) (s : Sphere.t) :
  (ordered b = true -> inside b (AABB.centroid b) = true)
  /\ veq (AABB.centroid (Sphere.bounding_box s)) (Sphere.center s).
Proof.
  split.
  - destruct b as [[x0 y0 z0] [x1 y1 z1]].
    unfold ordered, inside, AABB.centroid, Vec3.add, Vec3.scale.
    cbn [AABB.min_pt AABB.max_pt Vec3.x Vec3.y Vec3.z add mul leb c_0p5
         exactQ].
    rewrite !andb_true_iff, !Qle_bool_iff. intros [[Hx Hy] Hz].
    repeat split; lra.
  - destruct s as [[cx cy cz] r m].
    unfold veq, AABB.centroid, Sphere.bounding_box, Vec3.add, Vec3.sub,
      Vec3.scale.
    cbn [AABB.min_pt AABB.max_pt Sphere.center Sphere.radius Vec3.x Vec3.y
         Vec3.z add sub mul c_0p5 exactQ].
    repeat split; field.
Qed.
End CameraFacts.

Lemma camera_axes_orthonormal_witness :
  (norm2 (Camera.u (ExQ.qcam 1)) == 1)%Q
  /\ (norm2 (Camera.v (ExQ.qcam 1)) == 1)%Q
  /\ (norm2 (Camera.w (ExQ.qcam 1)) == 1)%Q.
Proof.
  apply (@camera_axes_orthonormal ExQ.qsqrt ExQ.qtrig
           (ExQ.qvec 0 0 5) (ExQ.qvec 0 0 0) (ExQ.qvec 0 1 0) 90%Q 1%Q 1%Q
           5%Q).
  - vm_compute. discriminate.
  - vm_compute. reflexivity.
  - vm_compute. discriminate.
  - vm_compute. reflexivity.
Defined.

Lemma camera_pinhole_ray_witness :
  exists ray g',
    Camera.get_ray (SQ := ExQ.qsqrt) (R := ExQ.qlcg) 16 (ExQ.qcam 0)
      (1 # 4)%Q (3 # 4)%Q (7%Z : rng_t (Rng := ExQ.qlcg))
    = Ret (ray, g')
    /\ veq (Ray.origin ray) (ExQ.qvec 0 0 5).
Proof.
  pose proof (@camera_pinhole_ray ExQ.qsqrt ExQ.qtrig ExQ.qlcg
                (ExQ.qvec 0 0 5) (ExQ.qvec 0 0 0) (ExQ.qvec 0 1 0) 90%Q 1%Q
                5%Q (1 # 4)%Q (3 # 4)%Q 16%nat 7%Z) as H.
  cbv zeta in H. fold (ExQ.qcam 0) in H.
  assert (Hret : Ex.returned
                   (Camera.get_ray (SQ := ExQ.qsqrt) (R := ExQ.qlcg) 16
                      (ExQ.qcam 0) (1 # 4)%Q (3 # 4)%Q
                      (7%Z : rng_t (Rng := ExQ.qlcg))) = true)
    by (vm_compute; reflexivity).
  destruct (Camera.get_ray 16 (ExQ.qcam 0) (1 # 4)%Q (3 # 4)%Q
              (7%Z : rng_t (Rng := ExQ.qlcg)))
    as [[ray g']| |]; [|discriminate Hret ..].
  exists ray, g'. split; [reflexivity|exact (proj1 H)].
Defined.

(** ** The generated scene *)

Section SceneGenFacts.
Context {A : Arith} {SQ : Sqrt A} {L : Literals A} {R : Rng A}
  {SA : StdAlgo}.

Lemma random_material_kind (g : rng_t) :
  let m := fst (random_material g) in
  match Material.type m with
  | Material.DIFFUSE =>
      Material.roughness m = of_int 0 /\ Material.ior m = of_int 0
  | Material.METAL => Material.ior m = of_int 0
  | Material.GLASS =>
      Material.ior m = c_1p5
      /\ Material.albedo m = Vec3.mk (of_int 1) (of_int 1) (of_int 1)
  end.
Proof.
  unfold random_material.
  destruct (rand01 g) as [mat_choice g1].
  destruct (mat_choice <? c_0p7)%D.
  - destruct (rand01 g1) as [a1 g2]. destruct (rand01 g2) as [a2 g3].
    destruct (rand01 g3) as [a3 g4]. destruct (rand01 g4) as [a4 g5].
    destruct (rand01 g5) as [a5 g6]. destruct (rand01 g6) as [a6 g7].
    cbn. split; reflexivity.
  - destruct (mat_choice <? c_0p9)%D.
    + destruct (rand01 g1) as [a1 g2]. destruct (rand01 g2) as [a2 g3].
      destruct (rand01 g3) as [a3 g4]. destruct (rand01 g4) as [a4 g5].
      cbn. reflexivity.
    + cbn. split; reflexivity.
Qed.

Lemma place_shape (budget : nat) (num_spheres : Z) :
  forall (placed : Z) (g : rng_t) (spheres : list Sphere.t),
    exists extra,
      place budget num_spheres placed g spheres = spheres ++ extra
      /\ Forall small_sphere extra
      /\ Z.of_nat (length extra) <= Z.max 0 (num_spheres - placed)
      /\ (length extra <= budget)%nat.
Proof.
  induction budget as [|budget IH]; intros placed g spheres;
    cbn [place].
  - exists []. rewrite app_nil_r.
    split; [reflexivity|]. split; [constructor|]. split; cbn; lia.
  - destruct (placed <? num_spheres) eqn:E.
    2:{ exists []. rewrite app_nil_r.
        split; [reflexivity|]. split; [constructor|]. split; cbn; lia. }
    apply Z.ltb_lt in E.
    destruct (rand01 g) as [u1 g1]. destruct (rand01 g1) as [u2 g2].
    destruct (clear_of _ big_centers) eqn:Hc.
    + pose proof (random_material_kind g2) as Hk.
      destruct (random_material g2) as [mat g3]. cbn [fst] in Hk.
      match goal with
      | |- context [spheres ++ [?s]] =>
          destruct (IH (placed + 1) g3 (spheres ++ [s]))
            as (extra & He & Hs & Hn & Hb);
          exists (s :: extra)
      end.
      rewrite He, <- app_assoc. cbn [app].
      split; [reflexivity|]. split.
      * constructor; [|exact Hs].
        unfold small_sphere. cbn [Sphere.radius Sphere.center Sphere.mat
                                   Vec3.y].
        split; [reflexivity|]. split; [reflexivity|].
        split; [exact Hc | exact Hk].
      * cbn [length]. split; lia.
    + destruct (IH placed g2 spheres) as (extra & He & Hs & Hn & Hb).
      exists extra. split; [exact He|]. split; [exact Hs|]. split; lia.
Qed.

(** X22.  For a request of [num_spheres] spheres whose tenfold fits [int],
    [generate_scene] returns a scene that starts with the ground and the
    three large spheres, followed by at most [num_spheres] small spheres
    (none for a request that is not positive); each small sphere has radius
    0.2, its centre at height 0.2 and outside the distance 1.2 of the centre
    of every large sphere, and a material built by one of the three
    constructors; the hierarchy of the scene is not built. *)
Theorem generate_scene_shape (num_spheres : Z) (g : rng_t) :
  num_spheres * 10 <= INT_MAX ->
  exists small,
    generate_scene num_spheres g
    = Ret (Scene.mk (fixed_spheres ++ small) None)
    /\ Forall small_sphere small
    /\ Z.of_nat (length small) <= Z.max 0 num_spheres
    /\ length (fixed_spheres ++ small) = (4 + length small)%nat.
Proof.
  intros Hmax. unfold generate_scene.
  replace (INT_MAX <? num_spheres * 10) with false
    by (symmetry; apply Z.ltb_ge; lia).
  rewrite andb_false_r.
  destruct (place_shape (Z.to_nat (num_spheres * 10)) num_spheres 0 g
              fixed_spheres) as (small & He & Hs & Hn & _).
  exists small. rewrite He. split; [reflexivity|].
  split; [exact Hs|]. split; [lia|].
  rewrite length_app. reflexivity.
Qed.

End SceneGenFacts.

Lemma generate_scene_shape_witness :
  exists small,
    generate_scene (A := binary64) 5 (12345 : rng_t (Rng := example_rng))
    = Ret (Scene.mk (fixed_spheres ++ small) None)
    /\ Forall small_sphere small
    /\ Z.of_nat (length small) <= Z.max 0 5
    /\ length (fixed_spheres (A := binary64) ++ small)
       = (4 + length small)%nat.
Proof.
  apply (@generate_scene_shape binary64 binary64_sqrt binary64_literals
           example_rng 5 12345).
  unfold INT_MAX. lia.
Defined.


(** ** Rendering *)

Lemma for_range_inv {St : Type} (Inv : Z -> St -> Prop)
    (body : Z -> St -> res St) :
  (forall i st, Inv i st ->
                match body i st with
                | Ret st' => Inv (i + 1) st'
                | _ => True
                end) ->
  forall (n : nat) (i : Z) (st : St),
    Inv i st ->
    match for_range n i body st with
    | Ret st' => Inv (i + Z.of_nat n) st'
    | _ => True
    end.
Proof.
  intros Hbody. induction n as [|n IH]; intros i st Hi; cbn [for_range].
  - now rewrite Z.add_0_r.
  - specialize (Hbody i st Hi).
    destruct (body i st) as [st'| |]; cbn [bind]; [|exact I|exact I].
    specialize (IH (i + 1) st' Hbody).
    destruct (for_range n (i + 1) body st'); [|exact I|exact I].
    replace (i + Z.of_nat (S n)) with (i + 1 + Z.of_nat n) by lia.
    exact IH.
Qed.

Lemma for_inv {St : Type} (Inv : Z -> St -> Prop) (body : Z -> St -> res St)
    (hi : Z) (st : St) :
  (forall i st, Inv i st ->
                match body i st with
                | Ret st' => Inv (i + 1) st'
                | _ => True
                end) ->
  Inv 0 st ->
  match for_ 0 hi body st with
  | Ret st' => Inv (Z.max 0 hi) st'
  | _ => True
  end.
Proof.
  intros Hbody H0. unfold for_.
  pose proof (for_range_inv Inv body Hbody (Z.to_nat (hi - 0)) 0 st H0) as H.
  destruct (for_range _ 0 body st); [|exact I|exact I].
  replace (Z.max 0 hi) with (0 + Z.of_nat (Z.to_nat (hi - 0))) by lia.
  exact H.
Qed.

Section RenderFacts.
Context {A : Arith} {SQ : Sqrt A} {P : Pow A} {T : Trig A} {R : Rng A}
  {SA : StdAlgo}.

(** Without the hierarchy no test is counted. *)
Lemma ray_color_brute_total (fuel inner : nat) :
  forall (ray : Ray.t) (scene : Scene.t) (depth : Z) (g : rng_t)
         (total : Z),
    match ray_color fuel inner ray scene depth false (g, total) with
    | Ret (_, (_, total')) => total' = total
    | _ => True
    end.
Proof.
  induction fuel as [|fuel IH]; intros ray scene depth g total;
    cbn [ray_color]; (destruct (depth <=? 0); [reflexivity|]);
    [exact I|].
  cbn [bind]. rewrite Z.add_0_r.
  destruct (Scene.intersect_brute scene ray c_0p001 c_1e10) as [rec|];
    [|reflexivity].
  destruct (Material.type (HitRecord.mat rec)).
  - destruct (rand_unit_vec inner g) as [[v g']| |]; cbn [bind];
      [|exact I ..].
    match goal with
    | |- context [ray_color fuel inner ?r scene ?d false (g', total)] =>
        specialize (IH r scene d g' total);
        destruct (ray_color fuel inner r scene d false (g', total))
          as [[c [g2 t2]]| |]
    end; cbn [bind]; auto.
  - destruct (rand_in_unit_sphere inner g) as [[p g']| |]; cbn [bind];
      [|exact I ..].
    match goal with
    | |- context [if ?c then _ else _] => destruct c
    end; [reflexivity|].
    match goal with
    | |- context [ray_color fuel inner ?r scene ?d false (g', total)] =>
        specialize (IH r scene d g' total);
        destruct (ray_color fuel inner r scene d false (g', total))
          as [[c [g2 t2]]| |]
    end; cbn [bind]; auto.
  - destruct (glass_direction ray rec g) as [direction g'].
    match goal with
    | |- context [ray_color fuel inner ?r scene ?d false (g', total)] =>
        specialize (IH r scene d g' total);
        destruct (ray_color fuel inner r scene d false (g', total))
          as [[c [g2 t2]]| |]
    end; cbn [bind]; auto.
Qed.

Lemma sample_counts (fuel inner : nat) (img : Image.t) (scene : Scene.t)
    (cam : Camera.t) (max_depth : Z) (use_bvh : bool) (x y : Z)
    (color : Vec3.t) (g : rng_t) (tt tr : Z) :
  match sample fuel inner img scene cam max_depth use_bvh x y
          (color, g, tt, tr) with
  | Ret (_, _, tt', tr') =>
      tr' = tr + 1 /\ (use_bvh = false -> tt' = tt)
  | _ => True
  end.
Proof.
  unfold sample.
  destruct (rand01 g) as [r1 g1]. destruct (rand01 g1) as [r2 g2].
  destruct (Camera.get_ray inner cam _ _ g2) as [[ray g3]| |];
    cbn [bind]; [|exact I ..].
  pose proof (ray_color_brute_total fuel inner ray scene max_depth g3 0)
    as Hb.
  destruct use_bvh.
  - destruct (ray_color fuel inner ray scene max_depth true (g3, 0))
      as [[c [g4 tests]]| |]; cbn [bind]; [|exact I ..].
    destruct (in_llong _ && in_llong _); [|exact I].
    split; [reflexivity | discriminate].
  - destruct (ray_color fuel inner ray scene max_depth false (g3, 0))
      as [[c [g4 tests]]| |]; cbn [bind]; [|exact I ..].
    destruct (in_llong _ && in_llong _); [|exact I].
    subst tests. split; [reflexivity | intros _; lia].
Qed.

Lemma pixel_counts (fuel inner : nat) (scene : Scene.t) (cam : Camera.t)
    (samples max_depth : Z) (use_bvh : bool) (y x : Z) (img0 : Image.t)
    (tests0 rays : Z) (st : Image.t * rng_t * Z * Z) :
  render_inv use_bvh img0 tests0 rays st ->
  match pixel fuel inner scene cam samples max_depth use_bvh y x st with
  | Ret st' =>
      render_inv use_bvh img0 tests0 (rays + Z.max 0 samples) st'
  | _ => True
  end.
Proof.
  destruct st as [[[img g] tt] tr]. unfold render_inv.
  intros (Hw & Hh & Hl & Hr & Ht). unfold pixel.
  pose proof
    (for_inv
       (fun s (st : Vec3.t * rng_t * Z * Z) =>
          let '(_, _, tt', tr') := st in
          tr' = tr + s /\ (use_bvh = false -> tt' = tt))
       (fun _ => sample fuel inner img scene cam max_depth use_bvh x y)
       samples (Vec3.zero, g, tt, tr)) as Hloop.
  cbv beta in Hloop.
  match type of Hloop with
  | ?H1 -> ?H2 -> _ =>
      assert (G1 : H1); [|assert (G2 : H2); [|specialize (Hloop G1 G2)]]
  end.
  { intros s [[[c g'] tt'] tr'] [E1 E2].
    pose proof (sample_counts fuel inner img scene cam max_depth use_bvh
                  x y c g' tt' tr') as Hs.
    destruct (sample _ _ _ _ _ _ _ _ _ _) as [[[[c2 g2] tt2] tr2]| |];
      [|exact I ..].
    destruct Hs as [Hs1 Hs2]. split; [lia|].
    intros Hb. rewrite (Hs2 Hb). auto. }
  { split; [lia | auto]. }
  destruct (for_ 0 samples _ _) as [[[[color g'] tt'] tr']| |];
    cbn [bind]; [|exact I ..].
  destruct Hloop as [E1 E2].
  unfold Image.set.
  destruct (Image.index img x (Image.height img - 1 - y)) as [i| |];
    cbn [bind]; [|exact I ..].
  unfold store.
  destruct ((0 <=? i) && (i <? Z.of_nat (length (Image.pixels img))));
    cbn [bind]; [|exact I].
  cbn [Image.width Image.height Image.pixels].
  rewrite set_nth_length.
  split; [assumption|]. split; [assumption|]. split; [assumption|].
  split; [lia|]. intros Hb. rewrite (E2 Hb). auto.
Qed.

(** X24.  When [render] returns, it has traced
    [height * width * samples] rays (a dimension or a sample count that is
    negative counts as zero), the image has the dimensions and the number
    of pixels it came with, and [tests_per_ray] is the quotient of the two
    counters as doubles; without the hierarchy the count of tests is
    zero. *)
Theorem render_counts (fuel inner : nat) (img : Image.t) (scene : Scene.t)
    (cam : Camera.t) (samples max_depth : Z) (use_bvh : bool) (g : rng_t) :
  match render fuel inner img scene cam samples max_depth use_bvh g with
  | Ret (img', stats, _) =>
      RenderStats.total_rays stats
      = Z.max 0 (Image.height img) * (Z.max 0 (Image.width img)
                                      * Z.max 0 samples)
      /\ Image.width img' = Image.width img
      /\ Image.height img' = Image.height img
      /\ length (Image.pixels img') = length (Image.pixels img)
      /\ RenderStats.tests_per_ray stats
         = (of_int (RenderStats.total_tests stats)
            / of_int (RenderStats.total_rays stats))%D
      /\ (use_bvh = false -> RenderStats.total_tests stats = 0)
  | _ => True
  end.
Proof.
  unfold render.
  set (row := Z.max 0 (Image.width img) * Z.max 0 samples).
  pose proof
    (for_inv
       (fun y st => render_inv use_bvh img 0 (y * row) st)
       (fun y st =>
          for_ 0 (Image.width (fst (fst (fst st))))
            (pixel fuel inner scene cam samples max_depth use_bvh y) st)
       (Image.height img) (img, g, 0, 0)) as Hloop.
  cbv beta in Hloop.
  match type of Hloop with
  | ?H1 -> ?H2 -> _ =>
      assert (G1 : H1); [|assert (G2 : H2); [|specialize (Hloop G1 G2)]]
  end.
  { intros y st Hst.
    assert (Hw : Image.width (fst (fst (fst st))) = Image.width img).
    { destruct st as [[[i1 g1] t1] r1]. unfold render_inv in Hst.
      cbn [fst]. tauto. }
    rewrite Hw.
    pose proof
      (for_inv
         (fun x st' =>
            render_inv use_bvh img 0 (y * row + x * Z.max 0 samples) st')
         (pixel fuel inner scene cam samples max_depth use_bvh y)
         (Image.width img) st) as Hrow.
    cbv beta in Hrow.
    match type of Hrow with
    | ?H1 -> ?H2 -> _ =>
        assert (K1 : H1); [|assert (K2 : H2); [|specialize (Hrow K1 K2)]]
    end.
    { intros x st' Hst'.
      pose proof (pixel_counts fuel inner scene cam samples max_depth
                    use_bvh y x img 0 _ st' Hst') as Hp.
      destruct (pixel _ _ _ _ _ _ _ _ _ _) as [st''| |]; [|exact I ..].
      replace (y * row + (x + 1) * Z.max 0 samples)
        with (y * row + x * Z.max 0 samples + Z.max 0 samples) by ring.
      exact Hp. }
    { replace (y * row + 0 * Z.max 0 samples) with (y * row) by ring.
      exact Hst. }
    destruct (for_ 0 (Image.width img) _ st) as [st''| |]; [|exact I ..].
    replace ((y + 1) * row)
      with (y * row + Z.max 0 (Image.width img) * Z.max 0 samples)
      by (unfold row; ring).
    exact Hrow. }
  { unfold render_inv. repeat split; auto. }
  destruct (for_ 0 (Image.height img) _ _) as [[[[img' g'] tt] tr]| |];
    cbn [bind]; [|exact I ..].
  unfold render_inv in Hloop.
  destruct Hloop as (Hw & Hh & Hl & Hr & Ht).
  cbn [RenderStats.total_rays RenderStats.total_tests
       RenderStats.tests_per_ray].
  split; [exact Hr|]. split; [exact Hw|]. split; [exact Hh|].
  split; [exact Hl|]. split; [reflexivity | exact Ht].
Qed.
End RenderFacts.

Lemma render_counts_witness :
  exists img' stats g',
    render (A := binary64) 4 64 Ex.img0 (Scene.mk [Ex.unit_ball] None)
      Ex.cam0 2 3 false (7 : rng_t (Rng := example_rng))
    = Ret (img', stats, g')
    /\ RenderStats.total_rays stats = 4
    /\ RenderStats.total_tests stats = 0.
Proof.
  pose proof (@render_counts binary64 binary64_sqrt example_pow example_rng
                4 64 Ex.img0 (Scene.mk [Ex.unit_ball] None) Ex.cam0 2 3
                false 7) as H.
  assert (Hret : Ex.returned
                   (render (A := binary64) 4 64 Ex.img0
                      (Scene.mk [Ex.unit_ball] None) Ex.cam0 2 3 false
                      (7 : rng_t (Rng := example_rng))) = true)
    by (vm_compute; reflexivity).
  destruct (render 4 64 Ex.img0 (Scene.mk [Ex.unit_ball] None) Ex.cam0 2 3
              false (7 : rng_t (Rng := example_rng)))
    as [[[img' stats] g']| |]; [|discriminate Hret ..].
  exists img', stats, g'. split; [reflexivity|].
  destruct H as (H1 & _ & _ & _ & _ & H2). split; [exact H1 | now apply H2].
Defined.

(** ** The split axis and the buckets in exact arithmetic *)

(** X25.  In exact arithmetic the axis that [build] selects is 0, 1 or 2 and
    no axis has a larger extent of the centres. *)
Theorem longest_axis_is_longest (cb : AABB.t (A := exactQ)) :
  let axis := BVH.longest_axis cb in
  (axis = 0 \/ axis = 1 \/ axis = 2)
  /\ (extent_on cb 0 <= extent_on cb axis)%Q
  /\ (extent_on cb 1 <= extent_on cb axis)%Q
  /\ (extent_on cb 2 <= extent_on cb axis)%Q.
Proof.
  destruct cb as [[x0 y0 z0] [x1 y1 z1]].
  unfold BVH.longest_axis, extent_on, Vec3.sub.
  cbn [AABB.min_pt AABB.max_pt Vec3.x Vec3.y Vec3.z sub ltb exactQ].
  destruct (Qltb (x1 - x0) (y1 - y0)) eqn:E1;
    [apply Qltb_lt in E1 | apply Qltb_ge in E1];
    cbn [Vec3.get Z.eqb Pos.eqb Vec3.x Vec3.y Vec3.z].
  - destruct (Qltb (y1 - y0) (z1 - z0)) eqn:E2;
      [apply Qltb_lt in E2 | apply Qltb_ge in E2];
      cbn [Vec3.get Z.eqb Pos.eqb Vec3.x Vec3.y Vec3.z];
      (split; [tauto|]); repeat split; lra.
  - destruct (Qltb (x1 - x0) (z1 - z0)) eqn:E2;
      [apply Qltb_lt in E2 | apply Qltb_ge in E2];
      cbn [Vec3.get Z.eqb Pos.eqb Vec3.x Vec3.y Vec3.z];
      (split; [tauto|]); repeat split; lra.
Qed.

Lemma get_cases {A : Arith} (v : Vec3.t) (axis : Z) :
  Vec3.get v axis = Vec3.x v \/ Vec3.get v axis = Vec3.y v
  \/ Vec3.get v axis = Vec3.z v.
Proof.
  unfold Vec3.get. destruct (axis =? 0); [tauto|].
  destruct (axis =? 1); tauto.
Qed.

(** The box [grow] returns bounds the centre it was given and the box it
    grew from. *)
Lemma grow_bounds (b : AABB.t (A := exactQ)) (c : Vec3.t) (axis : Z) :
  let b' := BVH.grow b c in
  (Vec3.get (AABB.min_pt b') axis <= Vec3.get c axis)%Q
  /\ (Vec3.get c axis <= Vec3.get (AABB.max_pt b') axis)%Q
  /\ (Vec3.get (AABB.min_pt b') axis <= Vec3.get (AABB.min_pt b) axis)%Q
  /\ (Vec3.get (AABB.max_pt b) axis <= Vec3.get (AABB.max_pt b') axis)%Q.
Proof.
  destruct b as [[x0 y0 z0] [x1 y1 z1]], c as [cx cy cz].
  unfold BVH.grow. cbn [AABB.min_pt AABB.max_pt Vec3.x Vec3.y Vec3.z].
  destruct (Q_std_min x0 cx), (Q_std_min y0 cy), (Q_std_min z0 cz),
    (Q_std_max x1 cx), (Q_std_max y1 cy), (Q_std_max z1 cz).
  unfold Vec3.get. destruct (axis =? 0); [|destruct (axis =? 1)];
    cbn [Vec3.x Vec3.y Vec3.z]; repeat split; assumption.
Qed.

Lemma centroid_bounds_hold (sph : list (Sphere.t (A := exactQ)))
    (axis : Z) :
  forall (idxs : list Z) (b cb : AABB.t),
    BVH.centroid_bounds sph idxs b = Ret cb ->
    ((Vec3.get (AABB.min_pt cb) axis <= Vec3.get (AABB.min_pt b) axis)%Q
     /\ (Vec3.get (AABB.max_pt b) axis <= Vec3.get (AABB.max_pt cb) axis)%Q)
    /\ forall i s, In i idxs -> at_ sph i = Ret s ->
         (Vec3.get (AABB.min_pt cb) axis
          <= Vec3.get (Sphere.center s) axis)%Q
         /\ (Vec3.get (Sphere.center s) axis
             <= Vec3.get (AABB.max_pt cb) axis)%Q.
Proof.
  induction idxs as [|i0 rest IH]; intros b cb; cbn [BVH.centroid_bounds].
  - intros H. inversion H; subst cb. split; [split; lra|].
    intros i s [].
  - destruct (at_ sph i0) as [s0| |] eqn:E0; cbn [bind]; try discriminate.
    intros H. destruct (IH _ _ H) as [[H1 H2] H3].
    destruct (grow_bounds b (Sphere.center s0) axis) as (G1 & G2 & G3 & G4).
    cbv zeta in G1, G2, G3, G4.
    split; [split; lra|].
    intros i s [<-|Hin] Hs.
    + rewrite E0 in Hs. inversion Hs; subst s. split; lra.
    + now apply (H3 i s).
Qed.

(** Truncation of a rational between 0 and [n]. *)
Lemma Q_to_int_range (q : Q) (n : Z) :
  (0 <= q)%Q -> (q <= inject_Z n)%Q -> n <= INT_MAX ->
  0 <= Q_to_int q <= n.
Proof.
  intros H0 Hn Hmax. unfold Q_to_int.
  destruct q as [num den]. unfold Qle in *. cbn in *.
  assert (Hq : 0 <= Z.quot num (Z.pos den) <= n).
  { rewrite Z.quot_div_nonneg by lia. split.
    - apply Z.div_pos; lia.
    - apply Z.div_le_upper_bound; lia. }
  match goal with
  | |- context [if ?b then _ else _] => destruct b eqn:E
  end; [exact Hq|].
  apply andb_false_iff in E. unfold INT_MAX in *.
  destruct E as [E|E]; [apply Z.leb_gt in E | apply Z.leb_gt in E]; lia.
Qed.

Section Buckets.
Context {SA : StdAlgo}.

Lemma argmin_from_range (costs : list (D (Arith := exactQ))) :
  forall (i min_bucket : Z) (min_cost : D),
    let r := BVH.argmin_from costs i min_bucket min_cost in
    r = min_bucket \/ i <= r < i + Z.of_nat (length costs).
Proof.
  induction costs as [|c rest IH]; intros i mb mc; cbn [BVH.argmin_from].
  - now left.
  - destruct (c <? mc)%D.
    + destruct (IH (i + 1) i c) as [H|H]; cbn [length]; right; lia.
    + destruct (IH (i + 1) mb mc) as [H|H]; cbn [length]; [now left|].
      right. lia.
Qed.

(** X26.  In exact arithmetic, with the box of the centres of a range of
    valid indices and an extent on the axis that is not below [1e-10], every
    sphere of the range falls in a bucket from 0 to 11: the loop that fills
    the twelve buckets never writes outside them; and the bucket that the
    cost loop selects is between 0 and 10, for whatever buckets. *)
Theorem bucket_index_in_range (sph : list (Sphere.t (A := exactQ)))
    (idxs : list Z) (axis : Z) (cb : AABB.t) :
  BVH.centroid_bounds sph idxs AABB.empty = Ret cb ->
  (extent_on cb axis <? c_1em10)%D = false ->
  (forall i s, In i idxs -> at_ sph i = Ret s ->
               0 <= BVH.bucket_of axis cb (extent_on cb axis) s <= 11)
  /\ (forall buckets, 0 <= BVH.min_cost_bucket buckets <= 10).
Proof.
  intros Hcb Hext. split.
  - intros i s Hin Hs.
    destruct (centroid_bounds_hold sph axis idxs _ _ Hcb) as [_ Hb].
    destruct (Hb i s Hin Hs) as [Hlo Hhi].
    unfold BVH.bucket_of, extent_on in *.
    cbn [ltb sub mul div of_int to_int c_1em10 exactQ] in *.
    apply Qltb_ge in Hext.
    set (c := Vec3.get (Sphere.center s) axis) in *.
    set (mn := Vec3.get (AABB.min_pt cb) axis) in *.
    set (mx := Vec3.get (AABB.max_pt cb) axis) in *.
    assert (Hpos : (0 < mx - mn)%Q).
    { eapply Qlt_le_trans; [|exact Hext]. reflexivity. }
    assert (Hq : (0 <= inject_Z BVH.NUM_BUCKETS * (c - mn) / (mx - mn)
                  /\ inject_Z BVH.NUM_BUCKETS * (c - mn) / (mx - mn)
                     <= inject_Z 12)%Q).
    { change (inject_Z BVH.NUM_BUCKETS) with 12%Q.
      change (inject_Z 12) with 12%Q. split.
      - apply Qle_shift_div_l; [assumption|]. lra.
      - apply Qle_shift_div_r; [assumption|]. lra. }
    destruct Hq as [Hq0 Hq1].
    pose proof (Q_to_int_range _ 12 Hq0 Hq1 ltac:(unfold INT_MAX; lia)) as Hr.
    unfold BVH.NUM_BUCKETS in *.
    destruct (_ >=? 12) eqn:E; [lia|].
    rewrite Z.geb_leb in E. apply Z.leb_gt in E. lia.
  - intros buckets. unfold BVH.min_cost_bucket.
    change (Z.to_nat (BVH.NUM_BUCKETS - 1)) with 11%nat.
    cbn [seq map].
    match goal with
    | |- context [BVH.argmin_from ?l 1 0 ?c0] =>
        pose proof (argmin_from_range l 1 0 c0) as H
    end.
    cbv zeta in H. cbn [length] in H. lia.
Qed.
End Buckets.

Lemma bucket_index_in_range_witness :
  (forall i s, In i [0; 1; 2; 3; 4] ->
     at_ [ExQ.qball;
          Sphere.mk (ExQ.qvec 1 0 0) 1%Q (Sphere.mat ExQ.qball);
          Sphere.mk (ExQ.qvec 2 0 0) 1%Q (Sphere.mat ExQ.qball);
          Sphere.mk (ExQ.qvec 3 0 0) 1%Q (Sphere.mat ExQ.qball);
          Sphere.mk (ExQ.qvec 5 0 0) 1%Q (Sphere.mat ExQ.qball)] i = Ret s ->
     0 <= BVH.bucket_of 0
            (AABB.mk (ExQ.qvec 0 0 0) (ExQ.qvec 5 0 0))
            (extent_on (AABB.mk (ExQ.qvec 0 0 0) (ExQ.qvec 5 0 0)) 0) s
       <= 11)
  /\ (forall buckets : list (BVH.Bucket (A := exactQ)),
         0 <= BVH.min_cost_bucket buckets <= 10).
Proof.
  apply (@bucket_index_in_range
           [ExQ.qball;
            Sphere.mk (ExQ.qvec 1 0 0) 1%Q (Sphere.mat ExQ.qball);
            Sphere.mk (ExQ.qvec 2 0 0) 1%Q (Sphere.mat ExQ.qball);
            Sphere.mk (ExQ.qvec 3 0 0) 1%Q (Sphere.mat ExQ.qball);
            Sphere.mk (ExQ.qvec 5 0 0) 1%Q (Sphere.mat ExQ.qball)]
           [0; 1; 2; 3; 4] 0).
  - reflexivity.
  - reflexivity.
Defined.

(** ** Traversal finds what the exhaustive search finds *)

Lemma step_between (a ts to e : Q) :
  (0 < a)%Q ->
  ((0 < e /\ e < to - ts) \/ (to - ts < e /\ e < 0))%Q ->
  (a * ((ts + e - ts) * (ts + e - to)) < 0)%Q.
Proof.
  intros Ha He.
  setoid_replace ((ts + e - ts) * (ts + e - to))%Q
    with (e * (e - (to - ts)))%Q by ring.
  assert (H : (e * (e - (to - ts)) < 0)%Q) by (destruct He; nra).
  nra.
Qed.

(** Between a root inside an open interval and the other root there is a
    point of the interval at which the quadratic is negative. *)
Lemma between_roots (a ts to lo hi : Q) :
  (0 < a)%Q -> ~ (ts == to)%Q -> (lo < ts)%Q -> (ts < hi)%Q ->
  exists t : Q, (lo < t)%Q /\ (t < hi)%Q
                /\ (a * ((t - ts) * (t - to)) < 0)%Q.
Proof.
  intros Ha Hne Hlo Hhi.
  destruct (Qlt_le_dec ts to) as [H|H].
  - destruct (Qlt_le_dec to hi) as [H'|H'].
    + exists (ts + (to - ts) * (1 # 2))%Q.
      split; [lra|]. split; [lra|]. apply step_between; [assumption|].
      left. lra.
    + exists (ts + (hi - ts) * (1 # 2))%Q.
      split; [lra|]. split; [lra|]. apply step_between; [assumption|].
      left. lra.
  - assert (H1 : (to < ts)%Q).
    { destruct (Qlt_le_dec to ts) as [G|G]; [assumption|].
      exfalso. apply Hne. lra. }
    destruct (Qlt_le_dec lo to) as [H'|H'].
    + exists (ts + (to - ts) * (1 # 2))%Q.
      split; [lra|]. split; [lra|]. apply step_between; [assumption|].
      right. lra.
    + exists (ts + (lo - ts) * (1 # 2))%Q.
      split; [lra|]. split; [lra|]. apply step_between; [assumption|].
      right. lra.
Qed.

Section Finds.
Context {SQ : Sqrt exactQ} {SA : StdAlgo}.

(** With an exact square root the squared distance from the centre, less
    the squared radius, factors through the two candidates. *)
Lemma sphere_factor (s : Sphere.t (A := exactQ)) (ray : Ray.t) (t : Q) :
  ~ (Vec3.dot (Ray.direction ray) (Ray.direction ray) == 0)%Q ->
  sqrt_exact_at (discriminant s ray) ->
  (dist2 s (Ray.at_t ray t) - Sphere.radius s * Sphere.radius s
   == Vec3.dot (Ray.direction ray) (Ray.direction ray)
      * ((t - fst (roots s ray)) * (t - snd (roots s ray))))%Q.
Proof.
  destruct s as [[cx cy cz] r m], ray as [[ox oy oz] [dx dy dz]].
  unfold sqrt_exact_at, roots, discriminant, dist2, Ray.at_t, Vec3.dot,
    Vec3.sub, Vec3.add, Vec3.scale.
  cbn [Sphere.center Sphere.radius Ray.origin Ray.direction Vec3.x Vec3.y
       Vec3.z add sub mul div opp exactQ fst snd].
  set (a := (dx * dx + dy * dy + dz * dz)%Q).
  set (hb := ((ox - cx) * dx + (oy - cy) * dy + (oz - cz) * dz)%Q).
  set (c := ((ox - cx) * (ox - cx) + (oy - cy) * (oy - cy)
             + (oz - cz) * (oz - cz) - r * r)%Q).
  generalize (dsqrt (A := exactQ) (hb * hb - a * c)%Q). intros sd Ha Hs.
  transitivity (a * t * t + 2 * hb * t + c)%Q; [subst a hb c; ring|].
  transitivity (((a * t + hb) * (a * t + hb) - sd * sd) / a)%Q;
    [|field; exact Ha].
  rewrite Hs. field. exact Ha.
Qed.

Lemma oblique_norm_pos (ray : Ray.t (A := exactQ)) :
  oblique ray ->
  (0 < Vec3.dot (Ray.direction ray) (Ray.direction ray))%Q.
Proof.
  destruct ray as [o [dx dy dz]]. unfold oblique, Vec3.dot.
  cbn [Ray.direction Vec3.x Vec3.y Vec3.z add mul exactQ].
  intros (Hx & _ & _).
  assert (0 < dx * dx)%Q by nra.
  pose proof (square_nonneg dy). pose proof (square_nonneg dz). lra.
Qed.

Lemma roots_differ (s : Sphere.t (A := exactQ)) (ray : Ray.t) :
  (0 < Vec3.dot (Ray.direction ray) (Ray.direction ray))%Q ->
  (0 < discriminant s ray)%Q -> sqrt_exact_at (discriminant s ray) ->
  ~ (fst (roots s ray) == snd (roots s ray))%Q.
Proof.
  unfold sqrt_exact_at, roots. fold (discriminant s ray).
  cbn [fst snd add sub mul div opp exactQ].
  generalize (dsqrt (A := exactQ) (discriminant s ray)).
  generalize (discriminant s ray).
  generalize (Vec3.dot (Vec3.sub (Ray.origin ray) (Sphere.center s))
                (Ray.direction ray)).
  generalize (Vec3.dot (Ray.direction ray) (Ray.direction ray)).
  intros a hb disc sd Ha Hd Hs E.
  assert (Hsd : (sd == 0)%Q).
  { assert (E' : ((- hb - sd) / a * a == (- hb + sd) / a * a)%Q)
      by (rewrite E; reflexivity).
    assert (E1 : ((- hb - sd) / a * a == - hb - sd)%Q) by (field; lra).
    assert (E2 : ((- hb + sd) / a * a == - hb + sd)%Q) by (field; lra).
    rewrite E1, E2 in E'. lra. }
  rewrite Hsd in Hs. lra.
Qed.

(** A proper hit comes with a parameter of the open interval at which the
    ray is inside the open ball. *)
Lemma proper_hit_interior (s : Sphere.t (A := exactQ)) (ray : Ray.t)
    (t_min c : Q) (r : HitRecord.t) :
  oblique ray -> proper_hit s ray t_min c r ->
  exists t : Q,
    (t_min < t)%Q /\ (t < c)%Q
    /\ (dist2 s (Ray.at_t ray t) < Sphere.radius s * Sphere.radius s)%Q.
Proof.
  intros Ho (Hit & Hlo & Hhi & Hr & Hd & Hs).
  pose proof (oblique_norm_pos ray Ho) as Ha.
  assert (Ha' : ~ (Vec3.dot (Ray.direction ray) (Ray.direction ray) == 0)%Q)
    by lra.
  pose proof (roots_differ s ray Ha Hd Hs) as Hne.
  destruct (intersect_root s ray t_min c r Hit) as (ts & -> & _ & Hroot).
  cbn [Sphere.record HitRecord.t_] in Hlo, Hhi.
  assert (Hex : exists t : Q,
             (t_min < t)%Q /\ (t < c)%Q
             /\ (Vec3.dot (Ray.direction ray) (Ray.direction ray)
                 * ((t - fst (roots s ray)) * (t - snd (roots s ray)))
                 < 0)%Q).
  { destruct Hroot as [E | [E _]]; subst ts.
    - apply between_roots; assumption.
    - destruct (between_roots _ (snd (roots s ray)) (fst (roots s ray))
                  t_min c Ha) as (t & H1 & H2 & H3);
        [intros E; apply Hne; rewrite E; reflexivity | assumption
        | assumption |].
      exists t. split; [assumption|]. split; [assumption|].
      setoid_replace ((t - fst (roots s ray)) * (t - snd (roots s ray)))%Q
        with ((t - snd (roots s ray)) * (t - fst (roots s ray)))%Q
        by ring.
      exact H3. }
  destruct Hex as (t & H1 & H2 & H3).
  exists t. split; [assumption|]. split; [assumption|].
  rewrite <- (sphere_factor s ray t Ha' Hs) in H3. lra.
Qed.

Lemma strictly_inside_mono (outer b : AABB.t (A := exactQ)) (p : Vec3.t) :
  contains outer b = true -> strictly_inside b p = true ->
  strictly_inside outer p = true.
Proof.
  destruct outer as [[a1 a2 a3] [a4 a5 a6]], b as [[b1 b2 b3] [b4 b5 b6]],
    p as [px py pz].
  unfold contains, strictly_inside.
  cbn [AABB.min_pt AABB.max_pt Vec3.x Vec3.y Vec3.z ltb leb exactQ].
  rewrite !andb_true_iff, !Qle_bool_iff, !Qltb_lt.
  intros (((((H1 & H2) & H3) & H4) & H5) & H6)
    (((((G1 & G2) & G3) & G4) & G5) & G6).
  repeat split; lra.
Qed.

(** Every box that holds the box of a properly hit sphere passes the slab
    test on the interval of the hit. *)
Lemma proper_hit_passes_box (outer : AABB.t (A := exactQ))
    (s : Sphere.t) (ray : Ray.t) (t_min c : Q) (r : HitRecord.t) :
  oblique ray -> proper_hit s ray t_min c r ->
  contains outer (Sphere.bounding_box s) = true ->
  AABB.intersect outer ray t_min c = true.
Proof.
  intros Ho Hp Hc.
  destruct (proper_hit_interior s ray t_min c r Ho Hp) as (t & H1 & H2 & H3).
  destruct Hp as (_ & _ & _ & Hr & _).
  apply (slab_test_accepts outer ray t_min c t Ho H1 H2).
  apply (strictly_inside_mono outer (Sphere.bounding_box s)); [assumption|].
  now apply interior_strictly_inside.
Qed.
(** A hit that the traversal reports is the answer of a sphere of the
    scene on an interval that ends no later than the one of the call. *)
Lemma traverse_hit_source (bvh : BVH.t (A := exactQ)) (ray : Ray.t)
    (t_min : Q) :
  forall (fuel : nat) (idx : Z) (c : Q) (tests : Z) (rec : HitRecord.t)
         (k : Z),
    Traverse.intersect_node fuel bvh idx ray t_min c tests
    = Ret (Some rec, k) ->
    exists s c', In s (BVH.spheres bvh) /\ (c' <= c)%Q
                 /\ Sphere.intersect s ray t_min c' = Some rec.
Proof.
  induction fuel as [|fuel IH]; intros idx c tests rec k;
    cbn [Traverse.intersect_node]; [discriminate|].
  destruct (at_ (BVH.nodes bvh) idx) as [node| |]; cbn [bind];
    try discriminate.
  destruct (AABB.intersect (BVHNode.bbox node) ray t_min c); cbn [negb];
    [|discriminate].
  destruct (BVHNode.is_leaf node).
  - destruct (at_ (BVH.spheres bvh) (BVHNode.sphere_idx node)) as [s| |]
      eqn:Es; cbn [bind]; try discriminate.
    intros H. inversion H. exists s, c.
    split; [|split; [lra | reflexivity]].
    apply at_Ret_nth in Es. destruct Es as [_ Es].
    exact (nth_error_In _ _ Es).
  - assert (Hleft :
      forall hl k1,
        (if BVHNode.left node >=? 0
         then Traverse.intersect_node fuel bvh (BVHNode.left node) ray
                t_min c (tests + 1)
         else Ret (None, tests + 1)) = Ret (hl, k1) ->
        forall rl, hl = Some rl ->
          exists s c', In s (BVH.spheres bvh) /\ (c' <= c)%Q
                       /\ Sphere.intersect s ray t_min c' = Some rl).
    { intros hl k1 H rl ->. destruct (BVHNode.left node >=? 0).
      - exact (IH _ _ _ _ _ H).
      - discriminate. }
    destruct (if BVHNode.left node >=? 0 then _ else _)
      as [[hl k1]| |]; cbn [bind]; try discriminate.
    specialize (Hleft hl k1 eq_refl).
    set (tc := match hl with
               | Some rec_left => HitRecord.t_ rec_left
               | None => c
               end).
    assert (Htc : (tc <= c)%Q).
    { subst tc. destruct hl as [rl|]; [|lra].
      destruct (Hleft rl eq_refl) as (s & c' & _ & Hc' & Hi).
      destruct (intersect_root s ray t_min c' rl Hi) as (t & -> & Ha & _).
      apply accepted_Q in Ha. cbn [Sphere.record HitRecord.t_]. lra. }
    assert (Hright :
      forall hr k2,
        (if BVHNode.right node >=? 0
         then Traverse.intersect_node fuel bvh (BVHNode.right node) ray
                t_min tc k1
         else Ret (None, k1)) = Ret (hr, k2) ->
        forall rr, hr = Some rr ->
          exists s c', In s (BVH.spheres bvh) /\ (c' <= c)%Q
                       /\ Sphere.intersect s ray t_min c' = Some rr).
    { intros hr k2 H rr ->. destruct (BVHNode.right node >=? 0).
      - destruct (IH _ _ _ _ _ H) as (s & c' & Hin & Hc' & Hi).
        exists s, c'. split; [assumption|]. split; [lra | assumption].
      - discriminate. }
    destruct (if BVHNode.right node >=? 0 then _ else _)
      as [[hr k2]| |]; cbn [bind]; try discriminate.
    specialize (Hright hr k2 eq_refl).
    destruct hr as [rr|]; intros H; inversion H; subst.
    + exact (Hright rec eq_refl).
    + exact (Hleft rec eq_refl).
Qed.

(** The answer of a sphere does not change when the interval is cut
    behind it. *)
Lemma intersect_stable (s : Sphere.t (A := exactQ)) (ray : Ray.t)
    (t_min c c' : Q) (r : HitRecord.t) :
  Sphere.intersect s ray t_min c = Some r ->
  (HitRecord.t_ r <= c')%Q -> (c' <= c)%Q ->
  Sphere.intersect s ray t_min c' = Some r.
Proof.
  rewrite !intersect_by_roots.
  destruct (discriminant s ray <? of_int 0)%D; [discriminate|].
  generalize (fst (roots s ray)), (snd (roots s ray)). intros t1 t2.
  destruct (accepted t1 t_min c) eqn:E1.
  - intros H; inversion H; subst r; clear H.
    cbn [Sphere.record HitRecord.t_]. intros H1 H2.
    apply accepted_Q in E1.
    replace (accepted t1 t_min c') with true; [reflexivity|].
    symmetry. apply accepted_Q. split; lra.
  - destruct (accepted t2 t_min c) eqn:E2; [|discriminate].
    intros H; inversion H; subst r; clear H.
    cbn [Sphere.record HitRecord.t_]. intros H1 H2.
    apply accepted_Q in E2.
    replace (accepted t1 t_min c') with false.
    + replace (accepted t2 t_min c') with true; [reflexivity|].
      symmetry. apply accepted_Q. split; lra.
    + symmetry. destruct (accepted t1 t_min c') eqn:E; [|reflexivity].
      apply accepted_Q in E.
      assert (X : accepted t1 t_min c = true)
        by (apply accepted_Q; split; lra).
      congruence.
Qed.
Lemma contains_refl_Q (b : AABB.t (A := exactQ)) : contains b b = true.
Proof.
  unfold contains. cbn [leb exactQ].
  rewrite !andb_true_iff, !Qle_bool_iff. repeat split; lra.
Qed.

(** The step of the traversal at a leaf and at an inner node of a laid-out
    tree. *)
Lemma traverse_leaf_eq (sph : list (Sphere.t (A := exactQ)))
    (arena : list BVHNode.t) (ray : Ray.t) (t_min c : Q) (si base : Z)
    (fuel : nat) (tests : Z) (s : Sphere.t) :
  embedded sph arena base (Tree.Leaf si) -> at_ sph si = Ret s ->
  Traverse.intersect_node (S fuel) (BVH.mk arena sph) base ray t_min c tests
  = if AABB.intersect (Sphere.bounding_box s) ray t_min c
    then Ret (Sphere.intersect s ray t_min c, tests + 1)
    else Ret (None, tests + 1).
Proof.
  intros [Hb Hemb] Hs.
  cbn [Traverse.intersect_node BVH.nodes BVH.spheres].
  assert (Hat : at_ arena base
                = Ret (BVHNode.mk (Tree.sphere_box sph si) (-1) (-1) si
                         true)).
  { apply at_Ret_nth. split; [assumption|].
    specialize (Hemb 0%nat _ eq_refl). now rewrite Nat.add_0_r in Hemb. }
  rewrite Hat. cbn [bind BVHNode.bbox BVHNode.is_leaf BVHNode.sphere_idx].
  rewrite (sphere_box_at sph si s Hs).
  destruct (AABB.intersect (Sphere.bounding_box s) ray t_min c);
    cbn [negb]; [|reflexivity].
  rewrite Hs. reflexivity.
Qed.

Lemma traverse_node_eq (sph : list (Sphere.t (A := exactQ)))
    (arena : list BVHNode.t) (ray : Ray.t) (t_min c : Q) (l r : Tree.t)
    (base : Z) (fuel : nat) (tests : Z) :
  embedded sph arena base (Tree.Node l r) ->
  embedded sph arena (base + 1) l
  /\ embedded sph arena (base + 1 + Z.of_nat (Tree.size l)) r
  /\ Traverse.intersect_node (S fuel) (BVH.mk arena sph) base ray t_min c
       tests
     = if AABB.intersect (Tree.box sph (Tree.Node l r)) ray t_min c
       then
         '(hit_left, k1) <-
            Traverse.intersect_node fuel (BVH.mk arena sph) (base + 1) ray
              t_min c (tests + 1) ;;
         '(hit_right, k2) <-
            Traverse.intersect_node fuel (BVH.mk arena sph)
              (base + 1 + Z.of_nat (Tree.size l)) ray t_min
              (match hit_left with
               | Some rec_left => HitRecord.t_ rec_left
               | None => c
               end) k1 ;;
         match hit_right with
         | Some rec_right => Ret (Some rec_right, k2)
         | None => Ret (hit_left, k2)
         end
       else Ret (None, tests + 1).
Proof.
  intros [Hb Hemb].
  assert (Hel : embedded sph arena (base + 1) l).
  { split; [lia|]. intros j node Hj.
    replace (Z.to_nat (base + 1) + j)%nat with (Z.to_nat base + S j)%nat
      by lia.
    apply Hemb. cbn [Tree.layout nth_error].
    rewrite nth_error_app1; [assumption|].
    apply nth_error_Some. congruence. }
  assert (Her : embedded sph arena (base + 1 + Z.of_nat (Tree.size l)) r).
  { split; [lia|]. intros j node Hj.
    replace (Z.to_nat (base + 1 + Z.of_nat (Tree.size l)) + j)%nat
      with (Z.to_nat base + S (Tree.size l + j))%nat by lia.
    apply Hemb. cbn [Tree.layout nth_error].
    rewrite nth_error_app2 by (rewrite layout_length; lia).
    rewrite layout_length.
    replace (Tree.size l + j - Tree.size l)%nat with j by lia.
    assumption. }
  split; [exact Hel|]. split; [exact Her|].
  cbn [Traverse.intersect_node BVH.nodes BVH.spheres].
  assert (Hat : at_ arena base
                = Ret (BVHNode.mk
                         (AABB.merge (Tree.box sph l) (Tree.box sph r))
                         (base + 1) (base + 1 + Z.of_nat (Tree.size l))
                         (-1) false)).
  { apply at_Ret_nth. split; [assumption|].
    specialize (Hemb 0%nat _ eq_refl). now rewrite Nat.add_0_r in Hemb. }
  rewrite Hat.
  cbn [bind BVHNode.bbox BVHNode.is_leaf BVHNode.left BVHNode.right
       Tree.box].
  destruct (AABB.intersect (AABB.merge (Tree.box sph l) (Tree.box sph r))
              ray t_min c); cbn [negb]; [|reflexivity].
  replace (base + 1 >=? 0) with true by (symmetry; apply Z.geb_le; lia).
  replace (base + 1 + Z.of_nat (Tree.size l) >=? 0) with true
    by (symmetry; apply Z.geb_le; lia).
  reflexivity.
Qed.
(** The parameter of a reported hit is no later than the end of the
    interval of the call. *)
Lemma traverse_hit_le (bvh : BVH.t (A := exactQ)) (ray : Ray.t)
    (t_min c : Q) (fuel : nat) (idx tests k : Z) (rec : HitRecord.t) :
  Traverse.intersect_node fuel bvh idx ray t_min c tests
  = Ret (Some rec, k) ->
  (t_min <= HitRecord.t_ rec /\ HitRecord.t_ rec <= c)%Q.
Proof.
  intros H.
  destruct (traverse_hit_source bvh ray t_min fuel idx c tests rec k H)
    as (s & c' & _ & Hc' & Hi).
  destruct (intersect_root s ray t_min c' rec Hi) as (t & -> & Ha & _).
  apply accepted_Q in Ha. cbn [Sphere.record HitRecord.t_]. split; lra.
Qed.

Lemma tree_box_holds_leaf (sph : list (Sphere.t (A := exactQ)))
    (tr : Tree.t) (si : Z) (s : Sphere.t) :
  In si (Tree.leaves tr) -> at_ sph si = Ret s ->
  contains (Tree.box sph tr) (Sphere.bounding_box s) = true.
Proof.
  intros Hin Hs. rewrite <- (sphere_box_at sph si s Hs).
  apply (tree_box_contains (A := exactQ) any_Q exactQ_order exactQ_leb);
    [|assumption].
  intros sj _. repeat split.
Qed.

(** The traversal of a laid-out subtree that holds a properly hit sphere
    reports a hit that is no later. *)
Lemma traverse_finds (sph : list (Sphere.t (A := exactQ)))
    (arena : list BVHNode.t) (ray : Ray.t) (t_min : Q) :
  oblique ray ->
  forall (tr : Tree.t) (base : Z) (fuel : nat) (c : Q) (tests : Z)
         (si : Z) (s : Sphere.t) (r : HitRecord.t),
    embedded sph arena base tr ->
    Forall (valid_index sph) (Tree.leaves tr) ->
    (Tree.size tr <= fuel)%nat ->
    In si (Tree.leaves tr) -> at_ sph si = Ret s ->
    proper_hit s ray t_min c r ->
    exists rec k,
      Traverse.intersect_node fuel (BVH.mk arena sph) base ray t_min c tests
      = Ret (Some rec, tests + k)
      /\ 1 <= k <= Z.of_nat (Tree.size tr)
      /\ (HitRecord.t_ rec <= HitRecord.t_ r)%Q.
Proof.
  intros Ho.
  induction tr as [sj|l IHl rt IHr];
    intros base fuel c tests si s r Hemb Hv Hf Hin Hs Hp.
  - destruct Hin as [<-|[]].
    destruct fuel as [|fuel]; [cbn in Hf; lia|].
    rewrite (traverse_leaf_eq sph arena ray t_min c sj base fuel tests s
               Hemb Hs).
    rewrite (proper_hit_passes_box (Sphere.bounding_box s) s ray t_min c r
               Ho Hp (contains_refl_Q _)).
    destruct Hp as (Hit & _). rewrite Hit.
    exists r, 1. split; [reflexivity|]. split; [cbn; lia | lra].
  - destruct fuel as [|fuel]; [cbn in Hf; lia|].
    cbn [Tree.size] in Hf.
    destruct (traverse_node_eq sph arena ray t_min c l rt base fuel tests
                Hemb) as (Hel & Her & Heq).
    rewrite Heq. clear Heq.
    rewrite (proper_hit_passes_box (Tree.box sph (Tree.Node l rt)) s ray
               t_min c r Ho Hp
               (tree_box_holds_leaf sph (Tree.Node l rt) si s Hin Hs)).
    cbn [Tree.leaves] in Hv, Hin. apply Forall_app in Hv.
    destruct Hv as [Hvl Hvr].
    destruct (traverse_subtree sph arena ray t_min l (base + 1) fuel c
                (tests + 1) Hel Hvl ltac:(lia)) as (hl & kl & El & Hkl & _).
    rewrite El. cbn [bind].
    set (tc := match hl with
               | Some rec_left => HitRecord.t_ rec_left
               | None => c
               end).
    destruct (traverse_subtree sph arena ray t_min rt
                (base + 1 + Z.of_nat (Tree.size l)) fuel tc
                (tests + 1 + kl) Her Hvr ltac:(lia))
      as (hr & kr & Er & Hkr & _).
    assert (Hk : 1 <= 1 + kl + kr
                 <= Z.of_nat (Tree.size (Tree.Node l rt)))
      by (cbn [Tree.size]; lia).
    assert (Hleft : forall rl, hl = Some rl ->
                      (t_min <= HitRecord.t_ rl /\ HitRecord.t_ rl <= c)%Q).
    { intros rl E. subst hl. exact (traverse_hit_le _ _ _ _ _ _ _ _ _ El). }
    assert (Hright : forall rr, hr = Some rr ->
                       (t_min <= HitRecord.t_ rr
                        /\ HitRecord.t_ rr <= tc)%Q).
    { intros rr E. subst hr. exact (traverse_hit_le _ _ _ _ _ _ _ _ _ Er). }
    apply in_app_or in Hin. destruct Hin as [Hin|Hin].
    + (* the sphere is on the left *)
      destruct (IHl (base + 1) fuel c (tests + 1) si s r Hel Hvl
                  ltac:(lia) Hin Hs Hp) as (recl & kl' & El' & _ & Hle).
      rewrite El in El'. inversion El'; subst hl.
      rewrite Er. cbn [bind].
      destruct hr as [rr|].
      * exists rr, (1 + kl + kr). split; [f_equal; f_equal; lia|].
        split; [exact Hk|].
        destruct (Hright rr eq_refl) as [_ H2]. unfold tc in H2. lra.
      * exists recl, (1 + kl + kr). split; [f_equal; f_equal; lia|].
        split; [exact Hk | exact Hle].
    + (* the sphere is on the right *)
      assert (Htc : (tc <= c)%Q).
      { unfold tc. destruct hl as [rl|]; [|lra].
        destruct (Hleft rl eq_refl). lra. }
      destruct (Qlt_le_dec (HitRecord.t_ r) tc) as [Hlt|Hge].
      * assert (Hp' : proper_hit s ray t_min tc r).
        { destruct Hp as (Hit & Hlo & Hhi & Hr & Hd & Hsq).
          split; [|repeat split; assumption].
          apply (intersect_stable s ray t_min c tc r Hit); lra. }
        destruct (IHr (base + 1 + Z.of_nat (Tree.size l)) fuel tc
                    (tests + 1 + kl) si s r Her Hvr ltac:(lia) Hin Hs Hp')
          as (recr & kr' & Er' & _ & Hle).
        fold tc. rewrite Er'. cbn [bind].
        rewrite Er in Er'. inversion Er'; subst.
        exists recr, (1 + kl + kr). split; [f_equal; f_equal; lia|].
        split; [exact Hk | exact Hle].
      * fold tc. rewrite Er. cbn [bind].
        destruct hr as [rr|].
        -- exists rr, (1 + kl + kr). split; [f_equal; f_equal; lia|].
           split; [exact Hk|].
           destruct (Hright rr eq_refl) as [_ H2]. lra.
        -- destruct hl as [rl|].
           ++ exists rl, (1 + kl + kr). split; [f_equal; f_equal; lia|].
              split; [exact Hk|]. unfold tc in Hge. exact Hge.
           ++ exfalso. unfold tc in Hge.
              destruct Hp as (_ & _ & Hhi & _). lra.
Qed.
(** The traversal from the root of the constructed hierarchy, with the
    sphere behind the hit it reports. *)
Lemma bvh_finds_proper_hits_aux (spec : StdAlgoSpec SA)
    (sph : list (Sphere.t (A := exactQ))) (bfuel tfuel : nat) (ray : Ray.t)
    (t_min t_max : Q) (tests : Z) (s : Sphere.t) (r : HitRecord.t) :
  2 * Z.of_nat (length sph) - 1 <= INT_MAX ->
  (length sph <= bfuel)%nat -> (2 * length sph - 1 <= tfuel)%nat ->
  oblique ray -> In s sph -> proper_hit s ray t_min t_max r ->
  exists sc rec k,
    Scene.build_bvh bfuel (Scene.mk sph None) = Ret sc
    /\ Scene.intersect_bvh tfuel sc ray t_min t_max tests
       = Ret (Some rec, tests + k)
    /\ (exists s' c', In s' sph /\ (c' <= t_max)%Q
                      /\ Sphere.intersect s' ray t_min c' = Some rec)
    /\ (HitRecord.t_ rec <= HitRecord.t_ r)%Q.
Proof.
  intros Hmax Hb Ht Ho Hin Hp.
  assert (Hne : sph <> []) by (intros E; rewrite E in Hin; exact Hin).
  destruct (make_layout spec sph bfuel Hne Hmax Hb) as (tr & Hm & Hperm).
  assert (Hsz : Tree.size tr = (2 * length sph - 1)%nat).
  { pose proof (size_leaves tr) as Hs.
    rewrite <- (Permutation_length Hperm), length_map, length_seq in Hs.
    lia. }
  assert (Hv : Forall (valid_index sph) (Tree.leaves tr))
    by (apply Forall_forall; exact (leaves_valid sph tr Hperm)).
  assert (He : embedded sph (Tree.layout sph 0 tr) 0 tr)
    by (split; [lia | intros j node Hj; exact Hj]).
  apply In_nth_error in Hin. destruct Hin as [i Hi].
  assert (Hlt : (i < length sph)%nat) by (apply nth_error_Some; congruence).
  assert (Hat : at_ sph (Z.of_nat i) = Ret s).
  { apply at_Ret_nth. split; [lia|]. now rewrite Nat2Z.id. }
  assert (Hleaf : In (Z.of_nat i) (Tree.leaves tr)).
  { apply (Permutation_in _ Hperm). apply in_map, in_seq. lia. }
  destruct (traverse_finds sph (Tree.layout sph 0 tr) ray t_min Ho tr 0
              tfuel t_max tests (Z.of_nat i) s r He Hv ltac:(lia) Hleaf Hat
              Hp) as (rec & k & Hr & _ & Hle).
  exists (Scene.mk sph (Some (BVH.mk (Tree.layout sph 0 tr) sph))), rec, k.
  split.
  { unfold Scene.build_bvh. cbn [Scene.spheres]. rewrite Hm. reflexivity. }
  split.
  { unfold Scene.intersect_bvh, Traverse.intersect.
    cbn [Scene.bvh BVH.nodes].
    destruct (Tree.layout sph 0 tr) eqn:El; [|exact Hr].
    pose proof (layout_length sph tr 0) as Hl. rewrite El in Hl.
    pose proof (size_pos tr). cbn in Hl. lia. }
  split; [|exact Hle].
  exact (traverse_hit_source _ ray t_min _ _ _ _ _ _ Hr).
Qed.

(** X27.  In exact arithmetic, for a ray with no zero direction component:
    when a sphere of the scene, tested alone, is hit properly -- strictly
    inside the interval, not at a point of tangency, with a radius that is
    not negative and an exact square root of its discriminant -- the
    traversal of the constructed hierarchy reports a hit, and one that is
    no later than that of the sphere. *)
Theorem bvh_finds_proper_hits (spec : StdAlgoSpec SA)
    (sph : list (Sphere.t (A := exactQ))) (bfuel tfuel : nat) (ray : Ray.t)
    (t_min t_max : Q) (tests : Z) (s : Sphere.t) (r : HitRecord.t) :
  2 * Z.of_nat (length sph) - 1 <= INT_MAX ->
  (length sph <= bfuel)%nat -> (2 * length sph - 1 <= tfuel)%nat ->
  oblique ray -> In s sph -> proper_hit s ray t_min t_max r ->
  exists sc rec k,
    Scene.build_bvh bfuel (Scene.mk sph None) = Ret sc
    /\ Scene.intersect_bvh tfuel sc ray t_min t_max tests
       = Ret (Some rec, tests + k)
    /\ (t_min <= HitRecord.t_ rec)%Q
    /\ (HitRecord.t_ rec <= HitRecord.t_ r)%Q.
Proof.
  intros Hmax Hb Ht Ho Hin Hp.
  destruct (bvh_finds_proper_hits_aux spec sph bfuel tfuel ray t_min t_max
              tests s r Hmax Hb Ht Ho Hin Hp)
    as (sc & rec & k & Hbuild & Hbvh & (s' & c' & _ & _ & Hi) & Hle).
  exists sc, rec, k. split; [exact Hbuild|]. split; [exact Hbvh|].
  split; [|exact Hle].
  destruct (intersect_root s' ray t_min c' rec Hi) as (t & -> & Ha & _).
  apply accepted_Q in Ha. cbn [Sphere.record HitRecord.t_]. lra.
Qed.

Lemma roots_ordered (s : Sphere.t (A := exactQ)) (ray : Ray.t) :
  (0 < Vec3.dot (Ray.direction ray) (Ray.direction ray))%Q ->
  (0 <= dsqrt (discriminant s ray))%Q ->
  (fst (roots s ray) <= snd (roots s ray))%Q.
Proof.
  unfold roots. fold (discriminant s ray).
  cbn [fst snd add sub mul div opp exactQ].
  generalize (dsqrt (A := exactQ) (discriminant s ray)).
  generalize (Vec3.dot (Vec3.sub (Ray.origin ray) (Sphere.center s))
                (Ray.direction ray)).
  generalize (Vec3.dot (Ray.direction ray) (Ray.direction ray)).
  intros a hb sd Ha Hsd.
  apply Qle_shift_div_l; [assumption|].
  assert (E : ((- hb - sd) / a * a == - hb - sd)%Q) by (field; lra).
  rewrite E. lra.
Qed.

(** With the candidates in order, a longer interval changes the answer of
    a sphere only to an earlier parameter. *)
Lemma intersect_grow (s : Sphere.t (A := exactQ)) (ray : Ray.t)
    (t_min c c' : Q) (r : HitRecord.t) :
  (fst (roots s ray) <= snd (roots s ray))%Q -> (c' <= c)%Q ->
  Sphere.intersect s ray t_min c' = Some r ->
  exists r', Sphere.intersect s ray t_min c = Some r'
             /\ (HitRecord.t_ r' <= HitRecord.t_ r)%Q.
Proof.
  rewrite !intersect_by_roots.
  destruct (discriminant s ray <? of_int 0)%D; [discriminate|].
  generalize (fst (roots s ray)), (snd (roots s ray)). intros t1 t2 Ho Hc.
  destruct (accepted t1 t_min c') eqn:E1.
  - intros H; inversion H; subst r; clear H.
    apply accepted_Q in E1.
    replace (accepted t1 t_min c) with true
      by (symmetry; apply accepted_Q; split; lra).
    eexists. split; [reflexivity|]. cbn [Sphere.record HitRecord.t_]. lra.
  - destruct (accepted t2 t_min c') eqn:E2; [|discriminate].
    intros H; inversion H; subst r; clear H.
    apply accepted_Q in E2.
    destruct (accepted t1 t_min c) eqn:E3.
    + apply accepted_Q in E3. eexists. split; [reflexivity|].
      cbn [Sphere.record HitRecord.t_]. lra.
    + replace (accepted t2 t_min c) with true
        by (symmetry; apply accepted_Q; split; lra).
      eexists. split; [reflexivity|]. cbn [Sphere.record HitRecord.t_]. lra.
Qed.

Lemma hit_discriminant (s : Sphere.t (A := exactQ)) (ray : Ray.t)
    (t_min c : Q) (r : HitRecord.t) :
  Sphere.intersect s ray t_min c = Some r -> ~ (discriminant s ray < 0)%Q.
Proof.
  rewrite intersect_by_roots. cbn [ltb of_int exactQ].
  destruct (Qltb (discriminant s ray) (inject_Z 0)) eqn:E; [discriminate|].
  apply Qltb_ge in E. intros _ H. change (inject_Z 0) with 0%Q in E. lra.
Qed.

(** A hit of the exhaustive search is the answer of a sphere of the scene
    on an interval that ends no later than [t_max]. *)
Lemma brute_loop_origin (sph : list (Sphere.t (A := exactQ))) (ray : Ray.t)
    (t_min t_max : Q) :
  forall (closest : Q) (hit : option HitRecord.t) (rec : HitRecord.t),
    (closest <= t_max)%Q ->
    Scene.brute_loop sph ray t_min closest hit = Some rec ->
    hit = Some rec
    \/ exists s c', In s sph /\ (c' <= t_max)%Q
                    /\ Sphere.intersect s ray t_min c' = Some rec.
Proof.
  induction sph as [|s0 rest IH]; intros closest hit rec Hc;
    cbn [Scene.brute_loop].
  - intros ->. now left.
  - destruct (Sphere.intersect s0 ray t_min closest) as [h|] eqn:E; intros H.
    + destruct (intersect_root s0 ray t_min closest h E)
        as (t & Eh & Hacc & _).
      apply accepted_Q in Hacc.
      apply IH in H.
      * destruct H as [H|(s & c' & Hin & Hc' & Hi)].
        -- inversion H; subst h. right. exists s0, closest.
           split; [now left|]. split; [assumption|]. rewrite <- H1. exact E.
        -- right. exists s, c'. split; [now right|]. auto.
      * subst h. cbn [Sphere.record HitRecord.t_]. lra.
    + apply IH in H; [|assumption].
      destruct H as [H|(s & c' & Hin & Hc' & Hi)]; [now left|].
      right. exists s, c'. split; [now right|]. auto.
Qed.

(** X28.  In exact arithmetic, for a ray with no zero direction component
    and a scene in which the ray touches no sphere in a single point, the
    radii are not negative and the square root is exact and not negative
    where the ray meets a sphere: when the exhaustive search reports a hit
    strictly inside the interval, the traversal of the constructed
    hierarchy reports a hit at the same parameter. *)
Theorem bvh_agrees_with_brute (spec : StdAlgoSpec SA)
    (sph : list (Sphere.t (A := exactQ))) (bfuel tfuel : nat) (ray : Ray.t)
    (t_min t_max : Q) (tests : Z) (rb : HitRecord.t) :
  2 * Z.of_nat (length sph) - 1 <= INT_MAX ->
  (length sph <= bfuel)%nat -> (2 * length sph - 1 <= tfuel)%nat ->
  oblique ray -> (forall s, In s sph -> regular s ray) ->
  Scene.intersect_brute (Scene.mk sph None) ray t_min t_max = Some rb ->
  (t_min < HitRecord.t_ rb)%Q -> (HitRecord.t_ rb < t_max)%Q ->
  exists sc rec k,
    Scene.build_bvh bfuel (Scene.mk sph None) = Ret sc
    /\ Scene.intersect_bvh tfuel sc ray t_min t_max tests
       = Ret (Some rec, tests + k)
    /\ (HitRecord.t_ rec == HitRecord.t_ rb)%Q.
Proof.
  intros Hmax Hb Ht Ho Hreg Hbrute Hlo Hhi.
  pose proof (oblique_norm_pos ray Ho) as Ha.
  assert (Hord : forall s r c, In s sph ->
                   Sphere.intersect s ray t_min c = Some r ->
                   (fst (roots s ray) <= snd (roots s ray))%Q
                   /\ (0 <= Sphere.radius s)%Q
                   /\ (0 < discriminant s ray)%Q
                   /\ sqrt_exact_at (discriminant s ray)).
  { intros s r c Hin Hi. destruct (Hreg s Hin) as [Hr [Hd|(Hd & He & Hs)]].
    - exfalso. exact (hit_discriminant s ray t_min c r Hi Hd).
    - split; [now apply roots_ordered | auto]. }
  assert (Hnear : forall s r', In s sph ->
                    Sphere.intersect s ray t_min t_max = Some r' ->
                    (HitRecord.t_ rb <= HitRecord.t_ r')%Q).
  { unfold Scene.intersect_brute in Hbrute. cbn [Scene.spheres] in Hbrute.
    apply (brute_loop_nearest sph ray t_min t_max t_max None rb) in Hbrute;
      [exact (proj2 Hbrute) | lra | discriminate]. }
  (* the sphere behind the hit of the exhaustive search *)
  unfold Scene.intersect_brute in Hbrute. cbn [Scene.spheres] in Hbrute.
  destruct (brute_loop_origin sph ray t_min t_max t_max None rb
              ltac:(lra) Hbrute) as [H|(sb & cb & Hinb & Hcb & Hib)];
    [discriminate|].
  destruct (Hord sb rb cb Hinb Hib) as (Ho1 & Hr1 & Hd1 & He1).
  destruct (intersect_grow sb ray t_min t_max cb rb Ho1 Hcb Hib)
    as (r' & Hi' & Hle').
  pose proof (Hnear sb r' Hinb Hi') as Hge'.
  assert (Hp : proper_hit sb ray t_min t_max r').
  { split; [exact Hi'|]. split; [lra|]. split; [lra|]. auto. }
  destruct (bvh_finds_proper_hits_aux spec sph bfuel tfuel ray t_min t_max
              tests sb r' Hmax Hb Ht Ho Hinb Hp)
    as (sc & rec & k & Hbuild & Hbvh & Hsrc & Hrec).
  exists sc, rec, k. split; [exact Hbuild|]. split; [exact Hbvh|].
  (* the sphere behind the hit of the traversal *)
  destruct Hsrc as (s' & c' & Hin' & Hc' & Hi2).
  destruct (Hord s' rec c' Hin' Hi2) as (Ho2 & _).
  destruct (intersect_grow s' ray t_min t_max c' rec Ho2 Hc' Hi2)
    as (r2 & Hi3 & Hle3).
  pose proof (Hnear s' r2 Hin' Hi3). lra.
Qed.
End Finds.

Lemma bvh_finds_proper_hits_witness :
  exists sc rec k,
    Scene.build_bvh (SA := ref_algo) 2 (Scene.mk ExQ.qpair None) = Ret sc
    /\ Scene.intersect_bvh (SQ := ExQ.qsqrt) 3 sc ExQ.qray_through 0%Q 10%Q 0
       = Ret (Some rec, 0 + k)
    /\ (0 <= HitRecord.t_ rec)%Q
    /\ (HitRecord.t_ rec
        <= HitRecord.t_ (Sphere.record ExQ.qball ExQ.qray_through (15 # 9)))%Q.
Proof.
  apply (@bvh_finds_proper_hits ExQ.qsqrt ref_algo ref_algo_spec ExQ.qpair
           2 3 ExQ.qray_through 0%Q 10%Q 0 ExQ.qball).
  - cbn. unfold INT_MAX. lia.
  - cbn. lia.
  - cbn. lia.
  - repeat split; vm_compute; discriminate.
  - right. left. reflexivity.
  - unfold proper_hit, sqrt_exact_at.
    split; [reflexivity|]. repeat split; vm_compute; reflexivity || discriminate.
Defined.

Lemma bvh_agrees_with_brute_witness :
  exists sc rec k,
    Scene.build_bvh (SA := ref_algo) 2 (Scene.mk ExQ.qpair None) = Ret sc
    /\ Scene.intersect_bvh (SQ := ExQ.qsqrt) 3 sc ExQ.qray_through 0%Q 10%Q 0
       = Ret (Some rec, 0 + k)
    /\ (HitRecord.t_ rec
        == HitRecord.t_ (Sphere.record ExQ.qball ExQ.qray_through (15 # 9)))%Q.
Proof.
  apply (@bvh_agrees_with_brute ExQ.qsqrt ref_algo ref_algo_spec ExQ.qpair
           2 3 ExQ.qray_through 0%Q 10%Q 0).
  - cbn. unfold INT_MAX. lia.
  - cbn. lia.
  - cbn. lia.
  - repeat split; vm_compute; discriminate.
  - intros s [<-|[<-|[]]]; unfold regular, sqrt_exact_at.
    + split; [vm_compute; discriminate|]. left. vm_compute. reflexivity.
    + split; [vm_compute; discriminate|]. right.
      repeat split; vm_compute; reflexivity || discriminate.
  - reflexivity.
  - vm_compute. reflexivity.
  - vm_compute. reflexivity.
Defined.
